(** * Bounds tracking and the empty/content state machine of morph.ts

    A shallow embedding of [packages/htmlbars-runtime/lib/morph.ts]: the
    [Bounds] classes, the range algorithms ([clear], [insertBoundsBefore],
    [clearWithComment], [renderIntoBounds]), the [EmptyableMorph] state
    machine with its three operation classes, and [TemplateMorph].

    The browser DOM is modelled as a store of nodes: every node has a
    [parentNode] link and every element an ordered [childNodes] list.
    JavaScript exceptions and the iteration bound of the [while] loops are
    made explicit in the result type of the computations. *)

From Stdlib Require Import List Arith Bool Lia.
From Stdlib Require String.
Import ListNotations.

(** ** Nodes and the DOM store *)

(** Nodes are identified by their allocation index (object identity). *)
Definition Node := nat.
Definition Element := Node.

(** Pointwise update of a table indexed by nodes. *)
Definition upd {A : Type} (f : nat -> A) (k : nat) (v : A) : nat -> A :=
  fun x => if Nat.eqb x k then v else f x.

(** The list operations behind [childNodes]. *)
Fixpoint next_after (n : Node) (l : list Node) : option Node :=
  match l with
  | [] => None
  | x :: t => if Nat.eqb x n then hd_error t else next_after n t
  end.

Definition remove_node (n : Node) (l : list Node) : list Node :=
  filter (fun x => negb (Nat.eqb x n)) l.

Fixpoint insert_before (n r : Node) (l : list Node) : list Node :=
  match l with
  | [] => [n]
  | x :: t => if Nat.eqb x r then n :: x :: t else x :: insert_before n r t
  end.

Definition insert_at (n : Node) (ref : option Node) (l : list Node) : list Node :=
  match ref with
  | None => l ++ [n]
  | Some r => insert_before n r l
  end.

Fixpoint last_error (l : list Node) : option Node :=
  match l with
  | [] => None
  | [x] => Some x
  | _ :: t => last_error t
  end.

Definition eqb_onode (a b : option Node) : bool :=
  match a, b with
  | Some x, Some y => Nat.eqb x y
  | None, None => true
  | _, _ => false
  end.

(** The exceptions of the platform ([TypeError] for a property read on
    null, the two DOMExceptions of the tree mutations) and the failure of
    the evaluation engine. *)
Inductive Exn := TypeError | NotFoundError | HierarchyRequestError | EngineError.

Module DOM.

(** The node store.  [parentNode] and [childNodes] are the two directions
    of the tree links, [commentData] holds the text of the nodes made by
    [createComment], and [nextNode] is the identity of the next node to
    be created. *)
Record t := mk {
  parentNode : Node -> option Element;
  childNodes : Element -> list Node;
  commentData : Node -> option String.string;
  nextNode : Node
}.

(** [node.nextSibling] *)
Definition nextSibling (d : t) (n : Node) : option Node :=
  match parentNode d n with
  | None => None
  | Some p => next_after n (childNodes d p)
  end.

(** Unlinks [n] from its parent, if it has one. *)
Definition detach (n : Node) (d : t) : t :=
  match parentNode d n with
  | None => d
  | Some q =>
      mk (upd (parentNode d) n None)
         (upd (childNodes d) q (remove_node n (childNodes d q)))
         (commentData d) (nextNode d)
  end.

(** [parent.removeChild(child)]: [None] stands for the NotFoundError
    raised when [child] is not a child of [parent]. *)
Definition removeChild (parent : Element) (child : Node) (d : t) : option t :=
  match parentNode d child with
  | Some q => if Nat.eqb q parent then Some (detach child d) else None
  | None => None
  end.

(** [ancestor d a n]: [a] is reached from [n] along one or more
    [parentNode] links. *)
Inductive ancestor (d : t) (a : Node) : Node -> Prop :=
| anc_parent n : parentNode d n = Some a -> ancestor d a n
| anc_step n q : parentNode d n = Some q -> ancestor d a q -> ancestor d a n.

(** [a.contains(n)]: [a] is [n] or an ancestor of [n], found by walking up
    from [n] for at most [fuel] links. *)
Fixpoint contains (fuel : nat) (d : t) (a n : Node) : bool :=
  if Nat.eqb n a then true
  else match fuel with
       | 0 => false
       | S fuel' => match parentNode d n with
                    | Some q => contains fuel' d a q
                    | None => false
                    end
       end.

(** [parent.insertBefore(node, reference)], with the validity checks of
    the platform in their order: a [node] that is [parent] or contains it
    raises HierarchyRequestError, a [reference] that is not a child of
    [parent] raises NotFoundError.  A node that is already in the tree is
    moved.  Inserting a node before itself leaves it where it is.  A path
    to the root has no more links than the store has nodes, which bounds
    the walk of the first check.  The store does not record node kinds: a
    parameter of type [Element] stands for an element, as the signatures
    of the source require. *)
Definition insertBefore (parent : Element) (node : Node) (reference : option Node)
    (d : t) : Exn + t :=
  if contains (nextNode d) d node parent then inl HierarchyRequestError
  else
    let valid :=
      match reference with
      | None => true
      | Some r => match parentNode d r with
                  | Some q => Nat.eqb q parent
                  | None => false
                  end
      end in
    if valid then
      let reference' :=
        if eqb_onode reference (Some node) then nextSibling d node else reference in
      let d1 := detach node d in
      inr (mk (upd (parentNode d1) node (Some parent))
              (upd (childNodes d1) parent
                   (insert_at node reference' (childNodes d1 parent)))
              (commentData d1) (nextNode d1))
    else inl NotFoundError.

(** [document.createComment(text)]: a new node, not yet in the tree. *)
Definition createComment (text : String.string) (d : t) : Node * t :=
  let c := nextNode d in
  (c, mk (upd (parentNode d) c None)
         (upd (childNodes d) c [])
         (upd (commentData d) c (Some text))
         (S c)).

(** [document.createTextNode(..)] and the like: a new node that is not a
    comment, not yet in the tree. *)
Definition createNode (d : t) : Node * t :=
  let c := nextNode d in
  (c, mk (upd (parentNode d) c None)
         (upd (childNodes d) c [])
         (commentData d)
         (S c)).

(** A store of [n] nodes, none of them in the tree. *)
Definition initial (n : nat) : t :=
  mk (fun _ => None) (fun _ => []) (fun _ => None) n.

(** [parent.appendChild(node)], which is [insertBefore] with a null
    reference; used to build stores, where a call that would throw is
    skipped. *)
Definition appendChild (parent : Element) (node : Node) (d : t) : t :=
  match insertBefore parent node None d with
  | inr d' => d'
  | inl _ => d
  end.

Definition with_children (parent : Element) (kids : list Node) (d : t) : t :=
  fold_left (fun d' n => appendChild parent n d') kids d.

(** Consistency of the store: the two link directions agree, no node is
    listed twice, nodes not yet created are not in the tree, and the
    links form a forest: no node is its own ancestor. *)
Record wf (d : t) : Prop := {
  wf_links : forall p n, In n (childNodes d p) <-> parentNode d n = Some p;
  wf_nodup : forall p, NoDup (childNodes d p);
  wf_fresh : forall n, nextNode d <= n ->
               parentNode d n = None /\ childNodes d n = [];
  wf_acyclic : forall n, ~ ancestor d n n
}.

Arguments wf_links {d}.
Arguments wf_nodup {d}.
Arguments wf_fresh {d}.
Arguments wf_acyclic {d}.

End DOM.

(** ** Templates, render results and the world *)

(** A template is known by its identity only. *)
Definition Template := nat.

(** Modelled from the spec: the [RenderResult] of [./render], an object
    with [firstNode()], [lastNode()], [rerender()] and a [template] identity.
    A value of this type is the object's identity with the template it was
    evaluated from; the extent the object reports through its accessors is
    its mutable state and lives in the heap, so that the morph's
    [lastResult] and the bounds of its HasContent state, which are the same
    object, always agree. *)
Record RenderResult := mkResult {
  rid : nat;
  template : Template
}.

Record Extent := mkExtent {
  eparent : Element;
  efirst : option Node;
  elast : option Node
}.

(** Calls into the evaluation engine, recorded in call order. *)
Inductive Event :=
| EvEvaluate (t : Template) (nextSibling : option Node)
| EvRerender (r : RenderResult).

(** The part of the state the evaluation engine works on: the DOM and the
    extents of the render results made so far. *)
Record Heap := mkHeap {
  dom : DOM.t;
  extents : nat -> Extent;
  nextResult : nat
}.

(** The world adds the record of the calls made into the engine; only the
    call sites in this file write to it. *)
Record World := mkWorld {
  heap : Heap;
  trace : list Event
}.

Definition set_dom (w : World) (d : DOM.t) : World :=
  mkWorld (mkHeap d (extents (heap w)) (nextResult (heap w))) (trace w).

(** ** Computations *)

(** A call returns normally, throws, or exceeds its iteration bound. *)
Inductive Outcome (A : Type) :=
| Ok (a : A) (w : World)
| Throw (e : Exn)
| OutOfFuel.

Arguments Ok {A} a w.
Arguments Throw {A} e.
Arguments OutOfFuel {A}.

Definition M (A : Type) := World -> Outcome A.

Definition ret {A} (a : A) : M A := fun w => Ok a w.

Definition bind {A B} (m : M A) (k : A -> M B) : M B :=
  fun w => match m w with
           | Ok a w' => k a w'
           | Throw e => Throw e
           | OutOfFuel => OutOfFuel
           end.

Definition throw {A} (e : Exn) : M A := fun _ => Throw e.

Declare Scope js_scope.
Delimit Scope js_scope with js.
Notation "x <- m ;; k" := (bind m (fun x => k))
  (at level 61, m at next level, right associativity) : js_scope.
Notation "m ;;; k" := (bind m (fun _ => k))
  (at level 61, right associativity) : js_scope.
Open Scope js_scope.

(** The platform's node operations as computations. *)
Module Node.

Definition nextSibling (n : Node) : M (option Node) :=
  fun w => Ok (DOM.nextSibling (dom (heap w)) n) w.

Definition parentNode (n : Node) : M (option Element) :=
  fun w => Ok (DOM.parentNode (dom (heap w)) n) w.

Definition removeChild (parent : Element) (child : Node) : M unit :=
  fun w => match DOM.removeChild parent child (dom (heap w)) with
           | Some d => Ok tt (set_dom w d)
           | None => Throw NotFoundError
           end.

End Node.

Module DOMHelper.

(** Modelled from the spec: the DOM mutation helper of [./dom], consumed
    as [insertBefore(parent, node, referenceOrNull)]; it hands the call to
    the platform's [parent.insertBefore(node, reference)]. *)
Definition insertBefore (parent : Element) (node : Node) (reference : option Node)
    : M unit :=
  fun w => match DOM.insertBefore parent node reference (dom (heap w)) with
           | inr d => Ok tt (set_dom w d)
           | inl e => Throw e
           end.

(** Modelled from the spec: the DOM mutation helper of [./dom], consumed
    as [createComment(text) -> Node]. *)
Definition createComment (text : String.string) : M Node :=
  fun w => let '(c, d) := DOM.createComment text (dom (heap w)) in
           Ok c (set_dom w d).

End DOMHelper.

(** ** Bounds *)

(** The implementers of the [Bounds] interface: the two classes of the file
    and the engine's [RenderResult], which [TemplateMorph] hands to
    [didInsertContent]. *)
Inductive Bounds :=
| ConcreteBounds (parentNode : Element) (first last : option Node)
| SingleNodeBounds (parentNode : Element) (node : option Node)
| ResultBounds (r : RenderResult).

Definition bounds (parent : Element) (first last : option Node) : Bounds :=
  ConcreteBounds parent first last.

Definition appendBounds (parent : Element) : Bounds :=
  ConcreteBounds parent None None.

Module Bounds.

Definition parentElement (b : Bounds) : M Element :=
  fun w => match b with
           | ConcreteBounds p _ _ => Ok p w
           | SingleNodeBounds p _ => Ok p w
           | ResultBounds r => Ok (eparent (extents (heap w) (rid r))) w
           end.

Definition firstNode (b : Bounds) : M (option Node) :=
  fun w => match b with
           | ConcreteBounds _ f _ => Ok f w
           | SingleNodeBounds _ n => Ok n w
           | ResultBounds r => Ok (efirst (extents (heap w) (rid r))) w
           end.

Definition lastNode (b : Bounds) : M (option Node) :=
  fun w => match b with
           | ConcreteBounds _ _ l => Ok l w
           | SingleNodeBounds _ n => Ok n w
           | ResultBounds r => Ok (elast (extents (heap w) (rid r))) w
           end.

End Bounds.

(** ** Range algorithms *)

(** The loop of [clear]: [node] is the loop variable, [fuel] bounds the
    number of iterations. *)
Fixpoint clear_loop (fuel : nat) (parent : Element) (last : option Node)
    (node : option Node) : M (option Node) :=
  match node with
  | None => ret None
  | Some n =>
      match fuel with
      | 0 => fun _ => OutOfFuel
      | S fuel' =>
          next <- Node.nextSibling n ;;
          Node.removeChild parent n ;;;
          if eqb_onode (Some n) last then ret next
          else clear_loop fuel' parent last next
      end
  end.

Definition clear (fuel : nat) (b : Bounds) : M (option Node) :=
  parent <- Bounds.parentElement b ;;
  first <- Bounds.firstNode b ;;
  last <- Bounds.lastNode b ;;
  clear_loop fuel parent last first.

Definition clearWithComment (fuel : nat) (b : Bounds) : M Bounds :=
  nextSibling <- clear fuel b ;;
  parent <- Bounds.parentElement b ;;
  comment <- DOMHelper.createComment String.EmptyString ;;
  parent' <- Bounds.parentElement b ;;
  DOMHelper.insertBefore parent' comment nextSibling ;;;
  ret (ConcreteBounds parent (Some comment) (Some comment)).

(** The loop of [insertBoundsBefore]; [current] is the loop variable. *)
Fixpoint insertBounds_loop (fuel : nat) (parent : Element) (last : option Node)
    (nextSibling' : option Node) (current : option Node) : M unit :=
  match current with
  | None => ret tt
  | Some c =>
      match fuel with
      | 0 => fun _ => OutOfFuel
      | S fuel' =>
          DOMHelper.insertBefore parent c nextSibling' ;;;
          if eqb_onode (Some c) last then ret tt
          else
            next <- Node.nextSibling c ;;
            insertBounds_loop fuel' parent last nextSibling' next
      end
  end.

Definition insertBoundsBefore (fuel : nat) (parent : Element) (b : Bounds)
    (reference : option Bounds) : M unit :=
  first <- Bounds.firstNode b ;;
  last <- Bounds.lastNode b ;;
  nextSibling' <- match reference with
                  | Some r => Bounds.firstNode r
                  | None => ret None
                  end ;;
  insertBounds_loop fuel parent last nextSibling' first.

(** ** The evaluation engine *)

(** The template evaluator of [./template] and the render results of
    [./render] are external to the file and enter as a parameter:
    [evaluate t parent nextSibling] renders template [t] for a morph whose
    parent element is [parent], anchored at [nextSibling]; [rerender r]
    lets result [r] patch itself.  Both work on the heap and cannot reach
    the morph that calls them; [None] stands for an exception. *)
Class Engine := {
  evaluate : Template -> Element -> option Node -> Heap -> option (RenderResult * Heap);
  rerender : RenderResult -> Heap -> option Heap
}.

(** [template.evaluate(morph, nextSibling)] *)
Definition template_evaluate `{Engine} (t : Template) (morphParent : Element)
    (nextSibling : option Node) : M RenderResult :=
  fun w => match evaluate t morphParent nextSibling (heap w) with
           | Some (r, h) => Ok r (mkWorld h (trace w ++ [EvEvaluate t nextSibling]))
           | None => Throw EngineError
           end.

(** [result.rerender()] *)
Definition result_rerender `{Engine} (r : RenderResult) : M unit :=
  fun w => match rerender r (heap w) with
           | Some h => Ok tt (mkWorld h (trace w ++ [EvRerender r]))
           | None => Throw EngineError
           end.

Definition renderIntoBounds `{Engine} (fuel : nat) (t : Template) (b : Bounds)
    (morphParent : Element) : M RenderResult :=
  nextSibling <- clear fuel b ;;
  template_evaluate t morphParent nextSibling.

(** ** EmptyableMorph and its operation classes *)

(** The three subclasses of [EmptyableMorphOperations] with their fields. *)
Inductive Operations :=
| Appending
| Empty (comment : Node)
| HasContent (bounds : Bounds).

(** The fields of an [EmptyableMorph] that the file reads: the parent
    element and the current operations object.  The DOM helper reached
    through [frame.dom()] is the one of [DOMHelper]. *)
Record EmptyableMorph := mkMorph {
  parentNode : Element;
  currentOperations : Operations
}.

(** [parent.currentOperations = ops] *)
Definition set_currentOperations (parent : EmptyableMorph) (ops : Operations)
    : EmptyableMorph :=
  mkMorph (parentNode parent) ops.

Module Empty.

(** The constructor: makes the placeholder comment and inserts it. *)
Definition new (parent : EmptyableMorph) (nextSibling : option Node) : M Operations :=
  comment <- DOMHelper.createComment String.EmptyString ;;
  DOMHelper.insertBefore (parentNode parent) comment nextSibling ;;;
  ret (Empty comment).

Definition firstNode (comment : Node) : M (option Node) := ret (Some comment).

Definition lastNode (comment : Node) : M (option Node) := ret (Some comment).

Definition didBecomeEmpty (parent : EmptyableMorph) : M EmptyableMorph := ret parent.

Definition nextSiblingForContent (comment : Node) : M (option Node) :=
  ret (Some comment).

(** [comment.parentNode.removeChild(comment)] fails with a TypeError when
    the comment has no parent. *)
Definition didInsertContent (parent : EmptyableMorph) (comment : Node) (b : Bounds)
    : M EmptyableMorph :=
  p <- Node.parentNode comment ;;
  match p with
  | None => throw TypeError
  | Some q =>
      Node.removeChild q comment ;;;
      ret (set_currentOperations parent (HasContent b))
  end.

End Empty.

Module Appending.

Definition firstNode : M (option Node) := ret None.

Definition lastNode : M (option Node) := ret None.

Definition didBecomeEmpty (parent : EmptyableMorph) : M EmptyableMorph :=
  ops <- Empty.new parent None ;;
  ret (set_currentOperations parent ops).

Definition nextSiblingForContent : M (option Node) := ret None.

Definition didInsertContent (parent : EmptyableMorph) (b : Bounds) : M EmptyableMorph :=
  ret (set_currentOperations parent (HasContent b)).

End Appending.

Module HasContent.

Definition firstNode (b : Bounds) : M (option Node) := Bounds.firstNode b.

Definition lastNode (b : Bounds) : M (option Node) := Bounds.lastNode b.

Definition didBecomeEmpty (fuel : nat) (parent : EmptyableMorph) (b : Bounds)
    : M EmptyableMorph :=
  nextSibling <- clear fuel b ;;
  ops <- Empty.new parent nextSibling ;;
  ret (set_currentOperations parent ops).

Definition nextSiblingForContent (b : Bounds) : M (option Node) := Bounds.firstNode b.

(** [this.bounds = bounds] keeps the operations object and replaces its
    field. *)
Definition didInsertContent (fuel : nat) (parent : EmptyableMorph) (old b : Bounds)
    : M EmptyableMorph :=
  clear fuel old ;;;
  ret (set_currentOperations parent (HasContent b)).

End HasContent.

Module EmptyableMorph.

Definition new (parentNode : Element) : EmptyableMorph := mkMorph parentNode Appending.

Definition firstNode (this : EmptyableMorph) : M (option Node) :=
  match currentOperations this with
  | Appending => Appending.firstNode
  | Empty c => Empty.firstNode c
  | HasContent b => HasContent.firstNode b
  end.

Definition lastNode (this : EmptyableMorph) : M (option Node) :=
  match currentOperations this with
  | Appending => Appending.lastNode
  | Empty c => Empty.lastNode c
  | HasContent b => HasContent.lastNode b
  end.

(** [this.lastNode().nextSibling] fails with a TypeError when [lastNode()]
    is null. *)
Definition nextSibling (this : EmptyableMorph) : M (option Node) :=
  l <- lastNode this ;;
  match l with
  | None => throw TypeError
  | Some n => Node.nextSibling n
  end.

Definition didBecomeEmpty (fuel : nat) (this : EmptyableMorph) : M EmptyableMorph :=
  match currentOperations this with
  | Appending => Appending.didBecomeEmpty this
  | Empty _ => Empty.didBecomeEmpty this
  | HasContent b => HasContent.didBecomeEmpty fuel this b
  end.

Definition nextSiblingForContent (this : EmptyableMorph) : M (option Node) :=
  match currentOperations this with
  | Appending => Appending.nextSiblingForContent
  | Empty c => Empty.nextSiblingForContent c
  | HasContent b => HasContent.nextSiblingForContent b
  end.

Definition didInsertContent (fuel : nat) (this : EmptyableMorph) (b : Bounds)
    : M EmptyableMorph :=
  match currentOperations this with
  | Appending => Appending.didInsertContent this b
  | Empty c => Empty.didInsertContent this c b
  | HasContent old => HasContent.didInsertContent fuel this old b
  end.

End EmptyableMorph.

(** ** TemplateMorph *)

(** A [TemplateMorph] is an [EmptyableMorph] with the [lastResult] field;
    [None] is the field's initial undefined and the null it is reset to. *)
Record TemplateMorph := mkTemplateMorph {
  super : EmptyableMorph;
  lastResult : option RenderResult
}.

Module TemplateMorph.

Definition new (parentNode : Element) : TemplateMorph :=
  mkTemplateMorph (EmptyableMorph.new parentNode) None.

Definition firstNode (this : TemplateMorph) : M (option Node) :=
  match lastResult this with
  | Some r => Bounds.firstNode (ResultBounds r)
  | None => EmptyableMorph.firstNode (super this)
  end.

Definition lastNode (this : TemplateMorph) : M (option Node) :=
  match lastResult this with
  | Some r => Bounds.lastNode (ResultBounds r)
  | None => EmptyableMorph.lastNode (super this)
  end.

(** The assignment to [lastResult] comes before [didInsertContent]; both
    have happened when the call returns. *)
Definition appendTemplate `{Engine} (fuel : nat) (this : TemplateMorph) (t : Template)
    (nextSibling : option Node) : M TemplateMorph :=
  result <- template_evaluate t (parentNode (super this)) nextSibling ;;
  m <- EmptyableMorph.didInsertContent fuel (super this) (ResultBounds result) ;;
  ret (mkTemplateMorph m (Some result)).

Definition updateTemplate `{Engine} (fuel : nat) (this : TemplateMorph) (t : Template)
    : M TemplateMorph :=
  match lastResult this with
  | None =>
      nextSibling <- EmptyableMorph.nextSiblingForContent (super this) ;;
      appendTemplate fuel this t nextSibling
  | Some r =>
      if Nat.eqb t (template r) then
        result_rerender r ;;; ret this
      else
        nextSibling <- EmptyableMorph.nextSiblingForContent (super this) ;;
        appendTemplate fuel this t nextSibling
  end.

Definition didBecomeEmpty (fuel : nat) (this : TemplateMorph) : M TemplateMorph :=
  m <- EmptyableMorph.didBecomeEmpty fuel (super this) ;;
  ret (mkTemplateMorph m None).

End TemplateMorph.

(** The calls a subclass makes on a [TemplateMorph]. *)
Inductive Call :=
| CallAppendTemplate (t : Template) (nextSibling : option Node)
| CallUpdateTemplate (t : Template)
| CallDidBecomeEmpty.

Definition run_call `{Engine} (fuel : nat) (c : Call) (this : TemplateMorph)
    : M TemplateMorph :=
  match c with
  | CallAppendTemplate t nextSibling =>
      TemplateMorph.appendTemplate fuel this t nextSibling
  | CallUpdateTemplate t => TemplateMorph.updateTemplate fuel this t
  | CallDidBecomeEmpty => TemplateMorph.didBecomeEmpty fuel this
  end.

(** ** A reference engine *)

(** Renders [k] new nodes before [nextSibling] under [parent], in document
    order. *)
Fixpoint render_nodes (k : nat) (parent : Element) (nextSibling : option Node)
    (d : DOM.t) : option (list Node * DOM.t) :=
  match k with
  | 0 => Some ([], d)
  | S k' =>
      let '(n, d1) := DOM.createNode d in
      match DOM.insertBefore parent n nextSibling d1 with
      | inl _ => None
      | inr d2 =>
          match render_nodes k' parent nextSibling d2 with
          | None => None
          | Some (ns, d3) => Some (n :: ns, d3)
          end
      end
  end.

(** Modelled from the spec: the evaluation engine behind
    [template.evaluate(morph, nextSibling) -> RenderResult].  Template [t]
    renders [S (size t)] new nodes at the anchor; the result is a new object
    that reports them as its extent and [t] as its template; [rerender]
    patches in place and keeps the extent. *)
Definition sizedEngine (size : Template -> nat) : Engine :=
  {| evaluate := fun t parent nextSibling h =>
       match render_nodes (S (size t)) parent nextSibling (dom h) with
       | None => None
       | Some (ns, d) =>
           Some (mkResult (nextResult h) t,
                 mkHeap d
                        (upd (extents h) (nextResult h)
                             (mkExtent parent (hd_error ns) (last_error ns)))
                        (S (nextResult h)))
       end;
     rerender := fun _ h => Some h |}.

Definition value_of {A} (o : Outcome A) (default : A) : A :=
  match o with
  | Ok a _ => a
  | _ => default
  end.

Definition world_after {A} (o : Outcome A) (default : World) : World :=
  match o with
  | Ok _ w => w
  | _ => default
  end.

(** ** Sample worlds *)

(** The reference engine in which template [t] renders [t + 1] nodes. *)
Definition sample_engine : Engine := sizedEngine (fun t => t).

Definition sample_dom : DOM.t :=
  DOM.with_children 0 [1; 2; 3; 4] (DOM.initial 8).

Definition world_of (d : DOM.t) : World :=
  mkWorld (mkHeap d (fun _ => mkExtent 0 None None) 0) [].

Definition sample_world : World := world_of sample_dom.

(** Bounds over the children 2 and 3 of element 0. *)
Definition sample_bounds : Bounds := bounds 0 (Some 2) (Some 3).

(** Bounds whose last node 7 is a node outside the tree. *)
Definition stray_bounds : Bounds := bounds 0 (Some 2) (Some 7).

(** The same bounds recorded under element 5, which is not the parent of
    node 2. *)
Definition misplaced_bounds : Bounds := bounds 5 (Some 2) (Some 7).

(** [clear] on the sample bounds, and the world it leaves. *)
Definition sample_clear : Outcome (option Node) := clear 2 sample_bounds sample_world.

Definition world_after_clear : World := world_after sample_clear sample_world.

(** Bounds over the single child 4 of element 0, and a reference whose
    first node is the child 2. *)
Definition single_bounds : Bounds := SingleNodeBounds 0 (Some 4).

Definition reference_bounds : Bounds := SingleNodeBounds 0 (Some 2).

(** A morph under element 0 whose content is the sample bounds. *)
Definition morph_with_content : EmptyableMorph := mkMorph 0 (HasContent sample_bounds).

(** A first [updateTemplate] of template 1 on a new morph under element 0,
    and the morph and the world it leaves. *)
Definition first_update : Outcome TemplateMorph :=
  @TemplateMorph.updateTemplate sample_engine 4 (TemplateMorph.new 0) 1 sample_world.

Definition morph_after_first : TemplateMorph :=
  value_of first_update (TemplateMorph.new 0).

Definition world_after_first : World := world_after first_update sample_world.

(** [didBecomeEmpty] on the morph that holds the result of template 1,
    and the morph and the world it leaves. *)
Definition second_empty : Outcome TemplateMorph :=
  TemplateMorph.didBecomeEmpty 6 morph_after_first world_after_first.

Definition morph_after_second : TemplateMorph :=
  value_of second_empty (TemplateMorph.new 0).

Definition world_after_second : World := world_after second_empty sample_world.



(** A morph under element 0 whose placeholder is the child 3. *)
Definition morph_with_placeholder : EmptyableMorph := mkMorph 0 (Empty 3).

(** [didBecomeEmpty] on a new morph under element 0. *)
Definition first_empty : Outcome TemplateMorph :=
  @run_call sample_engine 4 CallDidBecomeEmpty (TemplateMorph.new 0) sample_world.

Definition morph_after_empty : TemplateMorph :=
  value_of first_empty (TemplateMorph.new 0).

Definition world_after_empty : World := world_after first_empty sample_world.

(** ** The vocabulary of the specification *)

(** What the three accessors of a [Bounds] answer in a given heap. *)
Definition extent_of (b : Bounds) (h : Heap) : Extent :=
  match b with
  | ConcreteBounds p f l => mkExtent p f l
  | SingleNodeBounds p n => mkExtent p n n
  | ResultBounds r => extents h (rid r)
  end.

(** [covers b h pre mid post]: the bounds [b] are well formed and span the
    run [mid] of the children [pre ++ mid ++ post] of their parent. *)
Definition covers (b : Bounds) (h : Heap) (pre mid post : list Node) : Prop :=
  mid <> [] /\
  efirst (extent_of b h) = hd_error mid /\
  elast (extent_of b h) = last_error mid /\
  DOM.childNodes (dom h) (eparent (extent_of b h)) = pre ++ mid ++ post.

(** [l] is met when walking the [nextSibling] links from [n]. *)
Inductive reaches (d : DOM.t) : Node -> Node -> Prop :=
| reaches_here n : reaches d n n
| reaches_next n m l :
    DOM.nextSibling d n = Some m -> reaches d m l -> reaches d n l.

(** A DOM-only step leaves the rest of the world alone. *)
Definition dom_frame (p : Element) (d d' : DOM.t) : Prop :=
  (forall q, q <> p -> DOM.childNodes d' q = DOM.childNodes d q) /\
  DOM.nextNode d' = DOM.nextNode d /\
  DOM.commentData d' = DOM.commentData d.

(** What a store [d'] is after the run [mid] has been taken out of the
    children [pre ++ mid ++ post] of [p] in [d]. *)
Record range_removed (p : Element) (pre mid post : list Node) (d d' : DOM.t)
    : Prop := {
  rr_wf : DOM.wf d';
  rr_children : DOM.childNodes d' p = pre ++ post;
  rr_count : length (DOM.childNodes d' p) = length (DOM.childNodes d p) - length mid;
  rr_removed : forall n, In n mid ->
      DOM.parentNode d' n = None /\ ~ In n (DOM.childNodes d' p);
  rr_kept : forall n, ~ In n mid -> DOM.parentNode d' n = DOM.parentNode d n;
  rr_others : forall q, q <> p -> DOM.childNodes d' q = DOM.childNodes d q
}.

(** What a store [d'] is after a new comment has been created in [d] and
    inserted between [pre] and [post] under [p]. *)
Record comment_placed (p : Element) (pre post : list Node) (d d' : DOM.t)
    : Prop := {
  cp_wf : DOM.wf d';
  cp_children : DOM.childNodes d' p = pre ++ DOM.nextNode d :: post;
  cp_others : forall q, q <> p -> DOM.childNodes d' q = DOM.childNodes d q;
  cp_next : DOM.nextNode d' = S (DOM.nextNode d);
  cp_parent : DOM.parentNode d' (DOM.nextNode d) = Some p;
  cp_links : forall n, n <> DOM.nextNode d ->
      DOM.parentNode d' n = DOM.parentNode d n;
  cp_data : DOM.commentData d' (DOM.nextNode d) = Some String.EmptyString;
  cp_data_old : forall n, n <> DOM.nextNode d ->
      DOM.commentData d' n = DOM.commentData d n
}.

(** What the current operations object of a morph relies on: while
    appending, that the parent element exists; while empty, that the
    placeholder comment is a child of the parent; with content, that the
    bounds are well formed under the parent. *)
Definition morph_ok (m : EmptyableMorph) (h : Heap) : Prop :=
  match currentOperations m with
  | Appending => parentNode m < DOM.nextNode (dom h)
  | Empty c =>
      DOM.parentNode (dom h) c = Some (parentNode m) /\
      DOM.commentData (dom h) c = Some String.EmptyString
  | HasContent b =>
      eparent (extent_of b h) = parentNode m /\
      exists pre mid post, covers b h pre mid post
  end.

(** A render result names the template it was evaluated from. *)
Definition evaluate_names_template (E : Engine) : Prop :=
  forall t p ns h r h', evaluate t p ns h = Some (r, h') -> template r = t.

(** What the heap [h'] and the result [r] are after template [t] has been
    rendered as the run [nodes] between [pre] and [post] under [p]. *)
Record rendered (t : Template) (p : Element) (pre nodes post : list Node)
    (h : Heap) (r : RenderResult) (h' : Heap) : Prop := {
  rd_template : template r = t;
  rd_rid : rid r = nextResult h;
  rd_nextResult : nextResult h' = S (nextResult h);
  rd_nonempty : nodes <> [];
  rd_wf : DOM.wf (dom h');
  rd_children : DOM.childNodes (dom h') p = pre ++ nodes ++ post;
  rd_others : forall q, q < DOM.nextNode (dom h) -> q <> p ->
      DOM.childNodes (dom h') q = DOM.childNodes (dom h) q;
  rd_links : forall n, n < DOM.nextNode (dom h) ->
      DOM.parentNode (dom h') n = DOM.parentNode (dom h) n;
  rd_nextNode : DOM.nextNode (dom h) <= DOM.nextNode (dom h');
  rd_extent : extents h' (rid r) = mkExtent p (hd_error nodes) (last_error nodes);
  rd_extents : forall i, i < nextResult h -> extents h' i = extents h i
}.

(** Evaluation at a valid anchor succeeds: it renders one or more new
    nodes immediately before the anchor (at the end of the parent for a
    null anchor) and answers a new result that spans them. *)
Definition evaluate_renders (E : Engine) : Prop :=
  forall t p h pre post,
    DOM.wf (dom h) -> p < DOM.nextNode (dom h) ->
    DOM.childNodes (dom h) p = pre ++ post ->
    exists r nodes h',
      evaluate t p (hd_error post) h = Some (r, h') /\
      rendered t p pre nodes post h r h'.

(** A result that patches itself keeps spanning a run of children of the
    same parent. *)
Definition rerender_in_place (E : Engine) : Prop :=
  forall r h h' pre mid post,
    rerender r h = Some h' ->
    DOM.wf (dom h) -> rid r < nextResult h ->
    covers (ResultBounds r) h pre mid post ->
    DOM.wf (dom h') /\
    DOM.nextNode (dom h) <= DOM.nextNode (dom h') /\
    nextResult h <= nextResult h' /\
    eparent (extents h' (rid r)) = eparent (extents h (rid r)) /\
    exists pre' mid' post', covers (ResultBounds r) h' pre' mid' post'.

(** [region m h pre old post]: the parent's children are
    [pre ++ old ++ post], where [old] is what the current operations object
    owns: nothing while appending (the region is the end of the parent),
    the placeholder while empty, the nodes of the bounds with content. *)
Definition region (m : EmptyableMorph) (h : Heap) (pre old post : list Node) : Prop :=
  DOM.childNodes (dom h) (parentNode m) = pre ++ old ++ post /\
  match currentOperations m with
  | Appending => old = [] /\ post = []
  | Empty c => old = [c]
  | HasContent b => eparent (extent_of b h) = parentNode m /\ covers b h pre old post
  end.

(** Bounds that are a render result refer to a result that exists. *)
Definition bounds_allocated (b : Bounds) (h : Heap) : Prop :=
  match b with
  | ResultBounds r => rid r < nextResult h
  | _ => True
  end.

(** What [TemplateMorph] keeps true between its calls. *)
Definition template_morph_ok (tm : TemplateMorph) (h : Heap) : Prop :=
  parentNode (super tm) < DOM.nextNode (dom h) /\
  morph_ok (super tm) h /\
  (forall b, currentOperations (super tm) = HasContent b -> bounds_allocated b h) /\
  (forall r, lastResult tm = Some r ->
     currentOperations (super tm) = HasContent (ResultBounds r)).

(** [only_unlinks p d d']: going from [d] to [d'], children of [p] have
    been taken out of the tree and nothing else has happened: the children
    of other elements, the node counter and the comment texts are the same,
    no child of [p] is new, and a parent link that changed was a link to
    [p] and is now null. *)
Definition only_unlinks (p : Element) (d d' : DOM.t) : Prop :=
  dom_frame p d d' /\
  (forall n, In n (DOM.childNodes d' p) -> In n (DOM.childNodes d p)) /\
  (forall n, DOM.parentNode d' n = DOM.parentNode d n \/
             (DOM.parentNode d n = Some p /\ DOM.parentNode d' n = None)).

(** The anchor [insertBoundsBefore] computes from its [reference]
    argument: the reference's first node, or null without a reference. *)
Definition reference_anchor (reference : option Bounds) (h : Heap) : option Node :=
  match reference with
  | Some rb => efirst (extent_of rb h)
  | None => None
  end.

(** The states a [TemplateMorph] under element [p] goes through from its
    construction in world [w0], by calls of [updateTemplate] and
    [didBecomeEmpty] that return normally, each allowed as many iterations
    as the parent has children. *)
Inductive reachable `{Engine} (p : Element) (w0 : World)
    : TemplateMorph -> World -> Prop :=
| reachable_new : reachable p w0 (TemplateMorph.new p) w0
| reachable_update tm w fuel t tm' w' :
    reachable p w0 tm w ->
    length (DOM.childNodes (dom (heap w)) p) <= fuel ->
    TemplateMorph.updateTemplate fuel tm t w = Ok tm' w' ->
    reachable p w0 tm' w'
| reachable_empty tm w fuel tm' w' :
    reachable p w0 tm w ->
    length (DOM.childNodes (dom (heap w)) p) <= fuel ->
    TemplateMorph.didBecomeEmpty fuel tm w = Ok tm' w' ->
    reachable p w0 tm' w'.

(** * Verification *)

(** ** Lists of children *)

Lemma upd_eq {A} (f : nat -> A) k v : upd f k v k = v.
Proof. unfold upd. now rewrite Nat.eqb_refl. Qed.

Lemma upd_neq {A} (f : nat -> A) k v x : x <> k -> upd f k v x = f x.
Proof. unfold upd. intros H. apply Nat.eqb_neq in H. now rewrite H. Qed.

Lemma eqb_onode_some n (o : option Node) :
  eqb_onode (Some n) o = true <-> o = Some n.
Proof.
  destruct o as [m|]; simpl; split; intros H; try discriminate.
  - apply Nat.eqb_eq in H. now subst.
  - injection H as ->. apply Nat.eqb_refl.
Qed.

Lemma next_after_split n pre post :
  ~ In n pre -> next_after n (pre ++ n :: post) = hd_error post.
Proof.
  induction pre as [|x t IH]; simpl; intros H.
  - now rewrite Nat.eqb_refl.
  - destruct (Nat.eqb_spec x n) as [->|Hne]; [tauto|].
    apply IH. tauto.
Qed.

Lemma remove_node_notin n l : ~ In n l -> remove_node n l = l.
Proof.
  induction l as [|x t IH]; simpl; intros H; [reflexivity|].
  destruct (Nat.eqb_spec x n) as [->|Hne]; simpl; [tauto|].
  f_equal. apply IH. tauto.
Qed.

Lemma remove_node_split n pre post :
  ~ In n pre -> ~ In n post -> remove_node n (pre ++ n :: post) = pre ++ post.
Proof.
  intros Hpre Hpost.
  assert (Happ : remove_node n (pre ++ n :: post)
                 = remove_node n pre ++ remove_node n (n :: post))
    by apply filter_app.
  rewrite Happ. unfold remove_node at 2. simpl. rewrite Nat.eqb_refl. simpl.
  rewrite (remove_node_notin n pre Hpre). f_equal. now apply remove_node_notin.
Qed.

Lemma remove_node_in n x l : In x (remove_node n l) <-> In x l /\ x <> n.
Proof.
  unfold remove_node. rewrite filter_In.
  destruct (Nat.eqb_spec x n); simpl; intuition congruence.
Qed.

Lemma remove_node_nodup n l : NoDup l -> NoDup (remove_node n l).
Proof. apply NoDup_filter. Qed.

Lemma insert_before_split n r pre post :
  ~ In r pre -> insert_before n r (pre ++ r :: post) = pre ++ n :: r :: post.
Proof.
  induction pre as [|x t IH]; simpl; intros H.
  - now rewrite Nat.eqb_refl.
  - destruct (Nat.eqb_spec x r) as [->|Hne]; [tauto|].
    f_equal. apply IH. tauto.
Qed.

Lemma insert_at_split n pre post :
  NoDup (pre ++ post) ->
  insert_at n (hd_error post) (pre ++ post) = pre ++ n :: post.
Proof.
  intros Hnd. destruct post as [|r post]; simpl.
  - now rewrite !app_nil_r.
  - apply insert_before_split. apply NoDup_remove_2 in Hnd.
    intros Hin. apply Hnd. apply in_or_app. now left.
Qed.

Lemma nodup_split_notin (x : Node) pre post :
  NoDup (pre ++ x :: post) -> ~ In x pre /\ ~ In x post.
Proof.
  intros H. apply NoDup_remove_2 in H.
  split; intros Hin; apply H; apply in_or_app; tauto.
Qed.

Lemma nodup_middle_notin (n : Node) pre mid post :
  NoDup (pre ++ mid ++ post) -> In n mid -> ~ In n (pre ++ post).
Proof.
  induction pre as [|a pre IH]; simpl; intros Hnd Hn Hin.
  - induction mid as [|b mid IHm]; [contradiction|].
    simpl in Hnd. apply NoDup_cons_iff in Hnd as [Hb Hnd].
    destruct Hn as [->|Hn]; [|now apply IHm].
    apply Hb. apply in_or_app. now right.
  - apply NoDup_cons_iff in Hnd as [Ha Hnd].
    destruct Hin as [->|Hin]; [|now apply (IH Hnd Hn)].
    apply Ha. apply in_or_app. right. apply in_or_app. now left.
Qed.

(** ** The DOM store *)

Module DOMFacts.

Import DOM.

Lemma parent_of_child d p n :
  wf d -> In n (childNodes d p) -> parentNode d n = Some p.
Proof. intros Hwf. apply (wf_links Hwf). Qed.

Lemma orphan_not_child d p n :
  wf d -> parentNode d n = None -> ~ In n (childNodes d p).
Proof.
  intros Hwf Hn Hin. apply (parent_of_child _ _ _ Hwf) in Hin. congruence.
Qed.

(** *** Ancestors and the hierarchy check *)

Lemma ancestor_trans d a b c : ancestor d a b -> ancestor d b c -> ancestor d a c.
Proof.
  intros Hab Hbc. induction Hbc as [c Hc|c q Hc _ IH].
  - exact (anc_step d a c b Hc Hab).
  - exact (anc_step d a c q Hc IH).
Qed.

(** An ancestor of [n] is an ancestor of, or is, the parent of [n]. *)
Lemma ancestor_inv d a n :
  ancestor d a n ->
  exists q, parentNode d n = Some q /\ (a = q \/ ancestor d a q).
Proof. intros [n' H|n' q Hq H]; exists q || exists a; auto. Qed.

(** Every proper descendant of [n] is a descendant of the parent of [n]. *)
Lemma ancestor_up d n q m :
  parentNode d n = Some q -> ancestor d n m -> ancestor d q m.
Proof.
  intros Hq H. apply (ancestor_trans d q n m); [|exact H]. now apply anc_parent.
Qed.

Lemma ancestor_mono d d' a n :
  (forall m q, parentNode d' m = Some q -> parentNode d m = Some q) ->
  ancestor d' a n -> ancestor d a n.
Proof.
  intros Hsub H. induction H as [n Hn|n q Hn _ IH].
  - apply anc_parent. now apply Hsub.
  - apply (anc_step d a n q); [now apply Hsub|exact IH].
Qed.

Lemma ancestor_has_child d a n : wf d -> ancestor d a n -> childNodes d a <> [].
Proof.
  intros Hwf H. induction H as [n Hn|n q _ _ IH]; [|exact IH].
  apply (wf_links Hwf) in Hn. intros Hnil. rewrite Hnil in Hn. contradiction.
Qed.

Lemma child_allocated d n q : wf d -> parentNode d n = Some q -> n < nextNode d.
Proof.
  intros Hwf Hq. destruct (Nat.lt_ge_cases n (nextNode d)) as [H|H]; [exact H|].
  apply (wf_fresh Hwf) in H as [H _]. congruence.
Qed.

(** What [contains] finds is there. *)
Lemma contains_sound fuel d a n :
  contains fuel d a n = true -> a = n \/ ancestor d a n.
Proof.
  revert n. induction fuel as [|fuel IH]; intros n; simpl;
    destruct (Nat.eqb_spec n a) as [->|Hne]; auto; try discriminate.
  destruct (parentNode d n) as [q|] eqn:Hq; [|discriminate].
  intros H. right. destruct (IH q H) as [->|Hanc].
  - now apply anc_parent.
  - exact (anc_step d a n q Hq Hanc).
Qed.

(** On a consistent store the nodes of a path to the root are distinct and
    allocated, so a walk of [nextNode d] links sees the whole path. *)
Lemma contains_complete_from d a fuel seen n :
  wf d ->
  NoDup seen ->
  (forall m, In m seen -> m < nextNode d /\ ancestor d n m) ->
  nextNode d <= fuel + length seen ->
  a = n \/ ancestor d a n ->
  contains fuel d a n = true.
Proof.
  intros Hwf. revert seen n.
  induction fuel as [|fuel IH]; intros seen n Hnd Hseen Hlen Ha; simpl;
    destruct (Nat.eqb_spec n a) as [->|Hne]; try reflexivity;
    (destruct Ha as [->|Ha]; [congruence|]);
    destruct (ancestor_inv _ _ _ Ha) as (q & Hq & Ha');
    assert (Hnew : ~ In n seen)
      by (intros Hin; apply (wf_acyclic Hwf n); now apply Hseen);
    pose proof (child_allocated _ _ _ Hwf Hq) as Hn.
  - exfalso.
    assert (Hle : length (n :: seen) <= length (seq 0 (nextNode d))).
    { apply NoDup_incl_length; [now constructor|].
      intros m [<-|Hm]; apply in_seq; [lia|].
      destruct (Hseen m Hm). lia. }
    rewrite length_seq in Hle. simpl in Hle, Hlen. unfold Node in *. lia.
  - rewrite Hq. apply (IH (n :: seen) q).
    + now constructor.
    + intros m [<-|Hm].
      * split; [exact Hn|now apply anc_parent].
      * destruct (Hseen m Hm) as [Hm1 Hm2]. split; [exact Hm1|].
        exact (ancestor_up _ _ _ _ Hq Hm2).
    + simpl. lia.
    + exact Ha'.
Qed.

(** The check of [insertBefore] decides ancestry. *)
Lemma contains_spec d a n :
  wf d -> contains (nextNode d) d a n = true <-> a = n \/ ancestor d a n.
Proof.
  intros Hwf. split; [apply contains_sound|].
  apply (contains_complete_from d a (nextNode d) [] n Hwf).
  - constructor.
  - intros m [].
  - simpl. lia.
Qed.

(** A node without children contains no other node. *)
Lemma contains_childless fuel d a n :
  wf d -> childNodes d a = [] -> a <> n -> contains fuel d a n = false.
Proof.
  intros Hwf Hnil Hne. destruct (contains fuel d a n) eqn:Hc; [|reflexivity].
  apply contains_sound in Hc as [->|Hc]; [congruence|].
  now apply (ancestor_has_child _ _ _ Hwf) in Hc.
Qed.

(** A child does not contain its parent. *)
Lemma contains_child fuel d x p :
  wf d -> parentNode d x = Some p -> contains fuel d x p = false.
Proof.
  intros Hwf Hp. destruct (contains fuel d x p) eqn:Hc; [|reflexivity].
  exfalso. apply (wf_acyclic Hwf x).
  apply contains_sound in Hc as [->|Hc].
  - now apply anc_parent.
  - exact (anc_step d x x p Hp Hc).
Qed.

(** Linking [x] below [p] keeps the links a forest when [x] does not
    contain [p]. *)
Lemma link_acyclic d1 d2 x p :
  (forall n, parentNode d2 n = if Nat.eqb n x then Some p else parentNode d1 n) ->
  (forall n, ~ ancestor d1 n n) ->
  ~ (x = p \/ ancestor d1 x p) ->
  forall n, ~ ancestor d2 n n.
Proof.
  intros Hlink Hacyc Hout.
  assert (Habove : forall a n, ~ (x = n \/ ancestor d1 x n) ->
                     ancestor d2 a n -> ancestor d1 a n).
  { intros a n Hn H. induction H as [n H|n q H _ IH];
      rewrite Hlink in H; destruct (Nat.eqb_spec n x) as [->|Hne];
      try (exfalso; apply Hn; now left).
    - now apply anc_parent.
    - apply (anc_step d1 a n q H). apply IH.
      intros [->|Hq]; apply Hn; right.
      + now apply anc_parent.
      + exact (anc_step d1 x n q H Hq). }
  assert (Hsplit : forall a m, ancestor d2 a m ->
                     ancestor d1 a m \/
                     ((x = m \/ ancestor d1 x m) /\ (a = p \/ ancestor d2 a p))).
  { intros a m0 H. induction H as [m H|m q H Hq IH];
      rewrite Hlink in H; destruct (Nat.eqb_spec m x) as [Heq|Hne].
    - injection H as <-. right. auto.
    - left. now apply anc_parent.
    - injection H as <-. right. auto.
    - destruct IH as [IH|[[->|IH1] IH2]].
      + left. exact (anc_step d1 a m q H IH).
      + right. split; [right; now apply anc_parent|exact IH2].
      + right. split; [right; exact (anc_step d1 x m q H IH1)|exact IH2]. }
  intros n Hn. destruct (Hsplit n n Hn) as [H|[Hxn Hnp]].
  - exact (Hacyc n H).
  - apply Hout.
    assert (Hnp1 : n = p \/ ancestor d1 n p).
    { destruct Hnp as [->|Hnp]; [now left|]. right. now apply Habove. }
    destruct Hxn as [->|Hxn]; [exact Hnp1|].
    destruct Hnp1 as [->|Hnp1]; right; [exact Hxn|].
    exact (ancestor_trans _ _ _ _ Hxn Hnp1).
Qed.

Lemma nextSibling_split d p n pre post :
  wf d -> childNodes d p = pre ++ n :: post ->
  nextSibling d n = hd_error post.
Proof.
  intros Hwf Hc. unfold nextSibling.
  assert (Hp : parentNode d n = Some p).
  { apply (parent_of_child _ _ _ Hwf). rewrite Hc. apply in_elt. }
  rewrite Hp, Hc. apply next_after_split.
  pose proof (wf_nodup Hwf p) as Hnd. rewrite Hc in Hnd.
  now apply nodup_split_notin in Hnd.
Qed.

(** Unlinking a child: the store after [detach]. *)
Lemma detach_child d p n :
  parentNode d n = Some p ->
  detach n d = mk (upd (parentNode d) n None)
                  (upd (childNodes d) p (remove_node n (childNodes d p)))
                  (commentData d) (nextNode d).
Proof. intros H. unfold detach. now rewrite H. Qed.

Lemma detach_orphan d n : parentNode d n = None -> detach n d = d.
Proof. intros H. unfold detach. now rewrite H. Qed.

Lemma detach_wf d n : wf d -> wf (detach n d).
Proof.
  intros Hwf. destruct (parentNode d n) as [p|] eqn:Hp.
  2:{ now rewrite detach_orphan. }
  rewrite (detach_child _ _ _ Hp). constructor; simpl.
  - intros q m. unfold upd.
    destruct (Nat.eqb_spec q p) as [->|Hq]; destruct (Nat.eqb_spec m n) as [->|Hm].
    + rewrite remove_node_in. intuition congruence.
    + rewrite remove_node_in, (wf_links Hwf). tauto.
    + rewrite (wf_links Hwf). rewrite Hp. intuition congruence.
    + apply (wf_links Hwf).
  - intros q. unfold upd. destruct (Nat.eqb_spec q p) as [->|Hq].
    + apply remove_node_nodup, (wf_nodup Hwf).
    + apply (wf_nodup Hwf).
  - intros m Hm. destruct (wf_fresh Hwf _ Hm) as [H1 H2]. unfold upd.
    split.
    + destruct (Nat.eqb_spec m n); auto.
    + destruct (Nat.eqb_spec m p) as [->|]; auto.
      now rewrite H2.
  - intros m H. apply (wf_acyclic Hwf m).
    revert H. apply ancestor_mono.
    simpl. intros k q. unfold upd.
    destruct (Nat.eqb_spec k n); [discriminate|auto].
Qed.

(** [removeChild] on a child at a known position. *)
Lemma removeChild_split d p n pre post :
  wf d -> childNodes d p = pre ++ n :: post ->
  exists d', removeChild p n d = Some d' /\ wf d' /\
    childNodes d' p = pre ++ post /\
    (forall q, q <> p -> childNodes d' q = childNodes d q) /\
    nextNode d' = nextNode d /\ commentData d' = commentData d.
Proof.
  intros Hwf Hc.
  assert (Hp : parentNode d n = Some p).
  { apply (parent_of_child _ _ _ Hwf). rewrite Hc. apply in_elt. }
  exists (detach n d). unfold removeChild. rewrite Hp, Nat.eqb_refl.
  split; [reflexivity|]. split; [now apply detach_wf|].
  rewrite (detach_child _ _ _ Hp). simpl.
  pose proof (wf_nodup Hwf p) as Hnd. rewrite Hc in Hnd.
  apply nodup_split_notin in Hnd as [H1 H2].
  repeat split.
  - rewrite upd_eq, Hc. now apply remove_node_split.
  - intros q Hq. now apply upd_neq.
Qed.

Lemma removeChild_not_child d p n :
  parentNode d n <> Some p -> removeChild p n d = None.
Proof.
  intros H. unfold removeChild. destruct (parentNode d n) as [q|]; [|reflexivity].
  destruct (Nat.eqb_spec q p) as [->|]; [congruence|reflexivity].
Qed.

(** [insertBefore] of a node that is not in the tree, at a known position. *)
Lemma insertBefore_orphan d p n pre post :
  wf d -> parentNode d n = None -> n < nextNode d -> p < nextNode d ->
  contains (nextNode d) d n p = false ->
  childNodes d p = pre ++ post ->
  exists d', insertBefore p n (hd_error post) d = inr d' /\ wf d' /\
    childNodes d' p = pre ++ n :: post /\
    (forall q, q <> p -> childNodes d' q = childNodes d q) /\
    nextNode d' = nextNode d /\ commentData d' = commentData d.
Proof.
  intros Hwf Hn Hlt Hplt Hout Hc.
  pose proof (wf_nodup Hwf p) as Hnd. rewrite Hc in Hnd.
  assert (Hnotin : ~ In n (pre ++ post)).
  { rewrite <- Hc. now apply orphan_not_child. }
  unfold insertBefore. rewrite Hout.
  assert (Hvalid : match hd_error post with
                   | None => true
                   | Some r => match parentNode d r with
                               | Some q => Nat.eqb q p
                               | None => false
                               end
                   end = true).
  { destruct post as [|r post]; simpl; [reflexivity|].
    rewrite (parent_of_child d p r Hwf).
    - apply Nat.eqb_refl.
    - rewrite Hc. apply in_elt. }
  rewrite Hvalid.
  assert (Href : eqb_onode (hd_error post) (Some n) = false).
  { destruct post as [|r post]; simpl; [reflexivity|].
    apply Nat.eqb_neq. intros ->. apply Hnotin. apply in_elt. }
  rewrite Href, (detach_orphan _ _ Hn).
  eexists. split; [reflexivity|]. simpl.
  split; [|repeat split].
  - constructor; simpl.
    + intros q m. unfold upd.
      destruct (Nat.eqb_spec q p) as [->|Hq]; destruct (Nat.eqb_spec m n) as [->|Hm].
      * rewrite Hc, insert_at_split by assumption.
        split; [reflexivity|]. intros _. apply in_elt.
      * rewrite Hc, insert_at_split by assumption.
        rewrite <- (wf_links Hwf), Hc, !in_app_iff. simpl. intuition congruence.
      * split.
        -- intros Hin. apply (parent_of_child _ _ _ Hwf) in Hin. congruence.
        -- intros [=]. congruence.
      * apply (wf_links Hwf).
    + intros q. unfold upd. destruct (Nat.eqb_spec q p) as [->|Hq].
      * rewrite Hc, insert_at_split by assumption.
        apply NoDup_Add with (a := n) (l := pre ++ post).
        -- apply Add_app.
        -- split; assumption.
      * apply (wf_nodup Hwf).
    + intros m Hm. destruct (wf_fresh Hwf _ Hm) as [H1 H2]. unfold upd.
      destruct (Nat.eqb_spec m n) as [->|]; [lia|].
      destruct (Nat.eqb_spec m p) as [->|]; [lia|]. auto.
    + apply (link_acyclic d _ n p).
      * reflexivity.
      * apply (wf_acyclic Hwf).
      * intros H. apply (contains_spec _ _ _ Hwf) in H. congruence.
  - rewrite upd_eq, Hc. now apply insert_at_split.
  - intros q Hq. now apply upd_neq.
Qed.

Lemma createComment_spec text d :
  wf d ->
  let c := nextNode d in
  let d' := snd (createComment text d) in
  fst (createComment text d) = c /\ wf d' /\
  parentNode d' c = None /\ nextNode d' = S c /\
  commentData d' c = Some text /\
  (forall q, childNodes d' q = childNodes d q).
Proof.
  intros Hwf. simpl.
  destruct (wf_fresh Hwf (nextNode d) (le_n _)) as [Hp Hk].
  split; [reflexivity|]. split; [|repeat split].
  - constructor; simpl.
    + intros q m. unfold upd.
      destruct (Nat.eqb_spec q (nextNode d)) as [->|Hq];
        destruct (Nat.eqb_spec m (nextNode d)) as [->|Hm]; simpl.
      * intuition discriminate.
      * rewrite <- (wf_links Hwf), Hk. reflexivity.
      * rewrite (wf_links Hwf), Hp. intuition discriminate.
      * apply (wf_links Hwf).
    + intros q. unfold upd. destruct (Nat.eqb_spec q (nextNode d)).
      * constructor.
      * apply (wf_nodup Hwf).
    + intros m Hm. unfold upd.
      destruct (Nat.eqb_spec m (nextNode d)); [auto|].
      apply (wf_fresh Hwf). lia.
    + intros m H. apply (wf_acyclic Hwf m).
      revert H. apply ancestor_mono.
      simpl. intros k q. unfold upd.
      destruct (Nat.eqb_spec k (nextNode d)); [discriminate|auto].
  - apply upd_eq.
  - apply upd_eq.
  - intros q. unfold upd. destruct (Nat.eqb_spec q (nextNode d)) as [->|]; auto.
Qed.

Lemma createNode_spec d :
  wf d ->
  let c := nextNode d in
  let d' := snd (createNode d) in
  fst (createNode d) = c /\ wf d' /\
  parentNode d' c = None /\ nextNode d' = S c /\
  (forall n, parentNode d' n = parentNode d n) /\
  (forall q, childNodes d' q = childNodes d q).
Proof.
  intros Hwf. simpl.
  destruct (wf_fresh Hwf (nextNode d) (le_n _)) as [Hp Hk].
  assert (Hlinks : forall n, upd (parentNode d) (nextNode d) None n = parentNode d n).
  { intros n. unfold upd. destruct (Nat.eqb_spec n (nextNode d)) as [->|]; auto. }
  assert (Hkids : forall q, upd (childNodes d) (nextNode d) [] q = childNodes d q).
  { intros q. unfold upd. destruct (Nat.eqb_spec q (nextNode d)) as [->|]; auto. }
  split; [reflexivity|]. split; [|split; [apply upd_eq|split; [reflexivity|now split]]].
  constructor; simpl.
  - intros q m. rewrite Hlinks, Hkids. apply (wf_links Hwf).
  - intros q. rewrite Hkids. apply (wf_nodup Hwf).
  - intros m Hm. rewrite Hlinks, Hkids. apply (wf_fresh Hwf). lia.
  - intros m H. apply (wf_acyclic Hwf m).
    revert H. apply ancestor_mono.
    simpl. intros k q. now rewrite Hlinks.
Qed.

Lemma initial_wf n : wf (initial n).
Proof.
  constructor; simpl.
  - intros p m. split; [contradiction|discriminate].
  - intros p. constructor.
  - auto.
  - intros m H. destruct H; discriminate.
Qed.

Lemma appendChild_wf d p n :
  wf d -> parentNode d n = None -> n < nextNode d -> p < nextNode d ->
  childNodes d n = [] -> n <> p ->
  wf (appendChild p n d).
Proof.
  intros Hwf Hn Hlt Hp Hnil Hne.
  destruct (insertBefore_orphan d p n (childNodes d p) [] Hwf Hn Hlt Hp)
    as (d' & Hins & Hwf' & _).
  { now apply contains_childless. }
  { now rewrite app_nil_r. }
  unfold appendChild. simpl in Hins. now rewrite Hins.
Qed.

End DOMFacts.

(** ** Well-formed bounds *)

Lemma dom_frame_refl p d : dom_frame p d d.
Proof. repeat split. Qed.

Lemma dom_frame_trans p d1 d2 d3 :
  dom_frame p d1 d2 -> dom_frame p d2 d3 -> dom_frame p d1 d3.
Proof.
  intros (A1 & B1 & C1) (A2 & B2 & C2). repeat split.
  - intros q Hq. now rewrite A2, A1.
  - congruence.
  - congruence.
Qed.

Lemma last_error_in l x : last_error l = Some x -> In x l.
Proof.
  induction l as [|a [|b t] IH]; simpl; intros H; try discriminate.
  - injection H as ->. now left.
  - right. now apply IH.
Qed.

Lemma last_error_nonempty x l : exists y, last_error (x :: l) = Some y.
Proof.
  revert x. induction l as [|a t IH]; intros x.
  - now exists x.
  - destruct (IH a) as [y Hy]. exists y. exact Hy.
Qed.

Lemma last_error_cons a b t : last_error (a :: b :: t) = last_error (b :: t).
Proof. reflexivity. Qed.

Lemma bounds_accessors b w :
  Bounds.parentElement b w = Ok (eparent (extent_of b (heap w))) w /\
  Bounds.firstNode b w = Ok (efirst (extent_of b (heap w))) w /\
  Bounds.lastNode b w = Ok (elast (extent_of b (heap w))) w.
Proof. destruct b; repeat split. Qed.

Lemma extent_of_set_dom b w d :
  extent_of b (heap (set_dom w d)) = extent_of b (heap w).
Proof. destruct b; reflexivity. Qed.

(** ** Running computations *)

Lemma bind_ok {A B} (m : M A) (k : A -> M B) w a w' :
  m w = Ok a w' -> bind m k w = k a w'.
Proof. intros H. unfold bind. now rewrite H. Qed.

Lemma parentElement_eq b w :
  Bounds.parentElement b w = Ok (eparent (extent_of b (heap w))) w.
Proof. now destruct b. Qed.

Lemma firstNode_eq b w :
  Bounds.firstNode b w = Ok (efirst (extent_of b (heap w))) w.
Proof. now destruct b. Qed.

Lemma lastNode_eq b w :
  Bounds.lastNode b w = Ok (elast (extent_of b (heap w))) w.
Proof. now destruct b. Qed.

Lemma createComment_eq text w :
  DOMHelper.createComment text w
  = Ok (DOM.nextNode (dom (heap w)))
       (set_dom w (snd (DOM.createComment text (dom (heap w))))).
Proof. reflexivity. Qed.

Lemma insertBefore_set_dom p n ref w d d' :
  DOM.insertBefore p n ref d = inr d' ->
  DOMHelper.insertBefore p n ref (set_dom w d) = Ok tt (set_dom w d').
Proof. intros H. unfold DOMHelper.insertBefore. simpl. now rewrite H. Qed.

Lemma removeChild_eq p n w d' :
  DOM.removeChild p n (dom (heap w)) = Some d' ->
  Node.removeChild p n w = Ok tt (set_dom w d').
Proof. intros H. unfold Node.removeChild. now rewrite H. Qed.

Lemma set_dom_set_dom w d1 d2 : set_dom (set_dom w d1) d2 = set_dom w d2.
Proof. reflexivity. Qed.

(** ** The loop of [clear] *)

Lemma clear_loop_step fuel p last n w d' :
  DOM.removeChild p n (dom (heap w)) = Some d' ->
  clear_loop (S fuel) p last (Some n) w =
  if eqb_onode (Some n) last
  then Ok (DOM.nextSibling (dom (heap w)) n) (set_dom w d')
  else clear_loop fuel p last (DOM.nextSibling (dom (heap w)) n) (set_dom w d').
Proof.
  intros H. simpl. unfold bind, Node.nextSibling, Node.removeChild.
  rewrite H. destruct last as [y|]; simpl; [destruct (Nat.eqb n y)|]; reflexivity.
Qed.

(** On a well-formed range the loop removes the range and answers the node
    that followed it. *)
Lemma clear_loop_range p l post :
  forall rest x pre fuel w,
    DOM.wf (dom (heap w)) ->
    DOM.childNodes (dom (heap w)) p = pre ++ x :: rest ++ post ->
    last_error (x :: rest) = Some l ->
    length (x :: rest) <= fuel ->
    exists d',
      clear_loop fuel p (Some l) (Some x) w = Ok (hd_error post) (set_dom w d') /\
      DOM.wf d' /\ DOM.childNodes d' p = pre ++ post /\
      dom_frame p (dom (heap w)) d'.
Proof.
  induction rest as [|y rest IH]; intros x pre fuel w Hwf Hc Hl Hfuel;
    (destruct fuel as [|fuel]; [simpl in Hfuel; lia|]);
    destruct (DOMFacts.removeChild_split _ _ _ _ _ Hwf Hc)
      as (d1 & Hrm & Hwf1 & Hc1 & Hf1 & Hn1 & Hcd1);
    rewrite (clear_loop_step _ _ _ _ _ _ Hrm);
    rewrite (DOMFacts.nextSibling_split _ _ _ _ _ Hwf Hc).
  - simpl in Hl. injection Hl as <-.
    simpl. rewrite Nat.eqb_refl. exists d1. simpl in Hc1.
    split; [reflexivity|]. split; [exact Hwf1|]. split; [exact Hc1|].
    now repeat split.
  - assert (Hne : x <> l).
    { pose proof (DOM.wf_nodup Hwf p) as Hnd. rewrite Hc in Hnd.
      apply nodup_split_notin in Hnd as [_ Hnd].
      rewrite last_error_cons in Hl. apply last_error_in in Hl.
      intros ->. apply Hnd. apply in_or_app. left. exact Hl. }
    assert (Heq : eqb_onode (Some x) (Some l) = false).
    { simpl. now apply Nat.eqb_neq. }
    rewrite Heq. simpl hd_error.
    destruct (IH y pre fuel (set_dom w d1)) as (d2 & Hrun & Hwf2 & Hc2 & Hf2).
    + exact Hwf1.
    + exact Hc1.
    + now rewrite last_error_cons in Hl.
    + simpl in *. lia.
    + exists d2.
      split; [exact Hrun|]. split; [exact Hwf2|]. split; [exact Hc2|].
      apply dom_frame_trans with (d2 := d1); [now repeat split|exact Hf2].
Qed.

(** When the recorded last node is not among the nodes the walk visits,
    the loop removes every node up to the end of the parent and answers
    null. *)
Lemma clear_loop_runs_off p last :
  forall suffix pre fuel w,
    DOM.wf (dom (heap w)) ->
    DOM.childNodes (dom (heap w)) p = pre ++ suffix ->
    (forall n, In n suffix -> last <> Some n) ->
    length suffix <= fuel ->
    exists d',
      clear_loop fuel p last (hd_error suffix) w = Ok None (set_dom w d') /\
      DOM.wf d' /\ DOM.childNodes d' p = pre /\
      dom_frame p (dom (heap w)) d'.
Proof.
  induction suffix as [|x rest IH]; intros pre fuel w Hwf Hc Hlast Hfuel.
  - exists (dom (heap w)). rewrite app_nil_r in Hc.
    assert (Hw : set_dom w (dom (heap w)) = w) by (now destruct w as [[d e k] tr]).
    rewrite Hw.
    split; [now destruct fuel|]. split; [exact Hwf|]. split; [exact Hc|].
    apply dom_frame_refl.
  - destruct fuel as [|fuel]; [simpl in Hfuel; lia|].
    destruct (DOMFacts.removeChild_split _ _ _ _ _ Hwf Hc)
      as (d1 & Hrm & Hwf1 & Hc1 & Hf1 & Hn1 & Hcd1).
    simpl hd_error. rewrite (clear_loop_step _ _ _ _ _ _ Hrm).
    rewrite (DOMFacts.nextSibling_split _ _ _ _ _ Hwf Hc).
    assert (Heq : eqb_onode (Some x) last = false).
    { destruct (eqb_onode (Some x) last) eqn:E; [|reflexivity].
      apply eqb_onode_some in E. exfalso. apply (Hlast x); [now left|exact E]. }
    rewrite Heq.
    destruct (IH pre fuel (set_dom w d1)) as (d2 & Hrun & Hwf2 & Hc2 & Hf2).
    + exact Hwf1.
    + exact Hc1.
    + intros n Hn. apply Hlast. now right.
    + simpl in *. lia.
    + exists d2.
      split; [exact Hrun|]. split; [exact Hwf2|]. split; [exact Hc2|].
      apply dom_frame_trans with (d2 := d1); [now repeat split|exact Hf2].
Qed.

(** ** [clear] *)

Lemma last_error_split l x : last_error l = Some x -> exists l', l = l' ++ [x].
Proof.
  induction l as [|a [|b t] IH]; simpl; intros H; try discriminate.
  - injection H as ->. now exists [].
  - destruct (IH H) as [l' Hl']. exists (a :: l'). simpl. now rewrite <- Hl'.
Qed.

(** With both stores consistent, a node listed under the same parents has
    the same parent link. *)
Lemma parent_link_determined d d' n :
  DOM.wf d -> DOM.wf d' ->
  (forall q, In n (DOM.childNodes d' q) <-> In n (DOM.childNodes d q)) ->
  DOM.parentNode d' n = DOM.parentNode d n.
Proof.
  intros Hwf Hwf' Hsame.
  destruct (DOM.parentNode d n) as [q|] eqn:Hq.
  - apply (DOM.wf_links Hwf'), Hsame, (DOM.wf_links Hwf), Hq.
  - destruct (DOM.parentNode d' n) as [q'|] eqn:Hq'; [|reflexivity].
    apply (DOM.wf_links Hwf'), Hsame, (DOM.wf_links Hwf) in Hq'. congruence.
Qed.

Lemma unlisted_is_orphan d n :
  DOM.wf d -> (forall q, ~ In n (DOM.childNodes d q)) -> DOM.parentNode d n = None.
Proof.
  intros Hwf Hno. destruct (DOM.parentNode d n) as [q|] eqn:Hq; [|reflexivity].
  apply (DOM.wf_links Hwf) in Hq. now apply Hno in Hq.
Qed.

Lemma range_removed_intro p pre mid post d d' :
  DOM.wf d -> DOM.childNodes d p = pre ++ mid ++ post ->
  DOM.wf d' -> DOM.childNodes d' p = pre ++ post ->
  (forall q, q <> p -> DOM.childNodes d' q = DOM.childNodes d q) ->
  range_removed p pre mid post d d'.
Proof.
  intros Hwf Hc Hwf' Hc' Hf.
  pose proof (DOM.wf_nodup Hwf p) as Hnd. rewrite Hc in Hnd.
  assert (Hmid : forall n, In n mid -> ~ In n (pre ++ post))
    by (intros n; now apply nodup_middle_notin).
  constructor; auto.
  - rewrite Hc', Hc, !length_app. lia.
  - intros n Hn. split.
    + apply unlisted_is_orphan; [exact Hwf'|]. intros q Hin.
      destruct (Nat.eq_dec q p) as [->|Hq].
      * rewrite Hc' in Hin. now apply (Hmid n).
      * rewrite (Hf q Hq) in Hin.
        apply (DOM.wf_links Hwf) in Hin.
        assert (Hp : DOM.parentNode d n = Some p).
        { apply (DOM.wf_links Hwf). rewrite Hc.
          apply in_or_app. right. apply in_or_app. now left. }
        congruence.
    + rewrite Hc'. now apply Hmid.
  - intros n Hn. apply parent_link_determined; auto.
    intros q. destruct (Nat.eq_dec q p) as [->|Hq].
    + rewrite Hc', Hc, !in_app_iff. tauto.
    + now rewrite (Hf q Hq).
Qed.

Lemma covers_nextSibling b h pre mid post l :
  DOM.wf (dom h) -> covers b h pre mid post ->
  elast (extent_of b h) = Some l ->
  DOM.nextSibling (dom h) l = hd_error post.
Proof.
  intros Hwf (Hne & Hf & Hl & Hc) Hlast.
  rewrite Hl in Hlast. apply last_error_split in Hlast as [mid' ->].
  apply DOMFacts.nextSibling_split with (p := eparent (extent_of b h))
                                         (pre := pre ++ mid'); [exact Hwf|].
  rewrite Hc, <- !app_assoc. reflexivity.
Qed.

Lemma clear_covers fuel b w pre mid post :
  DOM.wf (dom (heap w)) ->
  covers b (heap w) pre mid post ->
  length mid <= fuel ->
  exists d',
    clear fuel b w = Ok (hd_error post) (set_dom w d') /\
    range_removed (eparent (extent_of b (heap w))) pre mid post (dom (heap w)) d' /\
    dom_frame (eparent (extent_of b (heap w))) (dom (heap w)) d'.
Proof.
  intros Hwf Hcov Hfuel. pose proof Hcov as (Hne & Hf & Hl & Hc).
  destruct mid as [|x rest]; [congruence|].
  destruct (last_error_nonempty x rest) as [l Hlast].
  destruct (clear_loop_range (eparent (extent_of b (heap w))) l post rest x pre fuel w
              Hwf Hc Hlast Hfuel) as (d' & Hrun & Hwf' & Hc' & Hfr).
  exists d'. split.
  - unfold clear, bind.
    destruct (bounds_accessors b w) as (-> & -> & ->).
    rewrite Hf, Hl, Hlast. exact Hrun.
  - split; [|exact Hfr]. apply range_removed_intro; auto. apply Hfr.
Qed.

(** ** Walking the sibling links *)

(** From a child [f] the walk along [nextSibling] meets exactly [f] and the
    children listed after it. *)
Lemma reaches_listed d p l :
  DOM.wf d ->
  forall suffix pre f,
    DOM.childNodes d p = pre ++ f :: suffix ->
    In l (f :: suffix) -> reaches d f l.
Proof.
  intros Hwf. induction suffix as [|m suffix IH]; intros pre f Hc Hin.
  - destruct Hin as [->|[]]. constructor.
  - destruct Hin as [->|Hin]; [constructor|].
    apply reaches_next with (m := m).
    + now rewrite (DOMFacts.nextSibling_split _ _ _ _ _ Hwf Hc).
    + apply (IH (pre ++ [f]) m); [|exact Hin].
      now rewrite <- app_assoc.
Qed.

Lemma reaches_run d p f l :
  DOM.wf d -> reaches d f l ->
  forall pre suffix,
    DOM.childNodes d p = pre ++ f :: suffix ->
    exists mid post,
      f :: suffix = mid ++ post /\
      hd_error mid = Some f /\ last_error mid = Some l.
Proof.
  intros Hwf Hreach. induction Hreach as [n|n m l Hnext Hreach IH];
    intros pre suffix Hc.
  - exists [n], suffix. repeat split.
  - rewrite (DOMFacts.nextSibling_split _ _ _ _ _ Hwf Hc) in Hnext.
    destruct suffix as [|m' suffix]; [discriminate|].
    injection Hnext as ->.
    destruct (IH (pre ++ [n]) suffix) as (mid & post & Hsplit & Hhd & Hlast).
    { now rewrite <- app_assoc. }
    exists (n :: mid), post. split; [|split].
    + simpl. now rewrite Hsplit.
    + reflexivity.
    + destruct mid as [|a mid]; [discriminate|]. exact Hlast.
Qed.

Lemma child_position d p n :
  DOM.wf d -> DOM.parentNode d n = Some p ->
  exists pre suffix, DOM.childNodes d p = pre ++ n :: suffix.
Proof.
  intros Hwf Hp. apply (DOM.wf_links Hwf) in Hp.
  apply in_split in Hp. exact Hp.
Qed.

(** Bounds whose last node is met on the walk from their first node, a
    child of their parent, span a run of the parent's children. *)
Lemma reaches_covers b h f l :
  DOM.wf (dom h) ->
  efirst (extent_of b h) = Some f ->
  elast (extent_of b h) = Some l ->
  DOM.parentNode (dom h) f = Some (eparent (extent_of b h)) ->
  reaches (dom h) f l ->
  exists pre mid post, covers b h pre mid post.
Proof.
  intros Hwf Hf Hl Hp Hreach.
  destruct (child_position _ _ _ Hwf Hp) as (pre & suffix & Hc).
  destruct (reaches_run _ _ _ _ Hwf Hreach _ _ Hc)
    as (mid & post & Hsplit & Hhd & Hlast).
  exists pre, mid, post. split; [|split; [|split]].
  - intros ->. discriminate.
  - congruence.
  - congruence.
  - rewrite Hc, Hsplit. reflexivity.
Qed.

Lemma sample_dom_wf : DOM.wf sample_dom.
Proof.
  unfold sample_dom, DOM.with_children. simpl fold_left.
  repeat (apply DOMFacts.appendChild_wf;
          [|reflexivity|simpl; lia|simpl; lia|reflexivity|discriminate]).
  apply DOMFacts.initial_wf.
Qed.

(** ** Claims on [clear] *)

(** C1.  For bounds whose last node is reached from their first node along
    the [nextSibling] links under their parent, the bounds span a run
    [mid] of N nodes among the M children [pre ++ mid ++ post]; with enough
    iterations [clear] returns normally, its answer is the node that was
    [lastNode().nextSibling] before the call (null when there was none),
    the parent is left with the M - N children [pre ++ post], exactly the
    nodes of [mid] have lost their parent, and no other element's children
    have changed. *)
Theorem clear_removes_exactly_the_bounds b w f l :
  DOM.wf (dom (heap w)) ->
  efirst (extent_of b (heap w)) = Some f ->
  elast (extent_of b (heap w)) = Some l ->
  DOM.parentNode (dom (heap w)) f = Some (eparent (extent_of b (heap w))) ->
  reaches (dom (heap w)) f l ->
  exists pre mid post,
    covers b (heap w) pre mid post /\
    forall fuel, length mid <= fuel ->
      exists d',
        clear fuel b w = Ok (DOM.nextSibling (dom (heap w)) l) (set_dom w d') /\
        range_removed (eparent (extent_of b (heap w))) pre mid post
                      (dom (heap w)) d' /\
        dom_frame (eparent (extent_of b (heap w))) (dom (heap w)) d'.
Proof.
  intros Hwf Hf Hl Hp Hreach.
  destruct (reaches_covers b (heap w) f l Hwf Hf Hl Hp Hreach)
    as (pre & mid & post & Hcov).
  exists pre, mid, post. split; [exact Hcov|].
  intros fuel Hfuel.
  destruct (clear_covers fuel b w pre mid post Hwf Hcov Hfuel) as (d' & Hrun & Hrr).
  exists d'. split; [|exact Hrr].
  rewrite (covers_nextSibling b (heap w) pre mid post l Hwf Hcov Hl). exact Hrun.
Qed.

Lemma clear_removes_exactly_the_bounds_witness :
  DOM.wf (dom (heap sample_world)) /\
  reaches (dom (heap sample_world)) 2 3 /\
  exists pre mid post,
    covers sample_bounds (heap sample_world) pre mid post /\
    forall fuel, length mid <= fuel ->
      exists d',
        clear fuel sample_bounds sample_world
        = Ok (DOM.nextSibling (dom (heap sample_world)) 3) (set_dom sample_world d') /\
        range_removed 0 pre mid post (dom (heap sample_world)) d' /\
        dom_frame 0 (dom (heap sample_world)) d'.
Proof.
  assert (Hreach : reaches (dom (heap sample_world)) 2 3).
  { apply reaches_next with (m := 3); [reflexivity|constructor]. }
  split; [exact sample_dom_wf|]. split; [exact Hreach|].
  exact (clear_removes_exactly_the_bounds sample_bounds sample_world 2 3
           sample_dom_wf eq_refl eq_refl eq_refl Hreach).
Defined.

Lemma stray_last_not_reached : ~ reaches sample_dom 2 7.
Proof.
  intros H.
  inversion H as [|n m l H2 R2]; subst. vm_compute in H2. injection H2 as <-.
  inversion R2 as [|n m l H3 R3]; subst. vm_compute in H3. injection H3 as <-.
  inversion R3 as [|n m l H4 R4]; subst. vm_compute in H4. discriminate.
Qed.

(** C2, as stated, fails.  In the sample world element 0 has the children
    1, 2, 3, 4.  For bounds from node 2 to node 7, which the walk from 2
    never meets, [clear] throws nothing: it removes 2, 3 and 4 and returns
    null. *)
Lemma clear_malformed_returns_normally :
  ~ reaches sample_dom 2 7 /\
  match clear 3 stray_bounds sample_world with
  | Ok r w' => r = None /\ DOM.childNodes (dom (heap w')) 0 = [1]
  | Throw _ => False
  | OutOfFuel => False
  end.
Proof.
  split.
  - exact stray_last_not_reached.
  - vm_compute. split; reflexivity.
Qed.

(** C2, amended.  Take bounds whose last node is never met on the walk
    along [nextSibling] from their first node [f].  When [f] is a child of
    the bounds' parent, [clear] returns normally with null after removing
    [f] and every sibling after it; when [f] is not a child of the bounds'
    parent, the first [removeChild] throws NotFoundError. *)
Theorem clear_malformed_bounds b w f :
  DOM.wf (dom (heap w)) ->
  efirst (extent_of b (heap w)) = Some f ->
  (forall l, elast (extent_of b (heap w)) = Some l -> ~ reaches (dom (heap w)) f l) ->
  (DOM.parentNode (dom (heap w)) f = Some (eparent (extent_of b (heap w))) ->
   exists pre suffix,
     DOM.childNodes (dom (heap w)) (eparent (extent_of b (heap w))) = pre ++ f :: suffix /\
     forall fuel, length (f :: suffix) <= fuel ->
       exists d',
         clear fuel b w = Ok None (set_dom w d') /\
         range_removed (eparent (extent_of b (heap w))) pre (f :: suffix) []
                       (dom (heap w)) d') /\
  (DOM.parentNode (dom (heap w)) f <> Some (eparent (extent_of b (heap w))) ->
   forall fuel, 0 < fuel -> clear fuel b w = Throw NotFoundError).
Proof.
  intros Hwf Hf Hnever. split.
  - intros Hp.
    destruct (child_position _ _ _ Hwf Hp) as (pre & suffix & Hc).
    exists pre, suffix. split; [exact Hc|]. intros fuel Hfuel.
    destruct (clear_loop_runs_off (eparent (extent_of b (heap w)))
                (elast (extent_of b (heap w))) (f :: suffix) pre fuel w Hwf Hc)
      as (d' & Hrun & Hwf' & Hc' & Hfr).
    + intros n Hn Hl. apply (Hnever n Hl).
      now apply (reaches_listed _ _ _ Hwf suffix pre f Hc).
    + exact Hfuel.
    + exists d'. split.
      * unfold clear, bind.
        destruct (bounds_accessors b w) as (-> & -> & ->).
        rewrite Hf. exact Hrun.
      * apply range_removed_intro; auto.
        -- now rewrite app_nil_r.
        -- now rewrite app_nil_r.
        -- apply Hfr.
  - intros Hp fuel Hfuel. destruct fuel as [|fuel]; [lia|].
    unfold clear, bind.
    destruct (bounds_accessors b w) as (-> & -> & ->).
    rewrite Hf. simpl. unfold bind, Node.nextSibling, Node.removeChild.
    now rewrite (DOMFacts.removeChild_not_child _ _ _ Hp).
Qed.

Lemma clear_malformed_bounds_witness :
  DOM.wf (dom (heap sample_world)) /\
  (forall l, Some 7 = Some l -> ~ reaches (dom (heap sample_world)) 2 l) /\
  DOM.parentNode sample_dom 2 = Some 0 /\
  DOM.parentNode sample_dom 2 <> Some 5 /\
  (exists pre suffix,
     DOM.childNodes sample_dom 0 = pre ++ 2 :: suffix /\
     forall fuel, length (2 :: suffix) <= fuel ->
       exists d',
         clear fuel stray_bounds sample_world = Ok None (set_dom sample_world d') /\
         range_removed 0 pre (2 :: suffix) [] sample_dom d') /\
  (forall fuel, 0 < fuel -> clear fuel misplaced_bounds sample_world = Throw NotFoundError).
Proof.
  assert (Hnever : forall l, Some 7 = Some l -> ~ reaches (dom (heap sample_world)) 2 l).
  { intros l [= <-]. exact stray_last_not_reached. }
  assert (Hother : DOM.parentNode sample_dom 2 <> Some 5) by discriminate.
  split; [exact sample_dom_wf|]. split; [exact Hnever|].
  split; [reflexivity|]. split; [exact Hother|]. split.
  - exact (proj1 (clear_malformed_bounds stray_bounds sample_world 2
                    sample_dom_wf eq_refl Hnever) eq_refl).
  - exact (proj2 (clear_malformed_bounds misplaced_bounds sample_world 2
                    sample_dom_wf eq_refl Hnever) Hother).
Defined.

(** ** Placing a placeholder comment *)

Lemma allocated_parent d p n : DOM.wf d -> In n (DOM.childNodes d p) -> p < DOM.nextNode d.
Proof.
  intros Hwf Hin. destruct (Nat.lt_ge_cases p (DOM.nextNode d)) as [H|H]; [exact H|].
  apply (DOM.wf_fresh Hwf) in H as [_ H]. rewrite H in Hin. contradiction.
Qed.

Lemma allocated_child d p n : DOM.wf d -> In n (DOM.childNodes d p) -> n < DOM.nextNode d.
Proof.
  intros Hwf Hin. destruct (Nat.lt_ge_cases n (DOM.nextNode d)) as [H|H]; [exact H|].
  apply (DOM.wf_links Hwf) in Hin.
  apply (DOM.wf_fresh Hwf) in H as [H _]. congruence.
Qed.

Lemma insertBefore_links d d' p n ref :
  DOM.parentNode d n = None ->
  DOM.insertBefore p n ref d = inr d' ->
  DOM.parentNode d' n = Some p /\
  forall m, m <> n -> DOM.parentNode d' m = DOM.parentNode d m.
Proof.
  intros Hn. unfold DOM.insertBefore.
  destruct (DOM.contains _ _ _ _); [discriminate|].
  destruct (match ref with
            | Some r => match DOM.parentNode d r with
                        | Some q => Nat.eqb q p
                        | None => false
                        end
            | None => true
            end); [|discriminate].
  rewrite (DOMFacts.detach_orphan _ _ Hn). intros [= <-]. simpl. split.
  - apply upd_eq.
  - intros m Hm. now apply upd_neq.
Qed.

Lemma comment_insertion d p pre post :
  DOM.wf d -> p < DOM.nextNode d ->
  DOM.childNodes d p = pre ++ post ->
  exists d',
    DOM.insertBefore p (DOM.nextNode d) (hd_error post)
                     (snd (DOM.createComment String.EmptyString d)) = inr d' /\
    comment_placed p pre post d d'.
Proof.
  intros Hwf Hp Hc.
  destruct (DOMFacts.createComment_spec String.EmptyString d Hwf)
    as (_ & Hwf1 & Hpar1 & Hnext1 & Hdata1 & Hkids1).
  set (d1 := snd (DOM.createComment String.EmptyString d)) in *.
  assert (Hlt1 : DOM.nextNode d < DOM.nextNode d1) by (rewrite Hnext1; lia).
  assert (Hlt2 : p < DOM.nextNode d1) by (rewrite Hnext1; lia).
  assert (Hc1 : DOM.childNodes d1 p = pre ++ post) by (now rewrite Hkids1).
  assert (Hout : DOM.contains (DOM.nextNode d1) d1 (DOM.nextNode d) p = false).
  { apply (DOMFacts.contains_childless _ _ _ _ Hwf1); [|lia].
    rewrite Hkids1. apply (DOM.wf_fresh Hwf). apply le_n. }
  destruct (DOMFacts.insertBefore_orphan d1 p (DOM.nextNode d) pre post
              Hwf1 Hpar1 Hlt1 Hlt2 Hout Hc1)
    as (d' & Hins & Hwf' & Hc' & Hf' & Hn' & Hcd').
  exists d'. split; [exact Hins|].
  destruct (insertBefore_links _ _ _ _ _ Hpar1 Hins) as [Hpar' Hlinks'].
  constructor.
  - exact Hwf'.
  - exact Hc'.
  - intros q Hq. now rewrite Hf', Hkids1.
  - congruence.
  - exact Hpar'.
  - intros n Hn. rewrite (Hlinks' n Hn). subst d1. simpl.
    now apply upd_neq.
  - now rewrite Hcd'.
  - intros n Hn. rewrite Hcd'. subst d1. simpl. now apply upd_neq.
Qed.

Lemma Empty_new_spec parent w pre post :
  DOM.wf (dom (heap w)) -> parentNode parent < DOM.nextNode (dom (heap w)) ->
  DOM.childNodes (dom (heap w)) (parentNode parent) = pre ++ post ->
  exists d',
    Empty.new parent (hd_error post) w
    = Ok (Empty (DOM.nextNode (dom (heap w)))) (set_dom w d') /\
    comment_placed (parentNode parent) pre post (dom (heap w)) d'.
Proof.
  intros Hwf Hp Hc.
  destruct (comment_insertion _ _ _ _ Hwf Hp Hc) as (d' & Hins & Hcp).
  exists d'. split; [|exact Hcp].
  unfold Empty.new.
  rewrite (bind_ok _ _ _ _ _ (createComment_eq _ _)).
  rewrite (bind_ok _ _ _ _ _ (insertBefore_set_dom _ _ _ w _ _ Hins)).
  reflexivity.
Qed.

(** ** Claim on [clearWithComment] *)

(** C8.  For well-formed bounds spanning the run [mid] of the children
    [pre ++ mid ++ post] of their parent [p], [clearWithComment] returns
    normally; every node of [mid] is out of the tree; one new comment [c]
    with empty text stands where the run was, so that the parent's children
    are [pre ++ c :: post]; and the answer is a [Bounds] with
    [parentElement()] equal to [p] and [firstNode()] and [lastNode()] both
    equal to [c]. *)
Theorem clearWithComment_replaces_range fuel b w pre mid post :
  DOM.wf (dom (heap w)) ->
  covers b (heap w) pre mid post ->
  length mid <= fuel ->
  exists d',
    let p := eparent (extent_of b (heap w)) in
    let c := DOM.nextNode (dom (heap w)) in
    clearWithComment fuel b w
    = Ok (ConcreteBounds p (Some c) (Some c)) (set_dom w d') /\
    DOM.wf d' /\
    DOM.childNodes d' p = pre ++ c :: post /\
    DOM.commentData d' c = Some String.EmptyString /\
    DOM.parentNode (dom (heap w)) c = None /\
    (forall n, In n mid -> DOM.parentNode d' n = None) /\
    (forall q, q <> p -> DOM.childNodes d' q = DOM.childNodes (dom (heap w)) q) /\
    covers (ConcreteBounds p (Some c) (Some c)) (heap (set_dom w d')) pre [c] post.
Proof.
  intros Hwf Hcov Hfuel.
  destruct (clear_covers fuel b w pre mid post Hwf Hcov Hfuel)
    as (d1 & Hrun & Hrr & (Hf1 & Hn1 & Hcd1)).
  destruct Hrr as [Hwf1 Hc1 _ Hrem1 _ _].
  set (p := eparent (extent_of b (heap w))) in *.
  assert (Hp : p < DOM.nextNode d1).
  { rewrite Hn1. destruct Hcov as (Hne & _ & _ & Hc).
    destruct mid as [|x mid]; [congruence|].
    apply (allocated_parent _ p x Hwf). fold p in Hc. rewrite Hc.
    apply in_or_app. right. now left. }
  destruct (comment_insertion d1 p pre post Hwf1 Hp Hc1) as (d' & Hins & Hcp).
  destruct Hcp as [Hwf' Hc' Hoth' Hnext' Hpar' Hlinks' Hdata' _].
  rewrite Hn1 in *.
  exists d'. simpl.
  split; [|split; [exact Hwf'|split; [exact Hc'|split; [exact Hdata'|split; [|split; [|split]]]]]].
  - unfold clearWithComment.
    rewrite (bind_ok _ _ _ _ _ Hrun).
    rewrite (bind_ok _ _ _ _ _ (parentElement_eq b _)).
    rewrite (bind_ok _ _ _ _ _ (createComment_eq _ _)).
    rewrite (bind_ok _ _ _ _ _ (parentElement_eq b _)).
    rewrite !extent_of_set_dom. fold p.
    change (dom (heap (set_dom w d1))) with d1.
    rewrite set_dom_set_dom, Hn1.
    rewrite (bind_ok _ _ _ _ _ (insertBefore_set_dom _ _ _ w _ _ Hins)).
    reflexivity.
  - apply (DOM.wf_fresh Hwf). apply le_n.
  - intros n Hn. destruct (Hrem1 n Hn) as [Horph _].
    rewrite Hlinks'; [exact Horph|].
    intros ->. destruct Hcov as (_ & _ & _ & Hc). fold p in Hc.
    assert (Hin : In (DOM.nextNode (dom (heap w))) (DOM.childNodes (dom (heap w)) p)).
    { rewrite Hc. apply in_or_app. right. apply in_or_app. now left. }
    apply (allocated_child _ _ _ Hwf) in Hin. lia.
  - intros q Hq. now rewrite Hoth', Hf1.
  - repeat split; try discriminate. simpl. exact Hc'.
Qed.

Lemma clearWithComment_replaces_range_witness :
  DOM.wf (dom (heap sample_world)) /\
  covers sample_bounds (heap sample_world) [1] [2; 3] [4] /\
  length [2; 3] <= 2 /\
  exists d',
    clearWithComment 2 sample_bounds sample_world
    = Ok (ConcreteBounds 0 (Some 8) (Some 8)) (set_dom sample_world d') /\
    DOM.wf d' /\
    DOM.childNodes d' 0 = [1; 8; 4] /\
    DOM.commentData d' 8 = Some String.EmptyString /\
    DOM.parentNode (dom (heap sample_world)) 8 = None /\
    (forall n, In n [2; 3] -> DOM.parentNode d' n = None) /\
    (forall q, q <> 0 -> DOM.childNodes d' q = DOM.childNodes (dom (heap sample_world)) q) /\
    covers (ConcreteBounds 0 (Some 8) (Some 8)) (heap (set_dom sample_world d')) [1] [8] [4].
Proof.
  assert (Hcov : covers sample_bounds (heap sample_world) [1] [2; 3] [4]).
  { repeat split. discriminate. }
  split; [exact sample_dom_wf|]. split; [exact Hcov|]. split; [apply le_n|].
  exact (clearWithComment_replaces_range 2 sample_bounds sample_world [1] [2; 3] [4]
           sample_dom_wf Hcov (le_n 2)).
Defined.

(** ** The state machine of [EmptyableMorph] *)

Lemma fresh_unlisted d n q :
  DOM.wf d -> DOM.nextNode d <= n -> ~ In n (DOM.childNodes d q).
Proof.
  intros Hwf Hn Hin. apply (allocated_child _ _ _ Hwf) in Hin. lia.
Qed.

Lemma covers_parent_allocated b h pre mid post :
  DOM.wf (dom h) -> covers b h pre mid post ->
  eparent (extent_of b h) < DOM.nextNode (dom h).
Proof.
  intros Hwf (Hne & _ & _ & Hc).
  destruct mid as [|x mid]; [congruence|].
  apply (allocated_parent _ _ x Hwf). rewrite Hc.
  apply in_or_app. right. now left.
Qed.

Lemma covers_length b h pre mid post :
  covers b h pre mid post ->
  length mid <= length (DOM.childNodes (dom h) (eparent (extent_of b h))).
Proof.
  intros (_ & _ & _ & Hc). rewrite Hc, !length_app. lia.
Qed.

(** From content to empty: the range goes, a placeholder takes its place. *)
Lemma HasContent_didBecomeEmpty_spec fuel m b w pre mid post :
  DOM.wf (dom (heap w)) ->
  covers b (heap w) pre mid post ->
  eparent (extent_of b (heap w)) = parentNode m ->
  length mid <= fuel ->
  exists d1 d2,
    HasContent.didBecomeEmpty fuel m b w
    = Ok (set_currentOperations m (Empty (DOM.nextNode (dom (heap w)))))
         (set_dom w d2) /\
    range_removed (parentNode m) pre mid post (dom (heap w)) d1 /\
    dom_frame (parentNode m) (dom (heap w)) d1 /\
    comment_placed (parentNode m) pre post d1 d2.
Proof.
  intros Hwf Hcov Hpar Hfuel.
  destruct (clear_covers fuel b w pre mid post Hwf Hcov Hfuel)
    as (d1 & Hrun & Hrr & Hfr).
  rewrite Hpar in Hrr, Hfr.
  pose proof (covers_parent_allocated _ _ _ _ _ Hwf Hcov) as Hp. rewrite Hpar in Hp.
  destruct Hfr as (Hf1 & Hn1 & Hcd1).
  destruct (Empty_new_spec m (set_dom w d1) pre post) as (d2 & Hnew & Hcp).
  - exact (rr_wf _ _ _ _ _ _ Hrr).
  - simpl. now rewrite Hn1.
  - exact (rr_children _ _ _ _ _ _ Hrr).
  - exists d1, d2. split; [|split; [exact Hrr|split; [now repeat split|exact Hcp]]].
    unfold HasContent.didBecomeEmpty.
    rewrite (bind_ok _ _ _ _ _ Hrun), (bind_ok _ _ _ _ _ Hnew).
    simpl. rewrite Hn1. reflexivity.
Qed.

(** From empty to content: the placeholder goes. *)
Lemma Empty_didInsertContent_spec m c b w pre post :
  DOM.wf (dom (heap w)) ->
  DOM.childNodes (dom (heap w)) (parentNode m) = pre ++ c :: post ->
  exists d',
    Empty.didInsertContent m c b w
    = Ok (set_currentOperations m (HasContent b)) (set_dom w d') /\
    DOM.wf d' /\ DOM.childNodes d' (parentNode m) = pre ++ post /\
    dom_frame (parentNode m) (dom (heap w)) d'.
Proof.
  intros Hwf Hc.
  destruct (DOMFacts.removeChild_split _ _ _ _ _ Hwf Hc)
    as (d' & Hrm & Hwf' & Hc' & Hf' & Hn' & Hcd').
  exists d'. split; [|split; [exact Hwf'|split; [exact Hc'|now repeat split]]].
  unfold Empty.didInsertContent.
  assert (Hp : Node.parentNode c w = Ok (Some (parentNode m)) w).
  { unfold Node.parentNode. f_equal.
    apply (DOMFacts.parent_of_child _ _ _ Hwf). rewrite Hc. apply in_elt. }
  rewrite (bind_ok _ _ _ _ _ Hp).
  rewrite (bind_ok _ _ _ _ _ (removeChild_eq _ _ _ _ Hrm)).
  reflexivity.
Qed.

(** ** Claims on the state machine *)

(** C4.  Start from a morph in the Appending state under parent [p], with
    bounds [b1] well formed over the run [mid] of the children
    [pre ++ mid ++ post] of [p].  The calls [didInsertContent(b1)],
    [didBecomeEmpty()], [didInsertContent(b2)] all return normally and leave
    the morph in [HasContent(b2)]; the parent's children are then
    [pre ++ post], so that no node of [b1] and no placeholder is left among
    them; the one comment created on the way, [c], is out of the tree. *)
Theorem insert_empty_insert_leaves_no_residue fuel p b1 b2 w pre mid post :
  DOM.wf (dom (heap w)) ->
  covers b1 (heap w) pre mid post ->
  eparent (extent_of b1 (heap w)) = p ->
  length mid <= fuel ->
  exists d',
    let c := DOM.nextNode (dom (heap w)) in
    (m1 <- EmptyableMorph.didInsertContent fuel (EmptyableMorph.new p) b1 ;;
     m2 <- EmptyableMorph.didBecomeEmpty fuel m1 ;;
     EmptyableMorph.didInsertContent fuel m2 b2) w
    = Ok (mkMorph p (HasContent b2)) (set_dom w d') /\
    range_removed p pre mid post (dom (heap w)) d' /\
    DOM.nextNode d' = S c /\
    DOM.parentNode d' c = None /\
    (forall q, ~ In c (DOM.childNodes d' q)) /\
    (forall n, In n (DOM.childNodes d' p) -> In n (DOM.childNodes (dom (heap w)) p)).
Proof.
  intros Hwf Hcov Hpar Hfuel.
  set (m1 := mkMorph p (HasContent b1)).
  destruct (HasContent_didBecomeEmpty_spec fuel m1 b1 w pre mid post Hwf Hcov Hpar Hfuel)
    as (d1 & d2 & Hempty & Hrr & (Hf1 & Hn1 & Hcd1) & Hcp).
  simpl in Hrr, Hf1, Hcp.
  destruct Hcp as [Hwf2 Hc2 Hoth2 Hnext2 Hpar2 Hlinks2 Hdata2 _].
  rewrite Hn1 in *.
  set (c := DOM.nextNode (dom (heap w))) in *.
  destruct (Empty_didInsertContent_spec (mkMorph p (Empty c)) c b2 (set_dom w d2) pre post
              Hwf2 Hc2) as (d3 & Hins & Hwf3 & Hc3 & (Hf3 & Hn3 & Hcd3)).
  simpl in Hc3, Hf3, Hn3.
  pose proof Hcov as (_ & _ & _ & Hc). rewrite Hpar in Hc.
  assert (Hoth : forall q, q <> p -> DOM.childNodes d3 q = DOM.childNodes (dom (heap w)) q).
  { intros q Hq. now rewrite Hf3, Hoth2, Hf1. }
  assert (Hunlisted : forall q, ~ In c (DOM.childNodes d3 q)).
  { intros q. destruct (Nat.eq_dec q p) as [->|Hq].
    - rewrite Hc3. intros Hin.
      apply (fresh_unlisted (dom (heap w)) c p Hwf (le_n _)).
      rewrite Hc, !in_app_iff. rewrite in_app_iff in Hin. tauto.
    - rewrite (Hoth q Hq). apply (fresh_unlisted _ _ _ Hwf (le_n _)). }
  exists d3. simpl.
  split; [|split; [|split; [|split; [|split]]]].
  - assert (H1 : EmptyableMorph.didInsertContent fuel (EmptyableMorph.new p) b1 w
                 = Ok m1 w) by reflexivity.
    rewrite (bind_ok _ _ _ _ _ H1).
    assert (H2 : EmptyableMorph.didBecomeEmpty fuel m1 w
                 = Ok (mkMorph p (Empty c)) (set_dom w d2)) by exact Hempty.
    rewrite (bind_ok _ _ _ _ _ H2).
    exact Hins.
  - apply range_removed_intro; auto.
  - congruence.
  - now apply unlisted_is_orphan.
  - exact Hunlisted.
  - intros n. rewrite Hc3, Hc, !in_app_iff. tauto.
Qed.

Lemma insert_empty_insert_leaves_no_residue_witness :
  DOM.wf (dom (heap sample_world)) /\
  covers sample_bounds (heap sample_world) [1] [2; 3] [4] /\
  length [2; 3] <= 2 /\
  exists d',
    (m1 <- EmptyableMorph.didInsertContent 2 (EmptyableMorph.new 0) sample_bounds ;;
     m2 <- EmptyableMorph.didBecomeEmpty 2 m1 ;;
     EmptyableMorph.didInsertContent 2 m2 (appendBounds 0)) sample_world
    = Ok (mkMorph 0 (HasContent (appendBounds 0))) (set_dom sample_world d') /\
    range_removed 0 [1] [2; 3] [4] (dom (heap sample_world)) d' /\
    DOM.nextNode d' = 9 /\
    DOM.parentNode d' 8 = None /\
    (forall q, ~ In 8 (DOM.childNodes d' q)) /\
    (forall n, In n (DOM.childNodes d' 0) -> In n (DOM.childNodes (dom (heap sample_world)) 0)).
Proof.
  assert (Hcov : covers sample_bounds (heap sample_world) [1] [2; 3] [4]).
  { repeat split. discriminate. }
  split; [exact sample_dom_wf|]. split; [exact Hcov|]. split; [apply le_n|].
  exact (insert_empty_insert_leaves_no_residue 2 0 sample_bounds (appendBounds 0)
           sample_world [1] [2; 3] [4] sample_dom_wf Hcov eq_refl (le_n 2)).
Defined.

Lemma set_currentOperations_same m ops :
  currentOperations m = ops -> set_currentOperations m ops = m.
Proof. destruct m as [p o]. simpl. now intros ->. Qed.

Lemma set_dom_same w : set_dom w (dom (heap w)) = w.
Proof. now destruct w as [[d e k] tr]. Qed.

Lemma listed_once d p n :
  DOM.wf d -> DOM.parentNode d n = Some p ->
  count_occ Nat.eq_dec (DOM.childNodes d p) n = 1.
Proof.
  intros Hwf Hp. apply NoDup_count_occ'.
  - apply (DOM.wf_nodup Hwf).
  - now apply (DOM.wf_links Hwf).
Qed.

(** [didBecomeEmpty] from any consistent state: the morph ends in the Empty
    state, its placeholder an empty comment under the parent. *)
Lemma didBecomeEmpty_spec fuel m w :
  DOM.wf (dom (heap w)) ->
  morph_ok m (heap w) ->
  length (DOM.childNodes (dom (heap w)) (parentNode m)) <= fuel ->
  exists c d1,
    EmptyableMorph.didBecomeEmpty fuel m w
    = Ok (set_currentOperations m (Empty c)) (set_dom w d1) /\
    DOM.wf d1 /\
    DOM.parentNode d1 c = Some (parentNode m) /\
    DOM.commentData d1 c = Some String.EmptyString /\
    DOM.nextNode (dom (heap w)) <= DOM.nextNode d1 /\
    DOM.nextNode d1 <= S (DOM.nextNode (dom (heap w))).
Proof.
  intros Hwf Hok Hfuel. unfold morph_ok in Hok.
  unfold EmptyableMorph.didBecomeEmpty.
  destruct (currentOperations m) as [|c|b] eqn:Hops.
  - destruct (Empty_new_spec m w (DOM.childNodes (dom (heap w)) (parentNode m)) [] Hwf Hok)
      as (d1 & Hnew & Hcp).
    { now rewrite app_nil_r. }
    destruct Hcp as [Hwf1 Hc1 _ Hnext1 Hpar1 _ Hdata1 _].
    exists (DOM.nextNode (dom (heap w))), d1.
    split; [|split; [exact Hwf1|split; [exact Hpar1|split; [exact Hdata1|lia]]]].
    unfold Appending.didBecomeEmpty. simpl in Hnew.
    now rewrite (bind_ok _ _ _ _ _ Hnew).
  - destruct Hok as [Hpar Hdata].
    exists c, (dom (heap w)).
    rewrite (set_currentOperations_same m (Empty c) Hops), set_dom_same.
    split; [reflexivity|]. split; [exact Hwf|]. split; [exact Hpar|].
    split; [exact Hdata|lia].
  - destruct Hok as (Hpar & pre & mid & post & Hcov).
    assert (Hlen : length mid <= fuel).
    { pose proof (covers_length _ _ _ _ _ Hcov) as H. rewrite Hpar in H. lia. }
    destruct (HasContent_didBecomeEmpty_spec fuel m b w pre mid post Hwf Hcov Hpar Hlen)
      as (d1 & d2 & Hempty & _ & (_ & Hn1 & _) & Hcp).
    destruct Hcp as [Hwf2 Hc2 _ Hnext2 Hpar2 _ Hdata2 _].
    rewrite Hn1 in *.
    exists (DOM.nextNode (dom (heap w))), d2.
    split; [exact Hempty|]. split; [exact Hwf2|]. split; [exact Hpar2|].
    split; [exact Hdata2|lia].
Qed.

(** C5.  From any state of the morph, with enough iterations for the
    content to be cleared, [didBecomeEmpty] returns normally in the Empty
    state with a placeholder [c], an empty comment that occurs exactly once
    among the parent's children; at most one node has been created; and a
    second [didBecomeEmpty] returns the same morph and the same world. *)
Theorem didBecomeEmpty_twice_one_placeholder fuel m w :
  DOM.wf (dom (heap w)) ->
  morph_ok m (heap w) ->
  length (DOM.childNodes (dom (heap w)) (parentNode m)) <= fuel ->
  exists c d1,
    let m1 := set_currentOperations m (Empty c) in
    let w1 := set_dom w d1 in
    EmptyableMorph.didBecomeEmpty fuel m w = Ok m1 w1 /\
    EmptyableMorph.didBecomeEmpty fuel m1 w1 = Ok m1 w1 /\
    DOM.wf d1 /\
    count_occ Nat.eq_dec (DOM.childNodes d1 (parentNode m)) c = 1 /\
    DOM.commentData d1 c = Some String.EmptyString /\
    DOM.nextNode d1 <= S (DOM.nextNode (dom (heap w))).
Proof.
  intros Hwf Hok Hfuel.
  destruct (didBecomeEmpty_spec fuel m w Hwf Hok Hfuel)
    as (c & d1 & Hrun & Hwf1 & Hpar1 & Hdata1 & _ & Hnext1).
  exists c, d1. simpl.
  split; [exact Hrun|]. split; [reflexivity|]. split; [exact Hwf1|].
  split; [now apply listed_once|]. split; [exact Hdata1|exact Hnext1].
Qed.

Lemma didBecomeEmpty_twice_one_placeholder_witness :
  DOM.wf (dom (heap sample_world)) /\
  morph_ok (mkMorph 0 (HasContent sample_bounds)) (heap sample_world) /\
  length (DOM.childNodes (dom (heap sample_world)) 0) <= 4 /\
  exists c d1,
    EmptyableMorph.didBecomeEmpty 4 (mkMorph 0 (HasContent sample_bounds)) sample_world
    = Ok (mkMorph 0 (Empty c)) (set_dom sample_world d1) /\
    EmptyableMorph.didBecomeEmpty 4 (mkMorph 0 (Empty c)) (set_dom sample_world d1)
    = Ok (mkMorph 0 (Empty c)) (set_dom sample_world d1) /\
    DOM.wf d1 /\
    count_occ Nat.eq_dec (DOM.childNodes d1 0) c = 1 /\
    DOM.commentData d1 c = Some String.EmptyString /\
    DOM.nextNode d1 <= S (DOM.nextNode (dom (heap sample_world))).
Proof.
  assert (Hok : morph_ok (mkMorph 0 (HasContent sample_bounds)) (heap sample_world)).
  { split; [reflexivity|]. exists [1], [2; 3], [4]. repeat split. discriminate. }
  split; [exact sample_dom_wf|]. split; [exact Hok|]. split; [apply le_n|].
  exact (didBecomeEmpty_twice_one_placeholder 4 (mkMorph 0 (HasContent sample_bounds))
           sample_world sample_dom_wf Hok (le_n 4)).
Defined.

(** C10.  A morph whose current operations are still Appending answers
    null for [firstNode()] and [lastNode()], and [nextSibling()] throws a
    TypeError; so [nextSibling()] never returns normally in that state. *)
Theorem nextSibling_fails_while_appending m w :
  currentOperations m = Appending ->
  EmptyableMorph.firstNode m w = Ok None w /\
  EmptyableMorph.lastNode m w = Ok None w /\
  EmptyableMorph.nextSibling m w = Throw TypeError /\
  (forall r w', EmptyableMorph.nextSibling m w <> Ok r w').
Proof.
  intros Hops.
  assert (Hthrow : EmptyableMorph.nextSibling m w = Throw TypeError).
  { unfold EmptyableMorph.nextSibling, EmptyableMorph.lastNode, bind.
    now rewrite Hops. }
  unfold EmptyableMorph.firstNode, EmptyableMorph.lastNode. rewrite Hops.
  repeat split; auto.
  intros r w'. rewrite Hthrow. discriminate.
Qed.

Lemma nextSibling_fails_while_appending_witness :
  currentOperations (EmptyableMorph.new 0) = Appending /\
  EmptyableMorph.firstNode (EmptyableMorph.new 0) sample_world = Ok None sample_world /\
  EmptyableMorph.lastNode (EmptyableMorph.new 0) sample_world = Ok None sample_world /\
  EmptyableMorph.nextSibling (EmptyableMorph.new 0) sample_world = Throw TypeError /\
  (forall r w', EmptyableMorph.nextSibling (EmptyableMorph.new 0) sample_world <> Ok r w').
Proof.
  split; [reflexivity|].
  exact (nextSibling_fails_while_appending (EmptyableMorph.new 0) sample_world eq_refl).
Defined.

(** ** Claims on [TemplateMorph] *)

Lemma template_evaluate_ok `{Engine} t p ns w r w' :
  template_evaluate t p ns w = Ok r w' ->
  exists h', evaluate t p ns (heap w) = Some (r, h') /\
             w' = mkWorld h' (trace w ++ [EvEvaluate t ns]).
Proof.
  unfold template_evaluate.
  destruct (evaluate t p ns (heap w)) as [[r0 h0]|]; [|discriminate].
  intros [= <- <-]. now exists h0.
Qed.

Lemma result_rerender_ok `{Engine} r w u w' :
  result_rerender r w = Ok u w' ->
  exists h', rerender r (heap w) = Some h' /\
             w' = mkWorld h' (trace w ++ [EvRerender r]).
Proof.
  unfold result_rerender.
  destruct (rerender r (heap w)) as [h0|]; [|discriminate].
  intros [= <-]. now exists h0.
Qed.

Lemma bind_inv {A B} (m : M A) (k : A -> M B) w b w' :
  bind m k w = Ok b w' -> exists a w1, m w = Ok a w1 /\ k a w1 = Ok b w'.
Proof.
  unfold bind. destruct (m w) as [a w1| |]; try discriminate.
  intros Hk. now exists a, w1.
Qed.

(** The range algorithms and the state machine write neither the trace
    nor the extents of the results. *)
Lemma clear_loop_keeps fuel p last :
  forall node w r w',
    clear_loop fuel p last node w = Ok r w' ->
    exists d', w' = set_dom w d'.
Proof.
  induction fuel as [|fuel IH]; intros [n|] w r w' Hrun; simpl in Hrun;
    try discriminate;
    try (injection Hrun as <- <-; exists (dom (heap w)); now rewrite set_dom_same).
  unfold bind, Node.nextSibling, Node.removeChild in Hrun.
  destruct (DOM.removeChild p n (dom (heap w))) as [d1|]; [|discriminate].
  destruct (match last with Some y => Nat.eqb n y | None => false end).
  - injection Hrun as <- <-. now exists d1.
  - apply IH in Hrun as [d' ->]. now exists d'.
Qed.

Lemma clear_keeps fuel b w r w' :
  clear fuel b w = Ok r w' -> exists d', w' = set_dom w d'.
Proof.
  unfold clear.
  rewrite (bind_ok _ _ _ _ _ (parentElement_eq b w)).
  rewrite (bind_ok _ _ _ _ _ (firstNode_eq b w)).
  rewrite (bind_ok _ _ _ _ _ (lastNode_eq b w)).
  apply clear_loop_keeps.
Qed.

Lemma Empty_new_keeps parent ns w ops w' :
  Empty.new parent ns w = Ok ops w' ->
  ops = Empty (DOM.nextNode (dom (heap w))) /\ exists d', w' = set_dom w d'.
Proof.
  unfold Empty.new.
  rewrite (bind_ok _ _ _ _ _ (createComment_eq _ _)).
  unfold bind, DOMHelper.insertBefore.
  destruct (DOM.insertBefore _ _ _ _) as [e|d']; [discriminate|].
  intros [= <- <-]. split; [reflexivity|]. now exists d'.
Qed.

Lemma didInsertContent_keeps fuel m b w m' w' :
  EmptyableMorph.didInsertContent fuel m b w = Ok m' w' ->
  m' = set_currentOperations m (HasContent b) /\ exists d', w' = set_dom w d'.
Proof.
  unfold EmptyableMorph.didInsertContent.
  destruct (currentOperations m) as [|c|old].
  - intros [= <- <-]. split; [reflexivity|].
    exists (dom (heap w)). now rewrite set_dom_same.
  - unfold Empty.didInsertContent, bind, Node.parentNode, Node.removeChild, throw.
    destruct (DOM.parentNode (dom (heap w)) c) as [q|]; [|discriminate].
    destruct (DOM.removeChild q c (dom (heap w))) as [d'|]; [|discriminate].
    intros [= <- <-]. split; [reflexivity|]. now exists d'.
  - unfold HasContent.didInsertContent. intros Hrun.
    apply bind_inv in Hrun as (r & w1 & Hclear & Hret).
    injection Hret as <- <-. split; [reflexivity|].
    now apply clear_keeps in Hclear.
Qed.

Lemma didBecomeEmpty_keeps fuel m w m' w' :
  EmptyableMorph.didBecomeEmpty fuel m w = Ok m' w' ->
  (exists c, currentOperations m' = Empty c) /\ parentNode m' = parentNode m /\
  exists d', w' = set_dom w d'.
Proof.
  unfold EmptyableMorph.didBecomeEmpty.
  destruct (currentOperations m) as [|c|b] eqn:Hops.
  - unfold Appending.didBecomeEmpty. intros Hrun.
    apply bind_inv in Hrun as (ops & w1 & Hnew & Hret).
    injection Hret as <- <-. apply Empty_new_keeps in Hnew as [-> Hw].
    split; [eexists; reflexivity|]. split; [reflexivity|exact Hw].
  - intros [= <- <-]. split; [now exists c|]. split; [reflexivity|].
    exists (dom (heap w)). now rewrite set_dom_same.
  - unfold HasContent.didBecomeEmpty. intros Hrun.
    apply bind_inv in Hrun as (ns & w1 & Hclear & Hrun).
    apply bind_inv in Hrun as (ops & w2 & Hnew & Hret).
    injection Hret as <- <-.
    apply clear_keeps in Hclear as [d1 ->].
    apply Empty_new_keeps in Hnew as [-> [d2 ->]].
    split; [eexists; reflexivity|]. split; [reflexivity|]. now exists d2.
Qed.

Lemma appendTemplate_ok `{Engine} fuel tm t ns w tm' w' :
  TemplateMorph.appendTemplate fuel tm t ns w = Ok tm' w' ->
  exists r h' d',
    evaluate t (parentNode (super tm)) ns (heap w) = Some (r, h') /\
    tm' = mkTemplateMorph (set_currentOperations (super tm) (HasContent (ResultBounds r)))
                          (Some r) /\
    w' = set_dom (mkWorld h' (trace w ++ [EvEvaluate t ns])) d'.
Proof.
  unfold TemplateMorph.appendTemplate. intros Hrun.
  apply bind_inv in Hrun as (r & w1 & Heval & Hrun).
  apply bind_inv in Hrun as (m & w2 & Hins & Hret).
  injection Hret as <- <-.
  apply template_evaluate_ok in Heval as (h' & Heval & ->).
  apply didInsertContent_keeps in Hins as [-> [d' ->]].
  now exists r, h', d'.
Qed.

Lemma nextSiblingForContent_pure m w ns w' :
  EmptyableMorph.nextSiblingForContent m w = Ok ns w' -> w' = w.
Proof.
  unfold EmptyableMorph.nextSiblingForContent.
  destruct (currentOperations m) as [|c|b].
  - now intros [= _ <-].
  - now intros [= _ <-].
  - unfold HasContent.nextSiblingForContent. rewrite firstNode_eq. now intros [= _ <-].
Qed.

(** The two ways [updateTemplate] returns normally. *)
Lemma updateTemplate_ok `{Engine} fuel tm t w tm' w' :
  TemplateMorph.updateTemplate fuel tm t w = Ok tm' w' ->
  (exists r h', lastResult tm = Some r /\ template r = t /\ tm' = tm /\
      rerender r (heap w) = Some h' /\
      w' = mkWorld h' (trace w ++ [EvRerender r])) \/
  (exists ns,
      EmptyableMorph.nextSiblingForContent (super tm) w = Ok ns w /\
      (forall r, lastResult tm = Some r -> template r <> t) /\
      TemplateMorph.appendTemplate fuel tm t ns w = Ok tm' w').
Proof.
  unfold TemplateMorph.updateTemplate.
  destruct (lastResult tm) as [r|] eqn:Hlast.
  - destruct (Nat.eqb_spec t (template r)) as [->|Hne].
    + intros Hrun. left.
      apply bind_inv in Hrun as (u & w1 & Hre & Hret).
      injection Hret as <- <-.
      apply result_rerender_ok in Hre as (h' & Hre & ->).
      now exists r, h'.
    + intros Hrun. right.
      apply bind_inv in Hrun as (ns & w1 & Hns & Happ).
      pose proof (nextSiblingForContent_pure _ _ _ _ Hns) as ->.
      exists ns. split; [exact Hns|]. split; [|exact Happ].
      intros r' [= <-]. congruence.
  - intros Hrun. right.
    apply bind_inv in Hrun as (ns & w1 & Hns & Happ).
    pose proof (nextSiblingForContent_pure _ _ _ _ Hns) as ->.
    exists ns. split; [exact Hns|]. split; [discriminate|exact Happ].
Qed.

(** C6.  Once [updateTemplate(t)] has returned, the morph holds a result of
    template [t]; a second [updateTemplate(t)] is then exactly a call of
    [rerender()] on that result: when it returns, the morph is unchanged
    (same operations object, same bounds, same [lastResult]) and the only
    call made into the engine is that [rerender()], so the template has not
    been evaluated again. *)
Theorem updateTemplate_same_template_only_rerenders `{E : Engine}
    fuel1 fuel2 tm t w tm1 w1 :
  evaluate_names_template E ->
  TemplateMorph.updateTemplate fuel1 tm t w = Ok tm1 w1 ->
  exists r,
    lastResult tm1 = Some r /\ template r = t /\
    TemplateMorph.updateTemplate fuel2 tm1 t w1 = (result_rerender r ;;; ret tm1) w1 /\
    forall tm2 w2,
      TemplateMorph.updateTemplate fuel2 tm1 t w1 = Ok tm2 w2 ->
      tm2 = tm1 /\ trace w2 = trace w1 ++ [EvRerender r].
Proof.
  intros Hnames Hfirst.
  assert (Hheld : exists r, lastResult tm1 = Some r /\ template r = t).
  { apply updateTemplate_ok in Hfirst
      as [(r & h' & Hlast & Htpl & -> & _)|(ns & _ & _ & Happ)].
    - now exists r.
    - apply appendTemplate_ok in Happ as (r & h' & d' & Heval & -> & _).
      exists r. split; [reflexivity|]. exact (Hnames _ _ _ _ _ _ Heval). }
  destruct Hheld as (r & Hlast & Htpl). exists r.
  assert (Hsecond : TemplateMorph.updateTemplate fuel2 tm1 t w1
                    = (result_rerender r ;;; ret tm1) w1).
  { unfold TemplateMorph.updateTemplate. rewrite Hlast, Htpl.
    now rewrite Nat.eqb_refl. }
  split; [exact Hlast|]. split; [exact Htpl|]. split; [exact Hsecond|].
  intros tm2 w2. rewrite Hsecond. intros Hrun.
  apply bind_inv in Hrun as (u & w' & Hre & Hret).
  injection Hret as <- <-.
  apply result_rerender_ok in Hre as (h' & _ & ->). now split.
Qed.


(** ** The region of a morph *)

Lemma region_exists m h :
  DOM.wf (dom h) -> morph_ok m h -> exists pre old post, region m h pre old post.
Proof.
  intros Hwf Hok. unfold morph_ok in Hok. unfold region.
  destruct (currentOperations m) as [|c|b].
  - exists (DOM.childNodes (dom h) (parentNode m)), [], [].
    now rewrite !app_nil_r.
  - destruct Hok as [Hpar _].
    destruct (child_position _ _ _ Hwf Hpar) as (pre & post & Hc).
    now exists pre, [c], post.
  - destruct Hok as (Hpar & pre & mid & post & Hcov).
    exists pre, mid, post. split; [|now split].
    destruct Hcov as (_ & _ & _ & Hc). now rewrite <- Hpar.
Qed.

Lemma region_anchor m w pre old post :
  region m (heap w) pre old post ->
  EmptyableMorph.nextSiblingForContent m w = Ok (hd_error (old ++ post)) w.
Proof.
  intros [_ Hreg]. unfold EmptyableMorph.nextSiblingForContent.
  destruct (currentOperations m) as [|c|b].
  - now destruct Hreg as [-> ->].
  - now rewrite Hreg.
  - destruct Hreg as (_ & Hne & Hf & _).
    unfold HasContent.nextSiblingForContent. rewrite firstNode_eq, Hf.
    destruct old; [congruence|reflexivity].
Qed.

Lemma region_length m h pre old post :
  region m h pre old post ->
  length old <= length (DOM.childNodes (dom h) (parentNode m)).
Proof. intros [Hc _]. rewrite Hc, !length_app. lia. Qed.

(** [didInsertContent] takes what the morph owned out of the tree. *)
Lemma didInsertContent_spec fuel m b w pre old post :
  DOM.wf (dom (heap w)) ->
  region m (heap w) pre old post ->
  length old <= fuel ->
  exists d',
    EmptyableMorph.didInsertContent fuel m b w
    = Ok (set_currentOperations m (HasContent b)) (set_dom w d') /\
    DOM.wf d' /\ DOM.childNodes d' (parentNode m) = pre ++ post /\
    dom_frame (parentNode m) (dom (heap w)) d'.
Proof.
  intros Hwf [Hc Hreg] Hfuel. unfold EmptyableMorph.didInsertContent.
  destruct (currentOperations m) as [|c|old_b].
  - destruct Hreg as [-> ->]. exists (dom (heap w)).
    rewrite set_dom_same. split; [reflexivity|]. split; [exact Hwf|].
    split; [exact Hc|apply dom_frame_refl].
  - subst old. now apply Empty_didInsertContent_spec.
  - destruct Hreg as [Hpar Hcov].
    destruct (clear_covers fuel old_b w pre old post Hwf Hcov Hfuel)
      as (d' & Hrun & Hrr & Hfr).
    rewrite Hpar in Hrr, Hfr.
    exists d'. split; [|split; [exact (rr_wf _ _ _ _ _ _ Hrr)|
                         split; [exact (rr_children _ _ _ _ _ _ Hrr)|exact Hfr]]].
    unfold HasContent.didInsertContent.
    now rewrite (bind_ok _ _ _ _ _ Hrun).
Qed.

Lemma extent_of_allocated b h h' :
  bounds_allocated b h ->
  (forall i, i < nextResult h -> extents h' i = extents h i) ->
  extent_of b h' = extent_of b h.
Proof.
  intros Halloc Hsame. destruct b as [p f l|p n|r]; try reflexivity.
  simpl in *. now apply Hsame.
Qed.

(** The region after the engine has rendered [nodes] at its anchor. *)
Lemma region_after_render m h h' t r pre nodes old post :
  (forall b, currentOperations m = HasContent b -> bounds_allocated b h) ->
  region m h pre old post ->
  rendered t (parentNode m) pre nodes (old ++ post) h r h' ->
  region m h' (pre ++ nodes) old post.
Proof.
  intros Halloc [Hc Hreg] Hrd. split.
  - rewrite (rd_children _ _ _ _ _ _ _ _ Hrd). now rewrite <- !app_assoc.
  - destruct (currentOperations m) as [|c|b]; try exact Hreg.
    destruct Hreg as [Hpar (Hne & Hf & Hl & Hcb)].
    assert (Hext : extent_of b h' = extent_of b h).
    { apply extent_of_allocated; [now apply Halloc|].
      exact (rd_extents _ _ _ _ _ _ _ _ Hrd). }
    unfold covers. rewrite Hext. split; [exact Hpar|].
    split; [exact Hne|]. split; [exact Hf|]. split; [exact Hl|].
    rewrite Hpar, (rd_children _ _ _ _ _ _ _ _ Hrd). now rewrite <- !app_assoc.
Qed.

(** [appendTemplate] at the anchor of the morph's region: the new result
    takes the place of what the morph owned. *)
Lemma appendTemplate_spec `{E : Engine} fuel tm t w pre old post :
  evaluate_renders E ->
  DOM.wf (dom (heap w)) -> template_morph_ok tm (heap w) ->
  region (super tm) (heap w) pre old post ->
  length old <= fuel ->
  exists r nodes w',
    let tm' := mkTemplateMorph
                 (set_currentOperations (super tm) (HasContent (ResultBounds r)))
                 (Some r) in
    TemplateMorph.appendTemplate fuel tm t (hd_error (old ++ post)) w = Ok tm' w' /\
    template r = t /\
    DOM.wf (dom (heap w')) /\
    covers (ResultBounds r) (heap w') pre nodes post /\
    (forall n, In n old -> DOM.parentNode (dom (heap w')) n = None) /\
    template_morph_ok tm' (heap w') /\
    trace w' = trace w ++ [EvEvaluate t (hd_error (old ++ post))].
Proof.
  intros Hrenders Hwf (Hp & Hmok & Halloc & Hlast) Hreg Hfuel.
  pose proof Hreg as [Hc _].
  set (p := parentNode (super tm)) in *.
  destruct (Hrenders t p (heap w) pre (old ++ post) Hwf Hp Hc)
    as (r & nodes & h1 & Heval & Hrd).
  set (w1 := mkWorld h1 (trace w ++ [EvEvaluate t (hd_error (old ++ post))])).
  assert (Hev : template_evaluate t p (hd_error (old ++ post)) w = Ok r w1).
  { unfold template_evaluate. now rewrite Heval. }
  pose proof (region_after_render (super tm) (heap w) h1 t r pre nodes old post
                Halloc Hreg Hrd) as Hreg1.
  pose proof (rd_wf _ _ _ _ _ _ _ _ Hrd) as Hwf1.
  destruct (didInsertContent_spec fuel (super tm) (ResultBounds r) w1
              (pre ++ nodes) old post Hwf1 Hreg1 Hfuel)
    as (d2 & Hins & Hwf2 & Hc2 & Hfr2).
  fold p in Hc2, Hfr2.
  assert (Hext : extents h1 (rid r) = mkExtent p (hd_error nodes) (last_error nodes))
    by exact (rd_extent _ _ _ _ _ _ _ _ Hrd).
  assert (Hcov : covers (ResultBounds r) (heap (set_dom w1 d2)) pre nodes post).
  { unfold covers. simpl. rewrite Hext. simpl.
    split; [exact (rd_nonempty _ _ _ _ _ _ _ _ Hrd)|].
    split; [reflexivity|]. split; [reflexivity|].
    rewrite Hc2. now rewrite <- app_assoc. }
  exists r, nodes, (set_dom w1 d2). simpl.
  split; [|split; [|split; [|split; [|split; [|split]]]]].
  - unfold TemplateMorph.appendTemplate.
    fold p. rewrite (bind_ok _ _ _ _ _ Hev), (bind_ok _ _ _ _ _ Hins).
    reflexivity.
  - exact (rd_template _ _ _ _ _ _ _ _ Hrd).
  - exact Hwf2.
  - exact Hcov.
  - intros n Hn.
    assert (Hrr : range_removed p (pre ++ nodes) old post (dom h1) d2).
    { apply range_removed_intro; auto.
      - destruct Hreg1 as [Hc1 _]. exact Hc1.
      - apply Hfr2. }
    now apply (rr_removed _ _ _ _ _ _ Hrr).
  - split; [|split; [|split]]; simpl.
    + destruct Hfr2 as (_ & Hn2 & _). simpl in Hn2. rewrite Hn2.
      pose proof (rd_nextNode _ _ _ _ _ _ _ _ Hrd). fold p. lia.
    + unfold morph_ok. simpl. split.
      * rewrite Hext. reflexivity.
      * now exists pre, nodes, post.
    + intros b [= <-]. simpl.
      rewrite (rd_nextResult _ _ _ _ _ _ _ _ Hrd), (rd_rid _ _ _ _ _ _ _ _ Hrd). lia.
    + intros r' [= <-]. reflexivity.
  - reflexivity.
Qed.

(** ** Switching templates *)

(** [updateTemplate] keeps a consistent morph consistent and leaves it
    holding a result of the template it was given. *)
Lemma updateTemplate_preserves `{E : Engine} fuel tm t w tm1 w1 :
  evaluate_renders E -> rerender_in_place E ->
  DOM.wf (dom (heap w)) ->
  template_morph_ok tm (heap w) ->
  length (DOM.childNodes (dom (heap w)) (parentNode (super tm))) <= fuel ->
  TemplateMorph.updateTemplate fuel tm t w = Ok tm1 w1 ->
  exists r1,
    lastResult tm1 = Some r1 /\ template r1 = t /\
    parentNode (super tm1) = parentNode (super tm) /\
    DOM.wf (dom (heap w1)) /\ template_morph_ok tm1 (heap w1).
Proof.
  intros Hrenders Hinplace Hwf Hok Hfuel Hfirst.
  apply updateTemplate_ok in Hfirst
    as [(r & h' & Hlast & Htpl & -> & Hre & ->)|(ns & Hns & _ & Happ)].
  - exists r. split; [exact Hlast|]. split; [exact Htpl|]. split; [reflexivity|].
    destruct Hok as (Hp & Hmok & Halloc & Hheld).
    pose proof (Hheld r Hlast) as Hops.
    pose proof (Halloc _ Hops) as Hrid. simpl in Hrid.
    unfold morph_ok in Hmok. rewrite Hops in Hmok.
    destruct Hmok as (Hpar & pre & mid & post & Hcov).
    destruct (Hinplace r (heap w) h' pre mid post Hre Hwf Hrid Hcov)
      as (Hwf' & Hnn & Hnr & Hsame & pre' & mid' & post' & Hcov').
    simpl. split; [exact Hwf'|].
    split; [lia|]. split; [|split].
    + unfold morph_ok. rewrite Hops. split.
      * simpl in *. congruence.
      * now exists pre', mid', post'.
    + intros b Hb. rewrite Hops in Hb. injection Hb as <-. simpl. lia.
    + exact Hheld.
  - destruct Hok as (Hp & Hmok & Halloc & Hheld).
    destruct (region_exists _ _ Hwf Hmok) as (pre & old & post & Hreg).
    rewrite (region_anchor _ _ _ _ _ Hreg) in Hns. injection Hns as <-.
    destruct (appendTemplate_spec fuel tm t w pre old post Hrenders Hwf
                (conj Hp (conj Hmok (conj Halloc Hheld))) Hreg)
      as (r & nodes & w' & Hrun & Htpl & Hwf' & _ & _ & Hok' & _).
    { pose proof (region_length _ _ _ _ _ Hreg). lia. }
    simpl in Hrun, Hok'. rewrite Hrun in Happ. injection Happ as <- <-.
    exists r. split; [reflexivity|]. split; [exact Htpl|].
    split; [reflexivity|]. split; [exact Hwf'|exact Hok'].
Qed.

(** [didBecomeEmpty] keeps a consistent morph consistent. *)
Lemma didBecomeEmpty_preserves fuel tm w tm1 w1 :
  DOM.wf (dom (heap w)) ->
  template_morph_ok tm (heap w) ->
  length (DOM.childNodes (dom (heap w)) (parentNode (super tm))) <= fuel ->
  TemplateMorph.didBecomeEmpty fuel tm w = Ok tm1 w1 ->
  lastResult tm1 = None /\
  DOM.wf (dom (heap w1)) /\ template_morph_ok tm1 (heap w1).
Proof.
  intros Hwf (Hp & Hmok & _ & _) Hfuel Hrun.
  destruct (didBecomeEmpty_spec fuel (super tm) w Hwf Hmok Hfuel)
    as (c & d1 & Hempty & Hwf1 & Hpar1 & Hdata1 & Hlow & _).
  unfold TemplateMorph.didBecomeEmpty in Hrun.
  rewrite (bind_ok _ _ _ _ _ Hempty) in Hrun. injection Hrun as <- <-.
  split; [reflexivity|]. split; [exact Hwf1|].
  split; [simpl; lia|]. split; [now split|]. split; discriminate.
Qed.

(** C7.  Let the engine keep its contract, and let [updateTemplate(t1)]
    return normally on a morph in a consistent state.  The morph then holds
    the result [r1] of [t1], spanning the run [mid] of the parent's children
    [pre ++ mid ++ post].  A following [updateTemplate(t2)] with another
    template returns normally: it evaluates [t2] once, anchored at the first
    node of [mid]; afterwards the morph holds the result [r2] of [t2], the
    parent's children are [pre ++ nodes ++ post] with [nodes] the nodes of
    [r2], and every node of [mid] is out of the tree. *)
Theorem updateTemplate_switch_replaces_content `{E : Engine}
    fuel1 fuel2 tm w t1 t2 tm1 w1 :
  evaluate_renders E -> rerender_in_place E ->
  DOM.wf (dom (heap w)) ->
  template_morph_ok tm (heap w) ->
  t2 <> t1 ->
  length (DOM.childNodes (dom (heap w)) (parentNode (super tm))) <= fuel1 ->
  TemplateMorph.updateTemplate fuel1 tm t1 w = Ok tm1 w1 ->
  length (DOM.childNodes (dom (heap w1)) (parentNode (super tm))) <= fuel2 ->
  exists r1 pre mid post,
    lastResult tm1 = Some r1 /\ template r1 = t1 /\
    covers (ResultBounds r1) (heap w1) pre mid post /\
    exists r2 nodes tm2 w2,
      TemplateMorph.updateTemplate fuel2 tm1 t2 w1 = Ok tm2 w2 /\
      lastResult tm2 = Some r2 /\ template r2 = t2 /\
      currentOperations (super tm2) = HasContent (ResultBounds r2) /\
      covers (ResultBounds r2) (heap w2) pre nodes post /\
      DOM.childNodes (dom (heap w2)) (parentNode (super tm)) = pre ++ nodes ++ post /\
      (forall n, In n mid ->
         DOM.parentNode (dom (heap w2)) n = None /\ ~ In n nodes) /\
      trace w2 = trace w1 ++ [EvEvaluate t2 (hd_error mid)].
Proof.
  intros Hrenders Hinplace Hwf Hok Hne Hfuel1 Hfirst Hfuel2.
  pose proof (updateTemplate_preserves fuel1 tm t1 w tm1 w1
                Hrenders Hinplace Hwf Hok Hfuel1 Hfirst) as Hstate.
  destruct Hstate as (r1 & Hlast1 & Htpl1 & Hpar1 & Hwf1 & Hok1).
  pose proof Hok1 as (Hp1 & Hmok1 & Halloc1 & Hheld1).
  pose proof (Hheld1 r1 Hlast1) as Hops1.
  assert (Hreg1 : exists pre mid post,
            region (super tm1) (heap w1) pre mid post /\
            covers (ResultBounds r1) (heap w1) pre mid post).
  { unfold morph_ok in Hmok1. rewrite Hops1 in Hmok1.
    destruct Hmok1 as (Hpar & pre & mid & post & Hcov).
    exists pre, mid, post. split; [|exact Hcov].
    unfold region. rewrite Hops1. split; [|now split].
    destruct Hcov as (_ & _ & _ & Hc). now rewrite <- Hpar. }
  destruct Hreg1 as (pre & mid & post & Hreg1 & Hcov1).
  exists r1, pre, mid, post.
  split; [exact Hlast1|]. split; [exact Htpl1|]. split; [exact Hcov1|].
  destruct (appendTemplate_spec fuel2 tm1 t2 w1 pre mid post Hrenders Hwf1 Hok1 Hreg1)
    as (r2 & nodes & w2 & Hrun & Htpl2 & Hwf2 & Hcov2 & Hgone & Hok2 & Htrace).
  { pose proof (region_length _ _ _ _ _ Hreg1). rewrite Hpar1 in *. lia. }
  simpl in Hrun.
  assert (Hhd : hd_error (mid ++ post) = hd_error mid).
  { destruct Hcov1 as (Hmid & _). destruct mid; [congruence|reflexivity]. }
  rewrite Hhd in Hrun, Htrace.
  assert (Hc2 : DOM.childNodes (dom (heap w2)) (parentNode (super tm))
                = pre ++ nodes ++ post).
  { destruct Hok2 as (_ & Hmok2 & _). unfold morph_ok in Hmok2. simpl in Hmok2.
    destruct Hmok2 as [Hpar2 _]. destruct Hcov2 as (_ & _ & _ & Hc).
    simpl in Hc. rewrite Hpar2, Hpar1 in Hc. exact Hc. }
  exists r2, nodes,
    (mkTemplateMorph (set_currentOperations (super tm1) (HasContent (ResultBounds r2)))
                     (Some r2)), w2.
  split; [|split; [reflexivity|split; [exact Htpl2|split; [reflexivity|
           split; [exact Hcov2|split; [exact Hc2|split; [|exact Htrace]]]]]]].
  - unfold TemplateMorph.updateTemplate. rewrite Hlast1.
    assert (Hneq : Nat.eqb t2 (template r1) = false).
    { apply Nat.eqb_neq. congruence. }
    rewrite Hneq.
    assert (Hns : EmptyableMorph.nextSiblingForContent (super tm1) w1
                  = Ok (hd_error mid) w1).
    { rewrite (region_anchor _ _ _ _ _ Hreg1). now rewrite Hhd. }
    rewrite (bind_ok _ _ _ _ _ Hns). exact Hrun.
  - intros n Hn. pose proof (Hgone n Hn) as Horphan. split; [exact Horphan|].
    intros Hin.
    assert (Hchild : In n (DOM.childNodes (dom (heap w2)) (parentNode (super tm)))).
    { rewrite Hc2. apply in_or_app. right. apply in_or_app. now left. }
    apply (DOM.wf_links Hwf2) in Hchild. congruence.
Qed.

(** ** The reference engine keeps the contract *)

Lemma render_nodes_S k p ns d :
  render_nodes (S k) p ns d =
  match DOM.insertBefore p (DOM.nextNode d) ns (snd (DOM.createNode d)) with
  | inl _ => None
  | inr d2 =>
      match render_nodes k p ns d2 with
      | None => None
      | Some (nodes, d3) => Some (DOM.nextNode d :: nodes, d3)
      end
  end.
Proof. reflexivity. Qed.

Lemma render_nodes_spec p post :
  forall k d pre,
    DOM.wf d -> p < DOM.nextNode d ->
    DOM.childNodes d p = pre ++ post ->
    exists nodes d',
      render_nodes k p (hd_error post) d = Some (nodes, d') /\
      length nodes = k /\ DOM.wf d' /\
      DOM.childNodes d' p = pre ++ nodes ++ post /\
      (forall q, q < DOM.nextNode d -> q <> p ->
         DOM.childNodes d' q = DOM.childNodes d q) /\
      (forall n, n < DOM.nextNode d -> DOM.parentNode d' n = DOM.parentNode d n) /\
      DOM.nextNode d <= DOM.nextNode d'.
Proof.
  induction k as [|k IH]; intros d pre Hwf Hp Hc.
  - exists [], d. simpl.
    split; [reflexivity|]. split; [reflexivity|]. split; [exact Hwf|].
    split; [exact Hc|]. split; [reflexivity|]. split; [reflexivity|apply le_n].
  - destruct (DOMFacts.createNode_spec d Hwf)
      as (_ & Hwf1 & Hpar1 & Hnext1 & Hlinks1 & Hkids1).
    set (n := DOM.nextNode d) in *.
    set (d1 := snd (DOM.createNode d)) in *.
    assert (Hn1 : n < DOM.nextNode d1) by (rewrite Hnext1; lia).
    assert (Hp1 : p < DOM.nextNode d1) by (rewrite Hnext1; lia).
    assert (Hc1 : DOM.childNodes d1 p = pre ++ post) by (now rewrite Hkids1).
    assert (Hout : DOM.contains (DOM.nextNode d1) d1 n p = false).
    { apply (DOMFacts.contains_childless _ _ _ _ Hwf1); [|unfold n; lia].
      rewrite Hkids1. apply (DOM.wf_fresh Hwf). apply le_n. }
    destruct (DOMFacts.insertBefore_orphan d1 p n pre post Hwf1 Hpar1 Hn1 Hp1 Hout Hc1)
      as (d2 & Hins & Hwf2 & Hc2 & Hf2 & Hn2 & _).
    destruct (insertBefore_links _ _ _ _ _ Hpar1 Hins) as [_ Hlinks2].
    assert (Hp2 : p < DOM.nextNode d2) by (rewrite Hn2; exact Hp1).
    assert (Hc2' : DOM.childNodes d2 p = (pre ++ [n]) ++ post).
    { rewrite Hc2, <- app_assoc. reflexivity. }
    destruct (IH d2 (pre ++ [n]) Hwf2 Hp2 Hc2')
      as (nodes & d3 & Hrun & Hlen & Hwf3 & Hc3 & Hf3 & Hl3 & Hn3).
    exists (n :: nodes), d3.
    split; [|split; [|split; [|split; [|split; [|split]]]]].
    + rewrite render_nodes_S. fold n d1. rewrite Hins, Hrun. reflexivity.
    + simpl. now rewrite Hlen.
    + exact Hwf3.
    + rewrite Hc3, <- app_assoc. reflexivity.
    + intros q Hq Hqp. rewrite Hf3; [|rewrite Hn2, Hnext1; lia|exact Hqp].
      rewrite Hf2 by exact Hqp. apply Hkids1.
    + intros m Hm. rewrite Hl3 by (rewrite Hn2, Hnext1; lia).
      rewrite Hlinks2 by (unfold n; lia). apply Hlinks1.
    + rewrite Hn2, Hnext1 in Hn3. lia.
Qed.

Lemma sizedEngine_names_template size : evaluate_names_template (sizedEngine size).
Proof.
  intros t p ns h r h'. simpl.
  destruct (DOM.insertBefore _ _ _ _) as [e|d2]; [discriminate|].
  destruct (render_nodes _ _ _ _) as [[nodes d3]|]; [|discriminate].
  now intros [= <- _].
Qed.

Lemma sizedEngine_renders size : evaluate_renders (sizedEngine size).
Proof.
  intros t p h pre post Hwf Hp Hc.
  destruct (render_nodes_spec p post (S (size t)) (dom h) pre Hwf Hp Hc)
    as (nodes & d' & Hrun & Hlen & Hwf' & Hc' & Hf' & Hl' & Hn').
  exists (mkResult (nextResult h) t), nodes,
    (mkHeap d' (upd (extents h) (nextResult h)
                    (mkExtent p (hd_error nodes) (last_error nodes)))
            (S (nextResult h))).
  split.
  - unfold evaluate, sizedEngine. now rewrite Hrun.
  - constructor; simpl; auto.
    + intros ->. discriminate.
    + apply upd_eq.
    + intros i Hi. apply upd_neq. lia.
Qed.

Lemma sizedEngine_in_place size : rerender_in_place (sizedEngine size).
Proof.
  intros r h h' pre mid post Hre Hwf Hrid Hcov.
  simpl in Hre. injection Hre as <-.
  split; [exact Hwf|]. split; [apply le_n|]. split; [apply le_n|].
  split; [reflexivity|]. now exists pre, mid, post.
Qed.

(** ** The claims on [TemplateMorph] at the sample world *)

Lemma first_update_ok : first_update = Ok morph_after_first world_after_first.
Proof. vm_compute. reflexivity. Qed.

Lemma first_empty_ok : first_empty = Ok morph_after_empty world_after_empty.
Proof. vm_compute. reflexivity. Qed.

Lemma new_morph_ok : template_morph_ok (TemplateMorph.new 0) (heap sample_world).
Proof.
  split; [simpl; lia|]. split; [unfold morph_ok; simpl; lia|].
  split; discriminate.
Qed.

Lemma second_empty_ok : second_empty = Ok morph_after_second world_after_second.
Proof. vm_compute. reflexivity. Qed.

Lemma morph_after_first_ok : template_morph_ok morph_after_first (heap world_after_first).
Proof.
  destruct (updateTemplate_preserves 4 (TemplateMorph.new 0) 1 sample_world
              morph_after_first world_after_first
              (sizedEngine_renders (fun t => t)) (sizedEngine_in_place (fun t => t))
              sample_dom_wf new_morph_ok) as (r & _ & _ & _ & _ & Hok).
  - vm_compute. lia.
  - exact first_update_ok.
  - exact Hok.
Qed.

Lemma world_after_first_wf : DOM.wf (dom (heap world_after_first)).
Proof.
  destruct (updateTemplate_preserves 4 (TemplateMorph.new 0) 1 sample_world
              morph_after_first world_after_first
              (sizedEngine_renders (fun t => t)) (sizedEngine_in_place (fun t => t))
              sample_dom_wf new_morph_ok) as (r & _ & _ & _ & Hwf & _).
  - vm_compute. lia.
  - exact first_update_ok.
  - exact Hwf.
Qed.


Lemma updateTemplate_same_template_only_rerenders_witness :
  evaluate_names_template sample_engine /\
  @TemplateMorph.updateTemplate sample_engine 4 (TemplateMorph.new 0) 1 sample_world
  = Ok morph_after_first world_after_first /\
  exists r,
    lastResult morph_after_first = Some r /\ template r = 1 /\
    @TemplateMorph.updateTemplate sample_engine 0 morph_after_first 1 world_after_first
    = (@result_rerender sample_engine r ;;; ret morph_after_first) world_after_first /\
    forall tm2 w2,
      @TemplateMorph.updateTemplate sample_engine 0 morph_after_first 1 world_after_first
      = Ok tm2 w2 ->
      tm2 = morph_after_first /\
      trace w2 = trace world_after_first ++ [EvRerender r].
Proof.
  split; [exact (sizedEngine_names_template (fun t => t))|].
  split; [exact first_update_ok|].
  exact (@updateTemplate_same_template_only_rerenders sample_engine 4 0
           (TemplateMorph.new 0) 1 sample_world morph_after_first world_after_first
           (sizedEngine_names_template (fun t => t)) first_update_ok).
Defined.

Lemma updateTemplate_switch_replaces_content_witness :
  evaluate_renders sample_engine /\ rerender_in_place sample_engine /\
  DOM.wf (dom (heap sample_world)) /\
  template_morph_ok (TemplateMorph.new 0) (heap sample_world) /\
  2 <> 1 /\
  length (DOM.childNodes (dom (heap sample_world)) 0) <= 4 /\
  @TemplateMorph.updateTemplate sample_engine 4 (TemplateMorph.new 0) 1 sample_world
  = Ok morph_after_first world_after_first /\
  length (DOM.childNodes (dom (heap world_after_first)) 0) <= 6 /\
  exists r1 pre mid post,
    lastResult morph_after_first = Some r1 /\ template r1 = 1 /\
    covers (ResultBounds r1) (heap world_after_first) pre mid post /\
    exists r2 nodes tm2 w2,
      @TemplateMorph.updateTemplate sample_engine 6 morph_after_first 2 world_after_first
      = Ok tm2 w2 /\
      lastResult tm2 = Some r2 /\ template r2 = 2 /\
      currentOperations (super tm2) = HasContent (ResultBounds r2) /\
      covers (ResultBounds r2) (heap w2) pre nodes post /\
      DOM.childNodes (dom (heap w2)) 0 = pre ++ nodes ++ post /\
      (forall n, In n mid ->
         DOM.parentNode (dom (heap w2)) n = None /\ ~ In n nodes) /\
      trace w2 = trace world_after_first ++ [EvEvaluate 2 (hd_error mid)].
Proof.
  assert (Hneq : 2 <> 1) by discriminate.
  assert (Hlen1 : length (DOM.childNodes (dom (heap sample_world)) 0) <= 4)
    by (vm_compute; lia).
  assert (Hlen2 : length (DOM.childNodes (dom (heap world_after_first)) 0) <= 6)
    by (vm_compute; lia).
  split; [exact (sizedEngine_renders (fun t => t))|].
  split; [exact (sizedEngine_in_place (fun t => t))|].
  split; [exact sample_dom_wf|]. split; [exact new_morph_ok|].
  split; [exact Hneq|]. split; [exact Hlen1|].
  split; [exact first_update_ok|]. split; [exact Hlen2|].
  exact (@updateTemplate_switch_replaces_content sample_engine 4 6
           (TemplateMorph.new 0) sample_world 1 2 morph_after_first world_after_first
           (sizedEngine_renders (fun t => t)) (sizedEngine_in_place (fun t => t))
           sample_dom_wf new_morph_ok Hneq Hlen1 first_update_ok Hlen2).
Defined.


(** ** [insertBoundsBefore] *)

(** C3 fails on the code for bounds of two nodes.  Element 0 has the
    children 1, 2, 3, 4 and the bounds span 1 and 2; with a null reference
    the bounds should end up, in order, at the end of the parent, which
    would make the children 3, 4, 1, 2.  The loop moves node 1 to the end
    and then reads [current.nextSibling] of the moved node, which is null:
    the loop stops, node 2 has not moved, and the children are 2, 3, 4, 1. *)
Theorem insertBoundsBefore_moves_only_the_first_node :
  covers (bounds 0 (Some 1) (Some 2)) (heap sample_world) [] [1; 2] [3; 4] /\
  match insertBoundsBefore 4 0 (bounds 0 (Some 1) (Some 2)) None sample_world with
  | Ok _ w' =>
      DOM.childNodes (dom (heap w')) 0 = [2; 3; 4; 1] /\
      DOM.childNodes (dom (heap w')) 0 <> [3; 4; 1; 2]
  | Throw _ => False
  | OutOfFuel => False
  end.
Proof.
  split.
  - repeat split. discriminate.
  - vm_compute. split; [reflexivity|discriminate].
Qed.

Lemma insertBefore_to_end d p x pre post :
  DOM.wf d -> DOM.childNodes d p = pre ++ x :: post ->
  exists d',
    DOM.insertBefore p x None d = inr d' /\
    DOM.childNodes d' p = pre ++ post ++ [x] /\
    DOM.nextSibling d' x = None /\
    (forall q, q <> p -> DOM.childNodes d' q = DOM.childNodes d q).
Proof.
  intros Hwf Hc.
  assert (Hp : DOM.parentNode d x = Some p).
  { apply (DOM.wf_links Hwf). rewrite Hc. apply in_elt. }
  pose proof (DOM.wf_nodup Hwf p) as Hnd. rewrite Hc in Hnd.
  apply nodup_split_notin in Hnd as [Hpre Hpost].
  assert (Hkids : remove_node x (DOM.childNodes d p) ++ [x] = (pre ++ post) ++ [x]).
  { rewrite Hc, remove_node_split by assumption. reflexivity. }
  unfold DOM.insertBefore. rewrite (DOMFacts.contains_child _ _ _ _ Hwf Hp).
  simpl. rewrite (DOMFacts.detach_child _ _ _ Hp). simpl.
  eexists. split; [reflexivity|]. simpl.
  split; [|split].
  - rewrite !upd_eq, Hkids. now rewrite <- app_assoc.
  - unfold DOM.nextSibling. simpl. rewrite !upd_eq, Hkids.
    apply next_after_split. rewrite in_app_iff. tauto.
  - intros q Hq. now rewrite !upd_neq.
Qed.

Lemma insertBounds_loop_step fuel p last ns c w d' :
  DOM.insertBefore p c ns (dom (heap w)) = inr d' ->
  insertBounds_loop (S fuel) p last ns (Some c) w =
  if eqb_onode (Some c) last
  then Ok tt (set_dom w d')
  else insertBounds_loop fuel p last ns (DOM.nextSibling d' c) (set_dom w d').
Proof.
  intros H. simpl. unfold bind, DOMHelper.insertBefore, Node.nextSibling.
  rewrite H. destruct last as [y|]; simpl; [destruct (Nat.eqb c y)|]; reflexivity.
Qed.

(** With a null reference and bounds under the target parent,
    [insertBoundsBefore] moves the first node of the bounds to the end of
    the parent and stops there: the other nodes of the bounds stay where
    they are.  For bounds of one node this is the relocation asked for. *)
Lemma insertBoundsBefore_null_reference fuel b w pre x rest post :
  DOM.wf (dom (heap w)) ->
  covers b (heap w) pre (x :: rest) post ->
  0 < fuel ->
  exists d',
    insertBoundsBefore fuel (eparent (extent_of b (heap w))) b None w
    = Ok tt (set_dom w d') /\
    DOM.childNodes d' (eparent (extent_of b (heap w))) = pre ++ rest ++ post ++ [x].
Proof.
  intros Hwf (_ & Hf & Hl & Hc) Hfuel.
  set (p := eparent (extent_of b (heap w))) in *.
  destruct fuel as [|fuel]; [lia|].
  destruct (insertBefore_to_end (dom (heap w)) p x pre (rest ++ post) Hwf Hc)
    as (d' & Hins & Hc' & Hnext & _).
  exists d'. split; [|now rewrite Hc', <- app_assoc].
  unfold insertBoundsBefore.
  rewrite (bind_ok _ _ _ _ _ (firstNode_eq b w)).
  rewrite (bind_ok _ _ _ _ _ (lastNode_eq b w)).
  rewrite Hf, Hl. unfold ret at 1. unfold bind at 1. simpl hd_error.
  rewrite (insertBounds_loop_step _ _ _ _ _ _ _ Hins), Hnext.
  destruct (eqb_onode (Some x) (last_error (x :: rest))); [reflexivity|].
  now destruct fuel.
Qed.

(** ** The scenario of the specification *)

(** A morph under element 0, whose children are 1, 2, 3, 4, is told that
    its content is the bounds over 2 and 3, and then that it became empty:
    it first answers 2 and 3 as its first and last node, and ends in the
    Empty state with the new comment 8 between 1 and 4. *)
Lemma content_then_empty_scenario :
  match EmptyableMorph.didInsertContent 2 (EmptyableMorph.new 0) sample_bounds
          sample_world with
  | Ok m1 w1 =>
      currentOperations m1 = HasContent sample_bounds /\
      EmptyableMorph.firstNode m1 w1 = Ok (Some 2) w1 /\
      EmptyableMorph.lastNode m1 w1 = Ok (Some 3) w1 /\
      match EmptyableMorph.didBecomeEmpty 2 m1 w1 with
      | Ok m2 w2 =>
          currentOperations m2 = Empty 8 /\
          DOM.childNodes (dom (heap w2)) 0 = [1; 8; 4] /\
          DOM.commentData (dom (heap w2)) 8 = Some String.EmptyString
      | Throw _ => False
      | OutOfFuel => False
      end
  | Throw _ => False
  | OutOfFuel => False
  end.
Proof. vm_compute. repeat split. Qed.

(** ** Well-formed bounds, both ways *)

(** The last node of bounds that span a run of children is met on the walk
    from their first node: spanning a run and being reachable along
    [nextSibling] are the same condition. *)
Lemma covers_reaches b h pre mid post f l :
  DOM.wf (dom h) -> covers b h pre mid post ->
  efirst (extent_of b h) = Some f -> elast (extent_of b h) = Some l ->
  DOM.parentNode (dom h) f = Some (eparent (extent_of b h)) /\
  reaches (dom h) f l.
Proof.
  intros Hwf (Hne & Hf & Hl & Hc) Hfirst Hlast.
  destruct mid as [|x rest]; [congruence|].
  rewrite Hf in Hfirst. injection Hfirst as ->.
  rewrite Hl in Hlast. apply last_error_in in Hlast.
  split.
  - apply (DOM.wf_links Hwf). rewrite Hc. apply in_or_app. right. now left.
  - apply (reaches_listed _ _ _ Hwf (rest ++ post) pre f Hc).
    destruct Hlast as [->|Hin]; [now left|right].
    apply in_or_app. now left.
Qed.

(** * Further properties of the range algorithms *)

(** ** What [clear] leaves alone *)

Lemma removeChild_inv p n d d' :
  DOM.removeChild p n d = Some d' ->
  DOM.parentNode d n = Some p /\ d' = DOM.detach n d.
Proof.
  unfold DOM.removeChild. destruct (DOM.parentNode d n) as [q|]; [|discriminate].
  destruct (Nat.eqb_spec q p) as [->|]; [|discriminate].
  intros [= <-]. now split.
Qed.

Lemma only_unlinks_refl p d : only_unlinks p d d.
Proof. split; [apply dom_frame_refl|]. split; [auto|]. intros n. now left. Qed.

Lemma only_unlinks_trans p d1 d2 d3 :
  only_unlinks p d1 d2 -> only_unlinks p d2 d3 -> only_unlinks p d1 d3.
Proof.
  intros (F1 & S1 & L1) (F2 & S2 & L2).
  split; [now apply dom_frame_trans with (d2 := d2)|]. split; [auto|].
  intros n. destruct (L2 n) as [E2|[A2 B2]]; destruct (L1 n) as [E1|[A1 B1]].
  - left. congruence.
  - right. split; congruence.
  - right. split; congruence.
  - congruence.
Qed.

Lemma detach_only_unlinks d p n :
  DOM.parentNode d n = Some p -> only_unlinks p d (DOM.detach n d).
Proof.
  intros Hp. rewrite (DOMFacts.detach_child _ _ _ Hp).
  split; [|split]; simpl.
  - split; [|now split]. intros q Hq. simpl. now apply upd_neq.
  - intros m. rewrite upd_eq, remove_node_in. tauto.
  - intros m. unfold upd. destruct (Nat.eqb_spec m n) as [->|]; [right|left]; auto.
Qed.

Lemma clear_loop_only_unlinks p last :
  forall fuel node w r w',
    clear_loop fuel p last node w = Ok r w' ->
    exists d', w' = set_dom w d' /\ only_unlinks p (dom (heap w)) d'.
Proof.
  induction fuel as [|fuel IH]; intros [n|] w r w' Hrun;
    try (simpl in Hrun; discriminate);
    try (simpl in Hrun; injection Hrun as <- <-; exists (dom (heap w));
         rewrite set_dom_same; split; [reflexivity|apply only_unlinks_refl]).
  destruct (DOM.removeChild p n (dom (heap w))) as [d1|] eqn:Hrm.
  2:{ simpl in Hrun. unfold bind, Node.nextSibling, Node.removeChild in Hrun.
      rewrite Hrm in Hrun. discriminate. }
  rewrite (clear_loop_step _ _ _ _ _ _ Hrm) in Hrun.
  apply removeChild_inv in Hrm as [Hp ->].
  pose proof (detach_only_unlinks _ _ _ Hp) as Hstep.
  destruct (eqb_onode (Some n) last).
  - injection Hrun as <- <-. eexists. split; [reflexivity|exact Hstep].
  - apply IH in Hrun as (d' & -> & Hrest).
    exists d'. split; [reflexivity|].
    now apply only_unlinks_trans with (d2 := DOM.detach n (dom (heap w))).
Qed.

(** X1.  Whatever the bounds, well formed or not, a [clear] that returns
    normally has touched nothing but the child list of the bounds' parent:
    the extents of the results and the record of engine calls are the same,
    no node has been created, every other element has the children it had,
    the parent has no child it did not have, and the only parent links that
    changed are links to that parent, now null. *)
Theorem clear_touches_only_its_parent fuel b w r w' :
  clear fuel b w = Ok r w' ->
  exists d',
    w' = set_dom w d' /\
    only_unlinks (eparent (extent_of b (heap w))) (dom (heap w)) d'.
Proof.
  unfold clear.
  rewrite (bind_ok _ _ _ _ _ (parentElement_eq b w)).
  rewrite (bind_ok _ _ _ _ _ (firstNode_eq b w)).
  rewrite (bind_ok _ _ _ _ _ (lastNode_eq b w)).
  apply clear_loop_only_unlinks.
Qed.

Lemma sample_clear_ok : sample_clear = Ok (Some 4) world_after_clear.
Proof. vm_compute. reflexivity. Qed.

Lemma clear_touches_only_its_parent_witness :
  clear 2 sample_bounds sample_world = Ok (Some 4) world_after_clear /\
  exists d',
    world_after_clear = set_dom sample_world d' /\
    only_unlinks 0 (dom (heap sample_world)) d'.
Proof.
  split; [exact sample_clear_ok|].
  exact (clear_touches_only_its_parent 2 sample_bounds sample_world (Some 4)
           world_after_clear sample_clear_ok).
Defined.

(** ** [clear] terminates *)

Lemma remove_node_shorter n l :
  In n l -> length (remove_node n l) < length l.
Proof.
  induction l as [|x t IH]; simpl; [tauto|]. intros Hin.
  destruct (Nat.eqb_spec x n) as [->|Hne]; simpl.
  - apply Nat.lt_succ_r. apply filter_length_le.
  - destruct Hin as [->|Hin]; [congruence|]. apply IH in Hin.
    apply -> Nat.succ_lt_mono. exact Hin.
Qed.

Lemma remove_node_length_le n (l : list Node) :
  length (remove_node n l) <= length l.
Proof. apply filter_length_le. Qed.

Lemma clear_loop_terminates p last :
  forall fuel node w,
    DOM.wf (dom (heap w)) ->
    length (DOM.childNodes (dom (heap w)) p) < fuel ->
    clear_loop fuel p last node w <> OutOfFuel.
Proof.
  induction fuel as [|fuel IH]; intros node w Hwf Hlen; [lia|].
  destruct node as [n|]; [|discriminate].
  destruct (DOM.removeChild p n (dom (heap w))) as [d1|] eqn:Hrm.
  - rewrite (clear_loop_step _ _ _ _ _ _ Hrm).
    destruct (eqb_onode (Some n) last); [discriminate|].
    apply removeChild_inv in Hrm as [Hp ->].
    apply IH.
    + simpl. now apply DOMFacts.detach_wf.
    + simpl. rewrite (DOMFacts.detach_child _ _ _ Hp). simpl. rewrite upd_eq.
      apply (DOM.wf_links Hwf) in Hp. apply remove_node_shorter in Hp. lia.
  - simpl. unfold bind, Node.nextSibling, Node.removeChild. rewrite Hrm.
    discriminate.
Qed.

(** X2.  On a consistent DOM the loop of [clear] always stops, also for
    malformed bounds: every iteration that does not throw removes a child
    of the parent, so with more iterations allowed than the parent has
    children the call returns or throws. *)
Theorem clear_terminates fuel b w :
  DOM.wf (dom (heap w)) ->
  length (DOM.childNodes (dom (heap w)) (eparent (extent_of b (heap w)))) < fuel ->
  clear fuel b w <> OutOfFuel.
Proof.
  intros Hwf Hlen. unfold clear.
  rewrite (bind_ok _ _ _ _ _ (parentElement_eq b w)).
  rewrite (bind_ok _ _ _ _ _ (firstNode_eq b w)).
  rewrite (bind_ok _ _ _ _ _ (lastNode_eq b w)).
  now apply clear_loop_terminates.
Qed.

Lemma clear_terminates_witness :
  DOM.wf (dom (heap sample_world)) /\
  length (DOM.childNodes (dom (heap sample_world)) 0) < 5 /\
  clear 5 stray_bounds sample_world <> OutOfFuel.
Proof.
  assert (Hlen : length (DOM.childNodes (dom (heap sample_world)) 0) < 5)
    by (vm_compute; lia).
  split; [exact sample_dom_wf|]. split; [exact Hlen|].
  exact (clear_terminates 5 stray_bounds sample_world sample_dom_wf Hlen).
Defined.

(** ** Moving a node with [insertBefore] *)

Lemma detach_orphans d x : DOM.parentNode (DOM.detach x d) x = None.
Proof.
  destruct (DOM.parentNode d x) as [q|] eqn:Hp.
  - rewrite (DOMFacts.detach_child _ _ _ Hp). simpl. apply upd_eq.
  - now rewrite (DOMFacts.detach_orphan _ _ Hp).
Qed.

Lemma detach_links d x m :
  m <> x -> DOM.parentNode (DOM.detach x d) m = DOM.parentNode d m.
Proof.
  intros Hm. destruct (DOM.parentNode d x) as [q|] eqn:Hp.
  - rewrite (DOMFacts.detach_child _ _ _ Hp). simpl. now apply upd_neq.
  - now rewrite (DOMFacts.detach_orphan _ _ Hp).
Qed.

Lemma detach_meta d x :
  DOM.nextNode (DOM.detach x d) = DOM.nextNode d /\
  DOM.commentData (DOM.detach x d) = DOM.commentData d.
Proof.
  destruct (DOM.parentNode d x) as [q|] eqn:Hp.
  - rewrite (DOMFacts.detach_child _ _ _ Hp). now split.
  - now rewrite (DOMFacts.detach_orphan _ _ Hp).
Qed.

Lemma detach_children d x q :
  DOM.wf d ->
  DOM.childNodes (DOM.detach x d) q = remove_node x (DOM.childNodes d q).
Proof.
  intros Hwf. destruct (DOM.parentNode d x) as [q'|] eqn:Hp.
  - rewrite (DOMFacts.detach_child _ _ _ Hp). simpl. unfold upd.
    destruct (Nat.eqb_spec q q') as [->|Hq]; [reflexivity|].
    symmetry. apply remove_node_notin. intros Hin.
    apply (DOM.wf_links Hwf) in Hin. congruence.
  - rewrite (DOMFacts.detach_orphan _ _ Hp).
    symmetry. apply remove_node_notin. now apply DOMFacts.orphan_not_child.
Qed.

(** The hierarchy check does not look at the links of the node it asks
    about. *)
Lemma contains_detach fuel d x n :
  DOM.contains fuel (DOM.detach x d) x n = DOM.contains fuel d x n.
Proof.
  revert n. induction fuel as [|fuel IH]; intros n; simpl;
    destruct (Nat.eqb_spec n x) as [->|Hne]; try reflexivity.
  rewrite (detach_links d x n Hne).
  destruct (DOM.parentNode d n) as [q|]; [apply IH|reflexivity].
Qed.

Lemma insertBefore_detach d p x ref :
  ref <> Some x ->
  DOM.insertBefore p x ref d = DOM.insertBefore p x ref (DOM.detach x d).
Proof.
  intros Href. unfold DOM.insertBefore.
  rewrite (proj1 (detach_meta d x)), contains_detach.
  destruct (DOM.contains (DOM.nextNode d) d x p); [reflexivity|].
  assert (Heq : eqb_onode ref (Some x) = false).
  { destruct ref as [r|]; simpl; [|reflexivity].
    apply Nat.eqb_neq. congruence. }
  rewrite Heq.
  assert (Hvalid : match ref with
                   | Some r => match DOM.parentNode (DOM.detach x d) r with
                               | Some q => Nat.eqb q p
                               | None => false
                               end
                   | None => true
                   end
                   = match ref with
                     | Some r => match DOM.parentNode d r with
                                 | Some q => Nat.eqb q p
                                 | None => false
                                 end
                     | None => true
                     end).
  { destruct ref as [r|]; [|reflexivity].
    rewrite detach_links; [reflexivity|congruence]. }
  rewrite Hvalid.
  rewrite (DOMFacts.detach_orphan _ _ (detach_orphans d x)).
  now rewrite (proj1 (detach_meta d x)).
Qed.

(** [insertBefore] of a node that may already be in the tree: the node is
    taken out of where it was and put at the position asked for. *)
Lemma insertBefore_move d p x pre post :
  DOM.wf d -> x < DOM.nextNode d -> p < DOM.nextNode d ->
  DOM.contains (DOM.nextNode d) d x p = false ->
  remove_node x (DOM.childNodes d p) = pre ++ post ->
  exists d',
    DOM.insertBefore p x (hd_error post) d = inr d' /\ DOM.wf d' /\
    DOM.childNodes d' p = pre ++ x :: post /\
    (forall q, q <> p -> DOM.childNodes d' q = remove_node x (DOM.childNodes d q)) /\
    DOM.parentNode d' x = Some p /\
    (forall m, m <> x -> DOM.parentNode d' m = DOM.parentNode d m) /\
    DOM.nextNode d' = DOM.nextNode d /\ DOM.commentData d' = DOM.commentData d.
Proof.
  intros Hwf Hx Hp Hout Hc.
  pose proof (DOMFacts.detach_wf d x Hwf) as Hwf1.
  pose proof (detach_orphans d x) as Horph.
  destruct (detach_meta d x) as [Hn1 Hcd1].
  assert (Hc1 : DOM.childNodes (DOM.detach x d) p = pre ++ post).
  { now rewrite detach_children. }
  assert (Hx1 : x < DOM.nextNode (DOM.detach x d)) by (now rewrite Hn1).
  assert (Hp1 : p < DOM.nextNode (DOM.detach x d)) by (now rewrite Hn1).
  assert (Hout1 : DOM.contains (DOM.nextNode (DOM.detach x d)) (DOM.detach x d) x p
                  = false) by (now rewrite Hn1, contains_detach).
  destruct (DOMFacts.insertBefore_orphan _ p x pre post Hwf1 Horph Hx1 Hp1 Hout1 Hc1)
    as (d' & Hins & Hwf' & Hc' & Hf' & Hn' & Hcd').
  destruct (insertBefore_links _ _ _ _ _ Horph Hins) as [Hpar' Hlinks'].
  exists d'. split; [|split; [exact Hwf'|split; [exact Hc'|split; [|split;
                      [exact Hpar'|split; [|split; congruence]]]]]].
  - rewrite insertBefore_detach; [exact Hins|].
    intros Hhd. apply (DOMFacts.orphan_not_child _ p x Hwf1 Horph).
    rewrite Hc1. destruct post as [|r post]; [discriminate|].
    injection Hhd as ->. apply in_elt.
  - intros q Hq. rewrite (Hf' q Hq). now apply detach_children.
  - intros m Hm. rewrite (Hlinks' m Hm). now apply detach_links.
Qed.

Lemma nextSibling_after_move d' p x pre post :
  DOM.wf d' -> DOM.childNodes d' p = pre ++ x :: post ->
  DOM.nextSibling d' x = hd_error post.
Proof. intros Hwf Hc. exact (DOMFacts.nextSibling_split _ _ _ _ _ Hwf Hc). Qed.

Lemma remove_node_idem x l : remove_node x (remove_node x l) = remove_node x l.
Proof.
  apply remove_node_notin. rewrite remove_node_in. tauto.
Qed.

(** ** [insertBoundsBefore] on bounds of one node *)

(** A node that is the target parent or contains it cannot be inserted. *)
Lemma insertBefore_hierarchy d p x ref :
  DOM.contains (DOM.nextNode d) d x p = true ->
  DOM.insertBefore p x ref d = inl HierarchyRequestError.
Proof. intros H. unfold DOM.insertBefore. now rewrite H. Qed.

Lemma insertBounds_loop_throws fuel p last ns c w e :
  DOM.insertBefore p c ns (dom (heap w)) = inl e ->
  insertBounds_loop (S fuel) p last ns (Some c) w = Throw e.
Proof.
  intros H. simpl. unfold bind, DOMHelper.insertBefore. now rewrite H.
Qed.

(** X3.  Take bounds of a single node [x] (first and last node the same)
    and a reference whose first node is a child of [parent] other than [x],
    or no reference at all.  When [x] neither is [parent] nor contains it,
    [insertBoundsBefore] returns normally after one [insertBefore]: [x] is
    then a child of [parent] with the anchor as its next sibling (the last
    child for a null anchor), and apart from [x] every element has the
    children it had, in the order they had.  When [x] is [parent] or
    contains it, the call throws the HierarchyRequestError of that
    [insertBefore]. *)
Theorem insertBoundsBefore_relocates_a_single_node fuel parent b reference w x :
  DOM.wf (dom (heap w)) ->
  efirst (extent_of b (heap w)) = Some x ->
  elast (extent_of b (heap w)) = Some x ->
  x < DOM.nextNode (dom (heap w)) ->
  parent < DOM.nextNode (dom (heap w)) ->
  reference_anchor reference (heap w) <> Some x ->
  (forall r, reference_anchor reference (heap w) = Some r ->
             DOM.parentNode (dom (heap w)) r = Some parent) ->
  0 < fuel ->
  (DOM.contains (DOM.nextNode (dom (heap w))) (dom (heap w)) x parent = false ->
   exists d',
     insertBoundsBefore fuel parent b reference w = Ok tt (set_dom w d') /\
     DOM.wf d' /\
     DOM.parentNode d' x = Some parent /\
     DOM.nextSibling d' x = reference_anchor reference (heap w) /\
     (forall q, remove_node x (DOM.childNodes d' q)
                = remove_node x (DOM.childNodes (dom (heap w)) q)) /\
     (forall m, m <> x -> DOM.parentNode d' m = DOM.parentNode (dom (heap w)) m)) /\
  (DOM.contains (DOM.nextNode (dom (heap w))) (dom (heap w)) x parent = true ->
   insertBoundsBefore fuel parent b reference w = Throw HierarchyRequestError).
Proof.
  intros Hwf Hf Hl Hx Hp Hne Hanchor Hfuel.
  set (d := dom (heap w)) in *.
  set (ns := reference_anchor reference (heap w)) in *.
  assert (Hns : match reference with
                | Some r => Bounds.firstNode r
                | None => ret None
                end w = Ok ns w).
  { unfold ns, reference_anchor. destruct reference as [rb|]; [|reflexivity].
    apply firstNode_eq. }
  assert (Hrun : insertBoundsBefore fuel parent b reference w
                 = insertBounds_loop fuel parent (Some x) ns (Some x) w).
  { unfold insertBoundsBefore.
    rewrite (bind_ok _ _ _ _ _ (firstNode_eq b w)).
    rewrite (bind_ok _ _ _ _ _ (lastNode_eq b w)).
    rewrite Hf, Hl. now rewrite (bind_ok _ _ _ _ _ Hns). }
  rewrite Hrun. destruct fuel as [|fuel]; [lia|].
  split.
  2:{ intros Hin.
      exact (insertBounds_loop_throws _ _ _ _ _ _ _
               (insertBefore_hierarchy d parent x ns Hin)). }
  intros Hout.
  assert (Hsplit : exists pre post,
             remove_node x (DOM.childNodes d parent) = pre ++ post /\
             hd_error post = ns).
  { destruct ns as [r|] eqn:Hnsr.
    - assert (Hin : In r (remove_node x (DOM.childNodes d parent))).
      { rewrite remove_node_in. split; [|congruence].
        apply (DOM.wf_links Hwf). now apply Hanchor. }
      apply in_split in Hin as (pre & post & Heq).
      now exists pre, (r :: post).
    - exists (remove_node x (DOM.childNodes d parent)), [].
      now rewrite app_nil_r. }
  destruct Hsplit as (pre & post & Hc & Hhd).
  destruct (insertBefore_move d parent x pre post Hwf Hx Hp Hout Hc)
    as (d' & Hins & Hwf' & Hc' & Hoth & Hpar & Hlinks & _ & _).
  rewrite Hhd in Hins.
  exists d'. split; [|split; [exact Hwf'|split; [exact Hpar|split; [|split;
                      [|exact Hlinks]]]]].
  - rewrite (insertBounds_loop_step _ _ _ _ _ _ _ Hins).
    simpl. now rewrite Nat.eqb_refl.
  - rewrite <- Hhd. exact (nextSibling_after_move _ _ _ _ _ Hwf' Hc').
  - intros q. destruct (Nat.eq_dec q parent) as [->|Hq].
    + rewrite Hc', Hc. apply remove_node_split.
      * intros Hin. assert (Hin' : In x (pre ++ post)) by (apply in_or_app; tauto).
        rewrite <- Hc in Hin'. apply remove_node_in in Hin'. tauto.
      * intros Hin. assert (Hin' : In x (pre ++ post)) by (apply in_or_app; tauto).
        rewrite <- Hc in Hin'. apply remove_node_in in Hin'. tauto.
    + rewrite (Hoth q Hq). apply remove_node_idem.
Qed.

Lemma insertBoundsBefore_relocates_a_single_node_witness :
  DOM.wf (dom (heap sample_world)) /\
  4 < DOM.nextNode (dom (heap sample_world)) /\
  0 < DOM.nextNode (dom (heap sample_world)) /\
  1 < DOM.nextNode (dom (heap sample_world)) /\
  reference_anchor (Some reference_bounds) (heap sample_world) <> Some 4 /\
  (forall r, reference_anchor (Some reference_bounds) (heap sample_world) = Some r ->
             DOM.parentNode (dom (heap sample_world)) r = Some 0) /\
  0 < 1 /\
  DOM.contains (DOM.nextNode (dom (heap sample_world))) (dom (heap sample_world)) 4 0
  = false /\
  DOM.contains (DOM.nextNode (dom (heap sample_world))) (dom (heap sample_world)) 0 1
  = true /\
  (exists d',
     insertBoundsBefore 1 0 single_bounds (Some reference_bounds) sample_world
     = Ok tt (set_dom sample_world d') /\
     DOM.wf d' /\
     DOM.parentNode d' 4 = Some 0 /\
     DOM.nextSibling d' 4 = reference_anchor (Some reference_bounds) (heap sample_world) /\
     (forall q, remove_node 4 (DOM.childNodes d' q)
                = remove_node 4 (DOM.childNodes (dom (heap sample_world)) q)) /\
     (forall m, m <> 4 -> DOM.parentNode d' m = DOM.parentNode (dom (heap sample_world)) m)) /\
  insertBoundsBefore 1 1 (SingleNodeBounds 0 (Some 0)) None sample_world
  = Throw HierarchyRequestError.
Proof.
  assert (Hx : 4 < DOM.nextNode (dom (heap sample_world))) by (vm_compute; lia).
  assert (Hp : 0 < DOM.nextNode (dom (heap sample_world))) by (vm_compute; lia).
  assert (Hp1 : 1 < DOM.nextNode (dom (heap sample_world))) by (vm_compute; lia).
  assert (Hne : reference_anchor (Some reference_bounds) (heap sample_world) <> Some 4)
    by discriminate.
  assert (Hanchor : forall r,
             reference_anchor (Some reference_bounds) (heap sample_world) = Some r ->
             DOM.parentNode (dom (heap sample_world)) r = Some 0).
  { intros r [= <-]. reflexivity. }
  assert (Hne0 : reference_anchor None (heap sample_world) <> Some 0) by discriminate.
  assert (Hanchor0 : forall r,
             reference_anchor None (heap sample_world) = Some r ->
             DOM.parentNode (dom (heap sample_world)) r = Some 1).
  { intros r [=]. }
  split; [exact sample_dom_wf|]. split; [exact Hx|]. split; [exact Hp|].
  split; [exact Hp1|].
  split; [exact Hne|]. split; [exact Hanchor|]. split; [apply le_n|].
  split; [reflexivity|]. split; [reflexivity|]. split.
  - exact (proj1 (insertBoundsBefore_relocates_a_single_node 1 0 single_bounds
                    (Some reference_bounds) sample_world 4
                    sample_dom_wf eq_refl eq_refl Hx Hp Hne Hanchor (le_n 1))
                 eq_refl).
  - exact (proj2 (insertBoundsBefore_relocates_a_single_node 1 1
                    (SingleNodeBounds 0 (Some 0)) None sample_world 0
                    sample_dom_wf eq_refl eq_refl Hp Hp1 Hne0 Hanchor0 (le_n 1))
                 eq_refl).
Defined.

(** ** [insertBoundsBefore] with a null reference *)

(** X4.  With a null reference and bounds that span the run [x :: rest] of
    the target parent's children [pre ++ x :: rest ++ post],
    [insertBoundsBefore] returns normally after moving [x] to the end of the
    parent: the node read as [current.nextSibling] after the move is null.
    The children are then [pre ++ rest ++ post ++ [x]]: for bounds of one
    node that is the relocation to the end; for longer bounds the other
    nodes [rest] have stayed where they were. *)
Theorem insertBoundsBefore_null_reference_moves_the_first_node fuel b w pre x rest post :
  DOM.wf (dom (heap w)) ->
  covers b (heap w) pre (x :: rest) post ->
  0 < fuel ->
  exists d',
    insertBoundsBefore fuel (eparent (extent_of b (heap w))) b None w
    = Ok tt (set_dom w d') /\
    DOM.wf d' /\
    DOM.childNodes d' (eparent (extent_of b (heap w))) = pre ++ rest ++ post ++ [x] /\
    (forall q, q <> eparent (extent_of b (heap w)) ->
               DOM.childNodes d' q = DOM.childNodes (dom (heap w)) q).
Proof.
  intros Hwf Hcov Hfuel. pose proof Hcov as (_ & Hf & Hl & Hc).
  set (p := eparent (extent_of b (heap w))) in *.
  assert (Hin : In x (DOM.childNodes (dom (heap w)) p)).
  { rewrite Hc. apply in_or_app. right. now left. }
  pose proof (DOM.wf_nodup Hwf p) as Hnd. rewrite Hc in Hnd.
  apply nodup_split_notin in Hnd as [Hpre Hpost].
  assert (Hrm : remove_node x (DOM.childNodes (dom (heap w)) p)
                = (pre ++ rest ++ post) ++ []).
  { rewrite Hc, app_nil_r. now apply remove_node_split. }
  destruct (insertBefore_move (dom (heap w)) p x (pre ++ rest ++ post) []
              Hwf (allocated_child _ _ _ Hwf Hin) (allocated_parent _ _ _ Hwf Hin)
              (DOMFacts.contains_child _ _ _ _ Hwf (proj1 (DOM.wf_links Hwf p x) Hin))
              Hrm)
    as (d' & Hins & Hwf' & Hc' & Hoth & _).
  simpl hd_error in Hins.
  exists d'. split; [|split; [exact Hwf'|split]].
  - destruct fuel as [|fuel]; [lia|].
    unfold insertBoundsBefore.
    rewrite (bind_ok _ _ _ _ _ (firstNode_eq b w)).
    rewrite (bind_ok _ _ _ _ _ (lastNode_eq b w)).
    rewrite Hf, Hl. unfold ret at 1. unfold bind at 1. simpl hd_error.
    rewrite (insertBounds_loop_step _ _ _ _ _ _ _ Hins).
    rewrite (nextSibling_after_move _ _ _ _ _ Hwf' Hc').
    destruct (eqb_onode (Some x) (last_error (x :: rest))); [reflexivity|].
    now destruct fuel.
  - rewrite Hc', <- !app_assoc. reflexivity.
  - intros q Hq. rewrite (Hoth q Hq). apply remove_node_notin.
    intros Hin'. apply (DOM.wf_links Hwf) in Hin'.
    apply (DOM.wf_links Hwf) in Hin. congruence.
Qed.

Lemma insertBoundsBefore_null_reference_moves_the_first_node_witness :
  DOM.wf (dom (heap sample_world)) /\
  covers sample_bounds (heap sample_world) [1] [2; 3] [4] /\
  0 < 1 /\
  exists d',
    insertBoundsBefore 1 0 sample_bounds None sample_world
    = Ok tt (set_dom sample_world d') /\
    DOM.wf d' /\
    DOM.childNodes d' 0 = [1] ++ [3] ++ [4] ++ [2] /\
    (forall q, q <> 0 -> DOM.childNodes d' q = DOM.childNodes (dom (heap sample_world)) q).
Proof.
  assert (Hcov : covers sample_bounds (heap sample_world) [1] [2; 3] [4]).
  { repeat split. discriminate. }
  split; [exact sample_dom_wf|]. split; [exact Hcov|]. split; [apply le_n|].
  exact (insertBoundsBefore_null_reference_moves_the_first_node 1 sample_bounds
           sample_world [1] 2 [3] [4] sample_dom_wf Hcov (le_n 1)).
Defined.

(** ** [insertBoundsBefore] terminates *)

Lemma nextSibling_is_sibling d p r s :
  DOM.wf d -> DOM.parentNode d r = Some p -> DOM.nextSibling d r = Some s ->
  DOM.parentNode d s = Some p /\ s <> r.
Proof.
  intros Hwf Hp Hnext.
  destruct (child_position _ _ _ Hwf Hp) as (pre & post & Hc).
  rewrite (DOMFacts.nextSibling_split _ _ _ _ _ Hwf Hc) in Hnext.
  destruct post as [|s' post]; [discriminate|]. injection Hnext as ->.
  pose proof (DOM.wf_nodup Hwf p) as Hnd. rewrite Hc in Hnd.
  apply nodup_split_notin in Hnd as [_ Hpost].
  split.
  - apply (DOM.wf_links Hwf). rewrite Hc. apply in_or_app. right. right. now left.
  - intros ->. apply Hpost. now left.
Qed.

(** Inserting a child before itself is inserting it before its next
    sibling. *)
Lemma insertBefore_self d p r :
  DOM.wf d -> DOM.parentNode d r = Some p ->
  DOM.insertBefore p r (Some r) d = DOM.insertBefore p r (DOM.nextSibling d r) d.
Proof.
  intros Hwf Hp. unfold DOM.insertBefore.
  destruct (DOM.contains (DOM.nextNode d) d r p); [reflexivity|].
  rewrite Hp, Nat.eqb_refl.
  simpl eqb_onode. rewrite Nat.eqb_refl.
  destruct (DOM.nextSibling d r) as [s|] eqn:Hnext; [|reflexivity].
  destruct (nextSibling_is_sibling _ _ _ _ Hwf Hp Hnext) as [Hs Hne].
  rewrite Hs, Nat.eqb_refl. simpl eqb_onode.
  apply Nat.eqb_neq in Hne. now rewrite Hne.
Qed.

Lemma insertBefore_invalid d p x r :
  DOM.parentNode d r <> Some p ->
  exists e, DOM.insertBefore p x (Some r) d = inl e.
Proof.
  intros Hr. unfold DOM.insertBefore.
  destruct (DOM.contains (DOM.nextNode d) d x p); [now eexists|].
  destruct (DOM.parentNode d r) as [q|]; [|now eexists].
  destruct (Nat.eqb_spec q p) as [->|]; [congruence|now eexists].
Qed.

Lemma insertBounds_loop_invalid fuel p last c r w :
  DOM.parentNode (dom (heap w)) r <> Some p ->
  insertBounds_loop (S fuel) p last (Some r) (Some c) w <> OutOfFuel.
Proof.
  intros Hr. destruct (insertBefore_invalid _ p c r Hr) as [e He].
  now rewrite (insertBounds_loop_throws _ _ _ _ _ _ _ He).
Qed.

Lemma insertBounds_loop_done fuel p last ns w :
  insertBounds_loop fuel p last ns None w = Ok tt w.
Proof. now destruct fuel. Qed.

(** Once the loop variable is the anchor [r] itself, every other iteration
    takes the node that follows [r] to the front of it: the list of nodes
    after [r] gets shorter. *)
Lemma insertBounds_loop_at_anchor p r last :
  forall B A fuel w,
    DOM.wf (dom (heap w)) ->
    DOM.childNodes (dom (heap w)) p = A ++ r :: B ->
    2 * length B + 1 < fuel ->
    insertBounds_loop fuel p last (Some r) (Some r) w <> OutOfFuel.
Proof.
  induction B as [|s B IH]; intros A fuel w Hwf Hc Hfuel;
    (destruct fuel as [|fuel]; [lia|]);
    assert (Hin : In r (DOM.childNodes (dom (heap w)) p))
      by (rewrite Hc; apply in_elt);
    pose proof (DOM.wf_nodup Hwf p) as Hnd; rewrite Hc in Hnd;
    pose proof (nodup_split_notin _ _ _ Hnd) as [HA HB];
    pose proof (proj1 (DOM.wf_links Hwf p r) Hin) as Hpar;
    pose proof (allocated_child _ _ _ Hwf Hin) as Hr;
    pose proof (allocated_parent _ _ _ Hwf Hin) as Hp;
    pose proof (DOMFacts.contains_child (DOM.nextNode (dom (heap w))) _ _ _ Hwf Hpar)
      as Hout.
  - assert (Hrm : remove_node r (DOM.childNodes (dom (heap w)) p) = A ++ [])
      by (rewrite Hc; now apply remove_node_split).
    destruct (insertBefore_move _ p r A [] Hwf Hr Hp Hout Hrm)
      as (d1 & Hins & Hwf1 & Hc1 & _).
    assert (Hself : DOM.insertBefore p r (Some r) (dom (heap w)) = inr d1).
    { rewrite (insertBefore_self _ _ _ Hwf Hpar).
      now rewrite (DOMFacts.nextSibling_split _ _ _ _ _ Hwf Hc). }
    rewrite (insertBounds_loop_step _ _ _ _ _ _ _ Hself).
    destruct (eqb_onode (Some r) last); [discriminate|].
    rewrite (nextSibling_after_move _ _ _ _ _ Hwf1 Hc1). simpl hd_error.
    now rewrite insertBounds_loop_done.
  - assert (Hrm : remove_node r (DOM.childNodes (dom (heap w)) p) = A ++ s :: B)
      by (rewrite Hc; now apply remove_node_split).
    destruct (insertBefore_move _ p r A (s :: B) Hwf Hr Hp Hout Hrm)
      as (d1 & Hins & Hwf1 & Hc1 & _ & _ & _ & Hn1 & _).
    assert (Hself : DOM.insertBefore p r (Some r) (dom (heap w)) = inr d1).
    { rewrite (insertBefore_self _ _ _ Hwf Hpar).
      now rewrite (DOMFacts.nextSibling_split _ _ _ _ _ Hwf Hc). }
    rewrite (insertBounds_loop_step _ _ _ _ _ _ _ Hself).
    destruct (eqb_onode (Some r) last); [discriminate|].
    rewrite (nextSibling_after_move _ _ _ _ _ Hwf1 Hc1). simpl hd_error.
    destruct fuel as [|fuel]; [simpl in Hfuel; lia|].
    assert (Hs : In s (DOM.childNodes d1 p)).
    { rewrite Hc1. apply in_or_app. right. right. now left. }
    pose proof (DOM.wf_nodup Hwf1 p) as Hnd1.
    assert (Hc1' : DOM.childNodes d1 p = (A ++ [r]) ++ s :: B)
      by (rewrite Hc1, <- app_assoc; reflexivity).
    rewrite Hc1' in Hnd1.
    pose proof (nodup_split_notin _ _ _ Hnd1) as [HA1 HB1].
    assert (Hrm1 : remove_node s (DOM.childNodes d1 p) = A ++ r :: B).
    { rewrite Hc1', remove_node_split by assumption.
      now rewrite <- app_assoc. }
    destruct (insertBefore_move d1 p s A (r :: B) Hwf1
                (allocated_child _ _ _ Hwf1 Hs) (allocated_parent _ _ _ Hwf1 Hs)
                (DOMFacts.contains_child _ _ _ _ Hwf1 (proj1 (DOM.wf_links Hwf1 p s) Hs))
                Hrm1)
      as (d2 & Hins2 & Hwf2 & Hc2 & _).
    simpl hd_error in Hins2.
    assert (Hstep2 : insertBounds_loop (S fuel) p last (Some r) (Some s) (set_dom w d1)
                     = if eqb_onode (Some s) last
                       then Ok tt (set_dom w d2)
                       else insertBounds_loop fuel p last (Some r)
                              (DOM.nextSibling d2 s) (set_dom w d2)).
    { exact (insertBounds_loop_step fuel p last (Some r) s (set_dom w d1) d2 Hins2). }
    rewrite Hstep2.
    destruct (eqb_onode (Some s) last); [discriminate|].
    rewrite (nextSibling_after_move _ _ _ _ _ Hwf2 Hc2). simpl hd_error.
    apply (IH (A ++ [s]) fuel (set_dom w d2)).
    + exact Hwf2.
    + simpl. rewrite Hc2, <- app_assoc. reflexivity.
    + simpl in Hfuel. lia.
Qed.

(** X5.  On a consistent DOM the loop of [insertBoundsBefore] always stops,
    whatever the bounds and the reference: with a null anchor after the
    first move, and with an anchor [r] because every second iteration
    shortens the list of nodes that follow [r].  With more than twice the
    number of the parent's children plus two iterations allowed the call
    returns or throws. *)
Theorem insertBoundsBefore_terminates fuel parent b reference w :
  DOM.wf (dom (heap w)) ->
  (forall c, efirst (extent_of b (heap w)) = Some c -> c < DOM.nextNode (dom (heap w))) ->
  parent < DOM.nextNode (dom (heap w)) ->
  2 * length (DOM.childNodes (dom (heap w)) parent) + 2 < fuel ->
  insertBoundsBefore fuel parent b reference w <> OutOfFuel.
Proof.
  intros Hwf Hfirst Hp Hfuel.
  set (d := dom (heap w)) in *.
  unfold insertBoundsBefore.
  rewrite (bind_ok _ _ _ _ _ (firstNode_eq b w)).
  rewrite (bind_ok _ _ _ _ _ (lastNode_eq b w)).
  assert (Hns : match reference with
                | Some r => Bounds.firstNode r
                | None => ret None
                end w = Ok (reference_anchor reference (heap w)) w).
  { unfold reference_anchor. destruct reference as [rb|]; [|reflexivity].
    apply firstNode_eq. }
  rewrite (bind_ok _ _ _ _ _ Hns).
  destruct (efirst (extent_of b (heap w))) as [c|] eqn:Hc0.
  2:{ now rewrite insertBounds_loop_done. }
  pose proof (Hfirst c eq_refl) as Hc.
  destruct fuel as [|fuel]; [lia|].
  pose proof (remove_node_length_le c (DOM.childNodes d parent)) as Hshort.
  destruct (DOM.contains (DOM.nextNode d) d c parent) eqn:Hout.
  { rewrite (insertBounds_loop_throws _ _ _ _ _ _ _
               (insertBefore_hierarchy d parent c _ Hout)).
    discriminate. }
  destruct (reference_anchor reference (heap w)) as [r|].
  - destruct (Nat.eq_dec c r) as [->|Hcr].
    + destruct (DOM.parentNode d r) as [q|] eqn:Hq.
      * destruct (Nat.eq_dec q parent) as [->|Hqp].
        -- destruct (child_position _ _ _ Hwf Hq) as (A & B & HAB).
           apply (insertBounds_loop_at_anchor parent r _ B A (S fuel) w Hwf HAB).
           fold d in HAB. rewrite HAB, length_app in Hfuel. simpl in Hfuel. lia.
        -- apply insertBounds_loop_invalid. fold d. congruence.
      * apply insertBounds_loop_invalid. fold d. congruence.
    + destruct (DOM.parentNode d r) as [q|] eqn:Hq.
      * destruct (Nat.eq_dec q parent) as [->|Hqp].
        -- assert (Hin : In r (remove_node c (DOM.childNodes d parent))).
           { rewrite remove_node_in. split; [|congruence].
             now apply (DOM.wf_links Hwf). }
           apply in_split in Hin as (A & B & HAB).
           destruct (insertBefore_move d parent c A (r :: B) Hwf Hc Hp Hout HAB)
             as (d1 & Hins & Hwf1 & Hc1 & _).
           simpl hd_error in Hins.
           rewrite (insertBounds_loop_step _ _ _ _ _ _ _ Hins).
           destruct (eqb_onode (Some c) (elast (extent_of b (heap w))));
             [discriminate|].
           rewrite (nextSibling_after_move _ _ _ _ _ Hwf1 Hc1). simpl hd_error.
           apply (insertBounds_loop_at_anchor parent r _ B (A ++ [c]) fuel
                    (set_dom w d1) Hwf1).
           ++ simpl. rewrite Hc1, <- app_assoc. reflexivity.
           ++ rewrite HAB, length_app in Hshort. simpl in Hshort. lia.
        -- apply insertBounds_loop_invalid. fold d. congruence.
      * apply insertBounds_loop_invalid. fold d. congruence.
  - assert (Hrm : remove_node c (DOM.childNodes d parent)
                  = remove_node c (DOM.childNodes d parent) ++ [])
      by (now rewrite app_nil_r).
    destruct (insertBefore_move d parent c _ [] Hwf Hc Hp Hout Hrm)
      as (d1 & Hins & Hwf1 & Hc1 & _).
    simpl hd_error in Hins.
    rewrite (insertBounds_loop_step _ _ _ _ _ _ _ Hins).
    destruct (eqb_onode (Some c) (elast (extent_of b (heap w)))); [discriminate|].
    rewrite (nextSibling_after_move _ _ _ _ _ Hwf1 Hc1). simpl hd_error.
    now rewrite insertBounds_loop_done.
Qed.

Lemma insertBoundsBefore_terminates_witness :
  DOM.wf (dom (heap sample_world)) /\
  (forall c, efirst (extent_of sample_bounds (heap sample_world)) = Some c ->
             c < DOM.nextNode (dom (heap sample_world))) /\
  0 < DOM.nextNode (dom (heap sample_world)) /\
  2 * length (DOM.childNodes (dom (heap sample_world)) 0) + 2 < 11 /\
  insertBoundsBefore 11 0 sample_bounds (Some single_bounds) sample_world <> OutOfFuel.
Proof.
  assert (Hfirst : forall c,
             efirst (extent_of sample_bounds (heap sample_world)) = Some c ->
             c < DOM.nextNode (dom (heap sample_world))).
  { intros c [= <-]. vm_compute. lia. }
  assert (Hp : 0 < DOM.nextNode (dom (heap sample_world))) by (vm_compute; lia).
  assert (Hfuel : 2 * length (DOM.childNodes (dom (heap sample_world)) 0) + 2 < 11)
    by (vm_compute; lia).
  split; [exact sample_dom_wf|]. split; [exact Hfirst|]. split; [exact Hp|].
  split; [exact Hfuel|].
  exact (insertBoundsBefore_terminates 11 0 sample_bounds (Some single_bounds)
           sample_world sample_dom_wf Hfirst Hp Hfuel).
Defined.

(** * Further properties of the morphs *)

(** ** [renderIntoBounds] *)

(** [renderIntoBounds] on well-formed bounds. *)
Lemma renderIntoBounds_spec `{E : Engine} fuel t b w pre mid post :
  evaluate_renders E ->
  DOM.wf (dom (heap w)) ->
  covers b (heap w) pre mid post ->
  length mid <= fuel ->
  exists r nodes w',
    renderIntoBounds fuel t b (eparent (extent_of b (heap w))) w = Ok r w' /\
    template r = t /\
    DOM.wf (dom (heap w')) /\
    covers (ResultBounds r) (heap w') pre nodes post /\
    eparent (extent_of (ResultBounds r) (heap w')) = eparent (extent_of b (heap w)) /\
    (forall n, In n mid -> DOM.parentNode (dom (heap w')) n = None) /\
    (forall n, n < DOM.nextNode (dom (heap w)) -> ~ In n mid ->
       DOM.parentNode (dom (heap w')) n = DOM.parentNode (dom (heap w)) n) /\
    trace w' = trace w ++ [EvEvaluate t (hd_error post)].
Proof.
  intros Hrenders Hwf Hcov Hfuel.
  set (p := eparent (extent_of b (heap w))).
  destruct (clear_covers fuel b w pre mid post Hwf Hcov Hfuel)
    as (d1 & Hclear & Hrr & (_ & Hn1 & _)).
  fold p in Hrr, Hn1.
  destruct Hrr as [Hwf1 Hc1 _ Hrem1 Hkept1 _].
  assert (Hp : p < DOM.nextNode d1).
  { rewrite Hn1. exact (covers_parent_allocated _ _ _ _ _ Hwf Hcov). }
  destruct (Hrenders t p (heap (set_dom w d1)) pre post Hwf1 Hp Hc1)
    as (r & nodes & h' & Heval & Hrd).
  exists r, nodes, (mkWorld h' (trace w ++ [EvEvaluate t (hd_error post)])).
  split; [|split; [exact (rd_template _ _ _ _ _ _ _ _ Hrd)|
           split; [exact (rd_wf _ _ _ _ _ _ _ _ Hrd)|
           split; [|split; [|split; [|split]]]]]].
  - unfold renderIntoBounds. fold p. rewrite (bind_ok _ _ _ _ _ Hclear).
    unfold template_evaluate. now rewrite Heval.
  - unfold covers. simpl. rewrite (rd_extent _ _ _ _ _ _ _ _ Hrd). simpl.
    split; [exact (rd_nonempty _ _ _ _ _ _ _ _ Hrd)|].
    split; [reflexivity|]. split; [reflexivity|].
    exact (rd_children _ _ _ _ _ _ _ _ Hrd).
  - simpl. now rewrite (rd_extent _ _ _ _ _ _ _ _ Hrd).
  - intros n Hn. simpl.
    rewrite (rd_links _ _ _ _ _ _ _ _ Hrd).
    + exact (proj1 (Hrem1 n Hn)).
    + simpl. rewrite Hn1. apply (allocated_child _ p _ Hwf).
      destruct Hcov as (_ & _ & _ & Hc). fold p in Hc. rewrite Hc.
      apply in_or_app. right. apply in_or_app. now left.
  - intros n Hn Hout. simpl.
    rewrite (rd_links _ _ _ _ _ _ _ _ Hrd).
    + now apply Hkept1.
    + simpl. now rewrite Hn1.
  - reflexivity.
Qed.

(** X6.  For well-formed bounds over the run [mid] of [pre ++ mid ++ post],
    and an engine that keeps its contract, [renderIntoBounds] returns
    normally: it evaluates the template once, anchored at the node that
    followed the bounds; the new result spans the rendered nodes, which
    stand where the bounds were; every node of [mid] is out of the tree and
    every other node that existed keeps its parent. *)
Theorem renderIntoBounds_replaces_the_range `{E : Engine} fuel t b w pre mid post :
  evaluate_renders E ->
  DOM.wf (dom (heap w)) ->
  covers b (heap w) pre mid post ->
  length mid <= fuel ->
  exists r nodes w',
    renderIntoBounds fuel t b (eparent (extent_of b (heap w))) w = Ok r w' /\
    template r = t /\
    DOM.wf (dom (heap w')) /\
    covers (ResultBounds r) (heap w') pre nodes post /\
    eparent (extent_of (ResultBounds r) (heap w')) = eparent (extent_of b (heap w)) /\
    (forall n, In n mid -> DOM.parentNode (dom (heap w')) n = None) /\
    (forall n, n < DOM.nextNode (dom (heap w)) -> ~ In n mid ->
       DOM.parentNode (dom (heap w')) n = DOM.parentNode (dom (heap w)) n) /\
    trace w' = trace w ++ [EvEvaluate t (hd_error post)].
Proof.
  intros Hrenders Hwf Hcov Hfuel.
  exact (renderIntoBounds_spec fuel t b w pre mid post Hrenders Hwf Hcov Hfuel).
Qed.

Lemma renderIntoBounds_replaces_the_range_witness :
  evaluate_renders sample_engine /\
  DOM.wf (dom (heap sample_world)) /\
  covers sample_bounds (heap sample_world) [1] [2; 3] [4] /\
  length [2; 3] <= 2 /\
  exists r nodes w',
    @renderIntoBounds sample_engine 2 1 sample_bounds 0 sample_world = Ok r w' /\
    template r = 1 /\
    DOM.wf (dom (heap w')) /\
    covers (ResultBounds r) (heap w') [1] nodes [4] /\
    eparent (extent_of (ResultBounds r) (heap w')) = 0 /\
    (forall n, In n [2; 3] -> DOM.parentNode (dom (heap w')) n = None) /\
    (forall n, n < DOM.nextNode (dom (heap sample_world)) -> ~ In n [2; 3] ->
       DOM.parentNode (dom (heap w')) n = DOM.parentNode (dom (heap sample_world)) n) /\
    trace w' = trace sample_world ++ [EvEvaluate 1 (hd_error [4])].
Proof.
  assert (Hcov : covers sample_bounds (heap sample_world) [1] [2; 3] [4]).
  { repeat split. discriminate. }
  split; [exact (sizedEngine_renders (fun t => t))|].
  split; [exact sample_dom_wf|]. split; [exact Hcov|]. split; [apply le_n|].
  exact (@renderIntoBounds_replaces_the_range sample_engine 2 1 sample_bounds
           sample_world [1] [2; 3] [4] (sizedEngine_renders (fun t => t))
           sample_dom_wf Hcov (le_n 2)).
Defined.

(** ** [clearWithComment] and [renderIntoBounds] in a row *)

(** [clearWithComment] on well-formed bounds. *)
Lemma clearWithComment_spec fuel b w pre mid post :
  DOM.wf (dom (heap w)) ->
  covers b (heap w) pre mid post ->
  length mid <= fuel ->
  exists d',
    let p := eparent (extent_of b (heap w)) in
    let c := DOM.nextNode (dom (heap w)) in
    clearWithComment fuel b w
    = Ok (ConcreteBounds p (Some c) (Some c)) (set_dom w d') /\
    DOM.wf d' /\
    DOM.childNodes d' p = pre ++ c :: post /\
    DOM.nextNode d' = S c /\
    (forall n, In n mid -> DOM.parentNode d' n = None) /\
    (forall n, n <> c -> ~ In n mid ->
       DOM.parentNode d' n = DOM.parentNode (dom (heap w)) n).
Proof.
  intros Hwf Hcov Hfuel.
  destruct (clear_covers fuel b w pre mid post Hwf Hcov Hfuel)
    as (d1 & Hrun & Hrr & (Hf1 & Hn1 & Hcd1)).
  destruct Hrr as [Hwf1 Hc1 _ Hrem1 Hkept1 _].
  set (p := eparent (extent_of b (heap w))) in *.
  assert (Hp : p < DOM.nextNode d1).
  { rewrite Hn1. exact (covers_parent_allocated _ _ _ _ _ Hwf Hcov). }
  destruct (comment_insertion d1 p pre post Hwf1 Hp Hc1) as (d' & Hins & Hcp).
  destruct Hcp as [Hwf' Hc' _ Hnext' _ Hlinks' _ _].
  rewrite Hn1 in *.
  exists d'. cbv zeta.
  split; [|split; [exact Hwf'|split; [exact Hc'|split; [exact Hnext'|split]]]].
  - unfold clearWithComment.
    rewrite (bind_ok _ _ _ _ _ Hrun).
    rewrite (bind_ok _ _ _ _ _ (parentElement_eq b _)).
    rewrite (bind_ok _ _ _ _ _ (createComment_eq _ _)).
    rewrite (bind_ok _ _ _ _ _ (parentElement_eq b _)).
    rewrite !extent_of_set_dom. fold p.
    change (dom (heap (set_dom w d1))) with d1.
    rewrite set_dom_set_dom, Hn1.
    rewrite (bind_ok _ _ _ _ _ (insertBefore_set_dom _ _ _ w _ _ Hins)).
    reflexivity.
  - intros n Hn. rewrite Hlinks'; [exact (proj1 (Hrem1 n Hn))|].
    intros ->. destruct Hcov as (_ & _ & _ & Hc). fold p in Hc.
    assert (Hin : In (DOM.nextNode (dom (heap w))) (DOM.childNodes (dom (heap w)) p)).
    { rewrite Hc. apply in_or_app. right. apply in_or_app. now left. }
    apply (allocated_child _ _ _ Hwf) in Hin. lia.
  - intros n Hn Hout. rewrite (Hlinks' n Hn). now apply Hkept1.
Qed.

(** X15.  The bounds that [clearWithComment] answers can be handed to
    [renderIntoBounds]: with an engine that keeps its contract the two calls
    in a row return normally, the template is evaluated once, anchored at
    the node that followed the original bounds, its nodes stand where the
    original bounds were, and both the nodes of the original bounds and the
    comment made in between are out of the tree. *)
Theorem clearWithComment_then_renderIntoBounds `{E : Engine}
    fuel1 fuel2 t b w pre mid post :
  evaluate_renders E ->
  DOM.wf (dom (heap w)) ->
  covers b (heap w) pre mid post ->
  length mid <= fuel1 -> 0 < fuel2 ->
  exists r nodes w',
    (cb <- clearWithComment fuel1 b ;;
     renderIntoBounds fuel2 t cb (eparent (extent_of b (heap w)))) w = Ok r w' /\
    template r = t /\
    DOM.wf (dom (heap w')) /\
    covers (ResultBounds r) (heap w') pre nodes post /\
    (forall n, In n mid -> DOM.parentNode (dom (heap w')) n = None) /\
    DOM.parentNode (dom (heap w')) (DOM.nextNode (dom (heap w))) = None /\
    trace w' = trace w ++ [EvEvaluate t (hd_error post)].
Proof.
  intros Hrenders Hwf Hcov Hfuel1 Hfuel2.
  set (p := eparent (extent_of b (heap w))).
  set (c := DOM.nextNode (dom (heap w))).
  destruct (clearWithComment_spec fuel1 b w pre mid post Hwf Hcov Hfuel1)
    as (d1 & Hcwc & Hwf1 & Hc1 & Hnext1 & Hgone1 & _).
  cbv zeta in Hcwc. fold p c in Hcwc, Hc1, Hnext1.
  set (cb := ConcreteBounds p (Some c) (Some c)) in *.
  assert (Hcov1 : covers cb (heap (set_dom w d1)) pre [c] post).
  { repeat split; try discriminate. exact Hc1. }
  destruct (renderIntoBounds_spec fuel2 t cb (set_dom w d1) pre [c] post
              Hrenders Hwf1 Hcov1 Hfuel2)
    as (r & nodes & w' & Hrun & Htpl & Hwf' & Hcov' & _ & Hgone' & Hkept' & Htrace).
  exists r, nodes, w'.
  split; [|split; [exact Htpl|split; [exact Hwf'|split; [exact Hcov'|
           split; [|split; [|exact Htrace]]]]]].
  - rewrite (bind_ok _ _ _ _ _ Hcwc). exact Hrun.
  - intros n Hn.
    assert (Hnc : n <> c).
    { intros ->. destruct Hcov as (_ & _ & _ & Hc).
      assert (Hin : In c (DOM.childNodes (dom (heap w)) p)).
      { fold p in Hc. rewrite Hc. apply in_or_app. right. apply in_or_app. now left. }
      apply (allocated_child _ _ _ Hwf) in Hin. unfold c in Hin. lia. }
    rewrite Hkept'.
    + exact (Hgone1 n Hn).
    + simpl. rewrite Hnext1. destruct Hcov as (_ & _ & _ & Hc).
      assert (Hin : In n (DOM.childNodes (dom (heap w)) p)).
      { fold p in Hc. rewrite Hc. apply in_or_app. right. apply in_or_app. now left. }
      apply (allocated_child _ _ _ Hwf) in Hin. fold c. lia.
    + intros [Heq|[]]. congruence.
  - apply Hgone'. now left.
Qed.

Lemma clearWithComment_then_renderIntoBounds_witness :
  evaluate_renders sample_engine /\
  DOM.wf (dom (heap sample_world)) /\
  covers sample_bounds (heap sample_world) [1] [2; 3] [4] /\
  length [2; 3] <= 2 /\ 0 < 1 /\
  exists r nodes w',
    (cb <- clearWithComment 2 sample_bounds ;;
     @renderIntoBounds sample_engine 1 1 cb 0) sample_world = Ok r w' /\
    template r = 1 /\
    DOM.wf (dom (heap w')) /\
    covers (ResultBounds r) (heap w') [1] nodes [4] /\
    (forall n, In n [2; 3] -> DOM.parentNode (dom (heap w')) n = None) /\
    DOM.parentNode (dom (heap w')) (DOM.nextNode (dom (heap sample_world))) = None /\
    trace w' = trace sample_world ++ [EvEvaluate 1 (hd_error [4])].
Proof.
  assert (Hcov : covers sample_bounds (heap sample_world) [1] [2; 3] [4]).
  { repeat split. discriminate. }
  split; [exact (sizedEngine_renders (fun t => t))|].
  split; [exact sample_dom_wf|]. split; [exact Hcov|].
  split; [apply le_n|]. split; [apply le_n|].
  exact (@clearWithComment_then_renderIntoBounds sample_engine 2 1 1 sample_bounds
           sample_world [1] [2; 3] [4] (sizedEngine_renders (fun t => t))
           sample_dom_wf Hcov (le_n 2) (le_n 1)).
Defined.

(** ** The accessors of a morph that has left the Appending state *)

(** X7.  For a morph that is not in the Appending state and owns the run
    [old] of the parent's children [pre ++ old ++ post] (its placeholder, or
    the nodes of its well-formed bounds), [nextSibling()] returns normally
    without changing anything, and answers the node that follows the
    region: the first node of [post], or null at the end of the parent. *)
Theorem nextSibling_answers_the_node_after_the_region m w pre old post :
  DOM.wf (dom (heap w)) ->
  region m (heap w) pre old post ->
  currentOperations m <> Appending ->
  EmptyableMorph.nextSibling m w = Ok (hd_error post) w.
Proof.
  intros Hwf [Hc Hreg] Hleft.
  unfold EmptyableMorph.nextSibling, EmptyableMorph.lastNode.
  destruct (currentOperations m) as [|c|b]; [congruence| |].
  - subst old. unfold Empty.lastNode.
    assert (Hlast : ret (Some c) w = Ok (Some c) w) by reflexivity.
    rewrite (bind_ok _ _ _ _ _ Hlast).
    unfold Node.nextSibling. f_equal.
    exact (DOMFacts.nextSibling_split _ _ _ _ _ Hwf Hc).
  - destruct Hreg as [Hpar Hcov].
    unfold HasContent.lastNode. rewrite (bind_ok _ _ _ _ _ (lastNode_eq b w)).
    pose proof Hcov as (Hne & _ & Hl & _).
    destruct old as [|x rest]; [congruence|].
    destruct (last_error_nonempty x rest) as [l Hlast].
    rewrite Hl, Hlast. unfold Node.nextSibling. f_equal.
    apply (covers_nextSibling b (heap w) pre (x :: rest) post l Hwf Hcov).
    congruence.
Qed.

Lemma nextSibling_answers_the_node_after_the_region_witness :
  DOM.wf (dom (heap sample_world)) /\
  region morph_with_content (heap sample_world) [1] [2; 3] [4] /\
  currentOperations morph_with_content <> Appending /\
  EmptyableMorph.nextSibling morph_with_content sample_world
  = Ok (hd_error [4]) sample_world.
Proof.
  assert (Hreg : region morph_with_content (heap sample_world) [1] [2; 3] [4]).
  { split; [reflexivity|]. split; [reflexivity|]. repeat split. discriminate. }
  assert (Hleft : currentOperations morph_with_content <> Appending) by discriminate.
  split; [exact sample_dom_wf|]. split; [exact Hreg|]. split; [exact Hleft|].
  exact (nextSibling_answers_the_node_after_the_region morph_with_content sample_world
           [1] [2; 3] [4] sample_dom_wf Hreg Hleft).
Defined.

Lemma insertBefore_valid d p x ns :
  (forall r, ns = Some r -> DOM.parentNode d r = Some p) ->
  DOM.insertBefore p x ns d <> inl NotFoundError.
Proof.
  intros Hvalid. unfold DOM.insertBefore.
  destruct (DOM.contains (DOM.nextNode d) d x p); [discriminate|].
  destruct ns as [r|]; [|discriminate].
  rewrite (Hvalid r eq_refl), Nat.eqb_refl. discriminate.
Qed.

(** X8.  In every consistent state [nextSiblingForContent()] returns
    normally without changing anything.  Its answer is null exactly in the
    Appending state; otherwise it is a child of the morph's parent (the
    placeholder, or the first node of the content), so that an
    [insertBefore] into the parent at that anchor never throws
    NotFoundError. *)
Theorem nextSiblingForContent_answers_a_valid_anchor m w :
  DOM.wf (dom (heap w)) ->
  morph_ok m (heap w) ->
  exists ns,
    EmptyableMorph.nextSiblingForContent m w = Ok ns w /\
    (ns = None <-> currentOperations m = Appending) /\
    (forall n, ns = Some n -> DOM.parentNode (dom (heap w)) n = Some (parentNode m)) /\
    (forall x, DOMHelper.insertBefore (parentNode m) x ns w <> Throw NotFoundError).
Proof.
  intros Hwf Hok.
  assert (Hmain : exists ns,
             EmptyableMorph.nextSiblingForContent m w = Ok ns w /\
             (ns = None <-> currentOperations m = Appending) /\
             (forall n, ns = Some n ->
                        DOM.parentNode (dom (heap w)) n = Some (parentNode m))).
  { unfold morph_ok in Hok. unfold EmptyableMorph.nextSiblingForContent.
    destruct (currentOperations m) as [|c|b].
    - exists None. split; [reflexivity|]. split; [tauto|discriminate].
    - exists (Some c). split; [reflexivity|]. split; [split; discriminate|].
      intros n [= <-]. apply Hok.
    - destruct Hok as (Hpar & pre & mid & post & Hne & Hf & _ & Hc).
      destruct mid as [|x rest]; [congruence|].
      exists (Some x). unfold HasContent.nextSiblingForContent.
      rewrite firstNode_eq, Hf. split; [reflexivity|].
      split; [split; discriminate|].
      intros n [= <-]. apply (DOM.wf_links Hwf). rewrite <- Hpar, Hc.
      apply in_or_app. right. now left. }
  destruct Hmain as (ns & Hrun & Hnull & Hchild).
  exists ns. split; [exact Hrun|]. split; [exact Hnull|]. split; [exact Hchild|].
  intros x. unfold DOMHelper.insertBefore.
  pose proof (insertBefore_valid (dom (heap w)) (parentNode m) x ns Hchild) as Hv.
  destruct (DOM.insertBefore (parentNode m) x ns (dom (heap w))) as [e|d'];
    [|discriminate].
  intros [= ->]. now apply Hv.
Qed.

Lemma nextSiblingForContent_answers_a_valid_anchor_witness :
  DOM.wf (dom (heap sample_world)) /\
  morph_ok morph_with_content (heap sample_world) /\
  exists ns,
    EmptyableMorph.nextSiblingForContent morph_with_content sample_world
    = Ok ns sample_world /\
    (ns = None <-> currentOperations morph_with_content = Appending) /\
    (forall n, ns = Some n -> DOM.parentNode (dom (heap sample_world)) n = Some 0) /\
    (forall x, DOMHelper.insertBefore 0 x ns sample_world <> Throw NotFoundError).
Proof.
  assert (Hok : morph_ok morph_with_content (heap sample_world)).
  { split; [reflexivity|]. exists [1], [2; 3], [4]. repeat split. discriminate. }
  split; [exact sample_dom_wf|]. split; [exact Hok|].
  exact (nextSiblingForContent_answers_a_valid_anchor morph_with_content sample_world
           sample_dom_wf Hok).
Defined.

(** ** Reporting content *)

(** X9.  Let the morph own the run [old], and let the nodes of the bounds
    [b] stand immediately before it under the morph's parent, as they do
    once a subclass has rendered at the anchor of [nextSiblingForContent()].
    Then [didInsertContent(b)] returns normally in the HasContent state;
    every node of [old] is out of the tree, [b] is still well formed and now
    spans the whole region, and the morph is consistent again. *)
Theorem didInsertContent_adopts_the_content fuel m b w pre nodes old post :
  DOM.wf (dom (heap w)) ->
  region m (heap w) (pre ++ nodes) old post ->
  covers b (heap w) pre nodes (old ++ post) ->
  eparent (extent_of b (heap w)) = parentNode m ->
  length old <= fuel ->
  exists d',
    let m' := set_currentOperations m (HasContent b) in
    EmptyableMorph.didInsertContent fuel m b w = Ok m' (set_dom w d') /\
    DOM.wf d' /\
    covers b (heap (set_dom w d')) pre nodes post /\
    (forall n, In n old -> DOM.parentNode d' n = None) /\
    morph_ok m' (heap (set_dom w d')).
Proof.
  intros Hwf Hreg Hcov Hpar Hfuel.
  destruct (didInsertContent_spec fuel m b w (pre ++ nodes) old post Hwf Hreg Hfuel)
    as (d' & Hrun & Hwf' & Hc' & Hfr).
  assert (Hcov' : covers b (heap (set_dom w d')) pre nodes post).
  { destruct Hcov as (Hne & Hf & Hl & _). unfold covers.
    rewrite extent_of_set_dom. split; [exact Hne|]. split; [exact Hf|].
    split; [exact Hl|]. simpl. rewrite Hpar, Hc'. now rewrite <- app_assoc. }
  exists d'. cbv zeta.
  split; [exact Hrun|]. split; [exact Hwf'|]. split; [exact Hcov'|]. split.
  - intros n Hn. destruct Hreg as [Hc _].
    assert (Hrr : range_removed (parentNode m) (pre ++ nodes) old post (dom (heap w)) d').
    { apply range_removed_intro; auto. apply Hfr. }
    exact (proj1 (rr_removed _ _ _ _ _ _ Hrr n Hn)).
  - unfold morph_ok. simpl currentOperations. split.
    + now rewrite extent_of_set_dom.
    + now exists pre, nodes, post.
Qed.

Lemma didInsertContent_adopts_the_content_witness :
  DOM.wf (dom (heap sample_world)) /\
  region morph_with_placeholder (heap sample_world) ([] ++ [1; 2]) [3] [4] /\
  covers (bounds 0 (Some 1) (Some 2)) (heap sample_world) [] [1; 2] ([3] ++ [4]) /\
  length [3] <= 1 /\
  exists d',
    EmptyableMorph.didInsertContent 1 morph_with_placeholder
      (bounds 0 (Some 1) (Some 2)) sample_world
    = Ok (set_currentOperations morph_with_placeholder
            (HasContent (bounds 0 (Some 1) (Some 2))))
         (set_dom sample_world d') /\
    DOM.wf d' /\
    covers (bounds 0 (Some 1) (Some 2)) (heap (set_dom sample_world d')) [] [1; 2] [4] /\
    (forall n, In n [3] -> DOM.parentNode d' n = None) /\
    morph_ok (set_currentOperations morph_with_placeholder
                (HasContent (bounds 0 (Some 1) (Some 2))))
             (heap (set_dom sample_world d')).
Proof.
  assert (Hreg : region morph_with_placeholder (heap sample_world) ([] ++ [1; 2]) [3] [4]).
  { split; reflexivity. }
  assert (Hcov : covers (bounds 0 (Some 1) (Some 2)) (heap sample_world)
                        [] [1; 2] ([3] ++ [4])).
  { repeat split. discriminate. }
  split; [exact sample_dom_wf|]. split; [exact Hreg|]. split; [exact Hcov|].
  split; [apply le_n|].
  exact (didInsertContent_adopts_the_content 1 morph_with_placeholder
           (bounds 0 (Some 1) (Some 2)) sample_world [] [1; 2] [3] [4]
           sample_dom_wf Hreg Hcov eq_refl (le_n 1)).
Defined.

(** ** The placeholder, wherever it is *)

(** X10.  In the Empty state [didInsertContent] looks the placeholder up
    through its own parent link, not through the morph's parent: a
    placeholder that is a child of any element [q] is taken out of [q], and
    the morph moves to HasContent; a placeholder that is in no element makes
    the call throw a TypeError. *)
Theorem Empty_didInsertContent_follows_the_placeholder fuel m c b w :
  DOM.wf (dom (heap w)) ->
  currentOperations m = Empty c ->
  (forall q, DOM.parentNode (dom (heap w)) c = Some q ->
     exists d',
       EmptyableMorph.didInsertContent fuel m b w
       = Ok (set_currentOperations m (HasContent b)) (set_dom w d') /\
       DOM.wf d' /\ DOM.parentNode d' c = None /\
       DOM.childNodes d' q = remove_node c (DOM.childNodes (dom (heap w)) q) /\
       (forall q', q' <> q ->
          DOM.childNodes d' q' = DOM.childNodes (dom (heap w)) q')) /\
  (DOM.parentNode (dom (heap w)) c = None ->
     EmptyableMorph.didInsertContent fuel m b w = Throw TypeError).
Proof.
  intros Hwf Hops. unfold EmptyableMorph.didInsertContent. rewrite Hops.
  unfold Empty.didInsertContent. split.
  - intros q Hq.
    assert (Hp : Node.parentNode c w = Ok (Some q) w).
    { unfold Node.parentNode. now rewrite Hq. }
    assert (Hrm : DOM.removeChild q c (dom (heap w)) = Some (DOM.detach c (dom (heap w)))).
    { unfold DOM.removeChild. now rewrite Hq, Nat.eqb_refl. }
    exists (DOM.detach c (dom (heap w))).
    split; [|split; [now apply DOMFacts.detach_wf|split; [apply detach_orphans|split]]].
    + rewrite (bind_ok _ _ _ _ _ Hp).
      now rewrite (bind_ok _ _ _ _ _ (removeChild_eq _ _ _ _ Hrm)).
    + now apply detach_children.
    + intros q' Hq'. rewrite (detach_children _ _ _ Hwf).
      apply remove_node_notin. intros Hin.
      apply (DOM.wf_links Hwf) in Hin. congruence.
  - intros Horph. unfold bind, Node.parentNode. now rewrite Horph.
Qed.

Lemma Empty_didInsertContent_follows_the_placeholder_witness :
  DOM.wf (dom (heap sample_world)) /\
  currentOperations morph_with_placeholder = Empty 3 /\
  DOM.parentNode (dom (heap sample_world)) 3 = Some 0 /\
  DOM.parentNode (dom (heap sample_world)) 7 = None /\
  (exists d',
     EmptyableMorph.didInsertContent 0 morph_with_placeholder sample_bounds sample_world
     = Ok (set_currentOperations morph_with_placeholder (HasContent sample_bounds))
          (set_dom sample_world d') /\
     DOM.wf d' /\ DOM.parentNode d' 3 = None /\
     DOM.childNodes d' 0 = remove_node 3 (DOM.childNodes (dom (heap sample_world)) 0) /\
     (forall q', q' <> 0 ->
        DOM.childNodes d' q' = DOM.childNodes (dom (heap sample_world)) q')) /\
  EmptyableMorph.didInsertContent 0 (mkMorph 0 (Empty 7)) sample_bounds sample_world
  = Throw TypeError.
Proof.
  split; [exact sample_dom_wf|]. split; [reflexivity|].
  split; [reflexivity|]. split; [reflexivity|]. split.
  - exact (proj1 (Empty_didInsertContent_follows_the_placeholder 0 morph_with_placeholder
                    3 sample_bounds sample_world sample_dom_wf eq_refl) 0 eq_refl).
  - exact (proj2 (Empty_didInsertContent_follows_the_placeholder 0 (mkMorph 0 (Empty 7))
                    7 sample_bounds sample_world sample_dom_wf eq_refl) eq_refl).
Defined.

(** ** Bounds without nodes *)

(** X11.  For bounds whose first node is null, such as [appendBounds],
    [clear] returns null at once and changes nothing, and
    [clearWithComment] removes nothing and appends one new empty comment at
    the end of the parent, which it answers as the bounds of that single
    node. *)
Theorem clearWithComment_on_empty_bounds_appends fuel b w :
  DOM.wf (dom (heap w)) ->
  efirst (extent_of b (heap w)) = None ->
  eparent (extent_of b (heap w)) < DOM.nextNode (dom (heap w)) ->
  clear fuel b w = Ok None w /\
  exists d',
    let p := eparent (extent_of b (heap w)) in
    let c := DOM.nextNode (dom (heap w)) in
    clearWithComment fuel b w = Ok (ConcreteBounds p (Some c) (Some c)) (set_dom w d') /\
    DOM.wf d' /\
    DOM.childNodes d' p = DOM.childNodes (dom (heap w)) p ++ [c] /\
    DOM.commentData d' c = Some String.EmptyString /\
    (forall q, q <> p -> DOM.childNodes d' q = DOM.childNodes (dom (heap w)) q).
Proof.
  intros Hwf Hf Hp.
  assert (Hclear : clear fuel b w = Ok None w).
  { unfold clear.
    rewrite (bind_ok _ _ _ _ _ (parentElement_eq b w)).
    rewrite (bind_ok _ _ _ _ _ (firstNode_eq b w)).
    rewrite (bind_ok _ _ _ _ _ (lastNode_eq b w)).
    rewrite Hf. now destruct fuel. }
  split; [exact Hclear|].
  set (p := eparent (extent_of b (heap w))) in *.
  destruct (comment_insertion (dom (heap w)) p (DOM.childNodes (dom (heap w)) p) []
              Hwf Hp) as (d' & Hins & Hcp).
  { now rewrite app_nil_r. }
  destruct Hcp as [Hwf' Hc' Hoth' _ _ _ Hdata' _].
  exists d'. simpl.
  split; [|split; [exact Hwf'|split; [exact Hc'|split; [exact Hdata'|exact Hoth']]]].
  unfold clearWithComment.
  rewrite (bind_ok _ _ _ _ _ Hclear).
  rewrite (bind_ok _ _ _ _ _ (parentElement_eq b _)).
  rewrite (bind_ok _ _ _ _ _ (createComment_eq _ _)).
  rewrite (bind_ok _ _ _ _ _ (parentElement_eq b _)).
  rewrite !extent_of_set_dom. fold p.
  rewrite (bind_ok _ _ _ _ _ (insertBefore_set_dom _ _ _ w _ _ Hins)).
  reflexivity.
Qed.

Lemma clearWithComment_on_empty_bounds_appends_witness :
  DOM.wf (dom (heap sample_world)) /\
  0 < DOM.nextNode (dom (heap sample_world)) /\
  clear 0 (appendBounds 0) sample_world = Ok None sample_world /\
  exists d',
    clearWithComment 0 (appendBounds 0) sample_world
    = Ok (ConcreteBounds 0 (Some 8) (Some 8)) (set_dom sample_world d') /\
    DOM.wf d' /\
    DOM.childNodes d' 0 = DOM.childNodes (dom (heap sample_world)) 0 ++ [8] /\
    DOM.commentData d' 8 = Some String.EmptyString /\
    (forall q, q <> 0 -> DOM.childNodes d' q = DOM.childNodes (dom (heap sample_world)) q).
Proof.
  assert (Hp : 0 < DOM.nextNode (dom (heap sample_world))) by (vm_compute; lia).
  split; [exact sample_dom_wf|]. split; [exact Hp|].
  exact (clearWithComment_on_empty_bounds_appends 0 (appendBounds 0) sample_world
           sample_dom_wf eq_refl Hp).
Defined.

(** * Further properties of [TemplateMorph] *)

(** [updateTemplate] on a morph that holds no result of [t]: the template is
    evaluated at the anchor of the morph's region and takes the place of
    what the morph owned. *)
Lemma updateTemplate_fresh_spec `{E : Engine} fuel tm t w pre old post :
  evaluate_renders E ->
  DOM.wf (dom (heap w)) -> template_morph_ok tm (heap w) ->
  region (super tm) (heap w) pre old post ->
  (forall r, lastResult tm = Some r -> template r <> t) ->
  length old <= fuel ->
  exists r nodes w',
    let tm' := mkTemplateMorph
                 (set_currentOperations (super tm) (HasContent (ResultBounds r)))
                 (Some r) in
    TemplateMorph.updateTemplate fuel tm t w = Ok tm' w' /\
    template r = t /\
    DOM.wf (dom (heap w')) /\
    covers (ResultBounds r) (heap w') pre nodes post /\
    (forall n, In n old -> DOM.parentNode (dom (heap w')) n = None) /\
    template_morph_ok tm' (heap w') /\
    trace w' = trace w ++ [EvEvaluate t (hd_error (old ++ post))].
Proof.
  intros Hrenders Hwf Hok Hreg Hother Hfuel.
  destruct (appendTemplate_spec fuel tm t w pre old post Hrenders Hwf Hok Hreg Hfuel)
    as (r & nodes & w' & Hrun & Hrest).
  exists r, nodes, w'. cbv zeta in *. split; [|exact Hrest].
  assert (Hns : EmptyableMorph.nextSiblingForContent (super tm) w
                = Ok (hd_error (old ++ post)) w)
    by exact (region_anchor _ _ _ _ _ Hreg).
  unfold TemplateMorph.updateTemplate.
  destruct (lastResult tm) as [r0|] eqn:Hlast.
  - assert (Hneq : Nat.eqb t (template r0) = false).
    { apply Nat.eqb_neq. intros ->. now apply (Hother r0). }
    rewrite Hneq, (bind_ok _ _ _ _ _ Hns). exact Hrun.
  - rewrite (bind_ok _ _ _ _ _ Hns). exact Hrun.
Qed.

(** ** Rendering in place *)

(** X12.  Let a consistent morph own the run [old] of the parent's children
    [pre ++ old ++ post] (nothing at the end of the parent while appending,
    the placeholder while empty, the nodes of its content otherwise), and
    hold no result of template [t].  With an engine that keeps its contract
    [updateTemplate(t)] returns normally: [t] is evaluated once, anchored at
    the first node of [old ++ post]; the morph then holds the new result,
    whose nodes stand where [old] was, and every node of [old] is out of
    the tree.  The first render of a new morph appends at the end of the
    parent. *)
Theorem updateTemplate_renders_in_place `{E : Engine} fuel tm t w pre old post :
  evaluate_renders E ->
  DOM.wf (dom (heap w)) -> template_morph_ok tm (heap w) ->
  region (super tm) (heap w) pre old post ->
  (forall r, lastResult tm = Some r -> template r <> t) ->
  length old <= fuel ->
  exists r nodes tm' w',
    TemplateMorph.updateTemplate fuel tm t w = Ok tm' w' /\
    lastResult tm' = Some r /\ template r = t /\
    currentOperations (super tm') = HasContent (ResultBounds r) /\
    covers (ResultBounds r) (heap w') pre nodes post /\
    (forall n, In n old -> DOM.parentNode (dom (heap w')) n = None) /\
    trace w' = trace w ++ [EvEvaluate t (hd_error (old ++ post))].
Proof.
  intros Hrenders Hwf Hok Hreg Hother Hfuel.
  destruct (updateTemplate_fresh_spec fuel tm t w pre old post
              Hrenders Hwf Hok Hreg Hother Hfuel)
    as (r & nodes & w' & Hrun & Htpl & _ & Hcov & Hgone & _ & Htrace).
  cbv zeta in Hrun.
  exists r, nodes,
    (mkTemplateMorph (set_currentOperations (super tm) (HasContent (ResultBounds r)))
                     (Some r)), w'.
  split; [exact Hrun|]. split; [reflexivity|]. split; [exact Htpl|].
  split; [reflexivity|]. split; [exact Hcov|]. split; [exact Hgone|exact Htrace].
Qed.

Lemma updateTemplate_renders_in_place_witness :
  evaluate_renders sample_engine /\
  DOM.wf (dom (heap world_after_first)) /\
  template_morph_ok morph_after_first (heap world_after_first) /\
  region (super morph_after_first) (heap world_after_first) [1; 2; 3; 4] [8; 9] [] /\
  (forall r, lastResult morph_after_first = Some r -> template r <> 2) /\
  length [8; 9] <= 2 /\
  exists r nodes tm' w',
    @TemplateMorph.updateTemplate sample_engine 2 morph_after_first 2 world_after_first
    = Ok tm' w' /\
    lastResult tm' = Some r /\ template r = 2 /\
    currentOperations (super tm') = HasContent (ResultBounds r) /\
    covers (ResultBounds r) (heap w') [1; 2; 3; 4] nodes [] /\
    (forall n, In n [8; 9] -> DOM.parentNode (dom (heap w')) n = None) /\
    trace w' = trace world_after_first ++ [EvEvaluate 2 (hd_error ([8; 9] ++ []))].
Proof.
  assert (Hreg : region (super morph_after_first) (heap world_after_first)
                        [1; 2; 3; 4] [8; 9] []).
  { split; [reflexivity|]. split; [reflexivity|].
    split; [discriminate|]. split; [reflexivity|]. split; reflexivity. }
  assert (Hother : forall r, lastResult morph_after_first = Some r -> template r <> 2).
  { intros r [= <-]. discriminate. }
  split; [exact (sizedEngine_renders (fun t => t))|].
  split; [exact world_after_first_wf|]. split; [exact morph_after_first_ok|].
  split; [exact Hreg|]. split; [exact Hother|]. split; [apply le_n|].
  exact (@updateTemplate_renders_in_place sample_engine 2 morph_after_first 2
           world_after_first [1; 2; 3; 4] [8; 9] [] (sizedEngine_renders (fun t => t))
           world_after_first_wf morph_after_first_ok Hreg Hother (le_n 2)).
Defined.

(** ** Rendering again after becoming empty *)

Lemma TemplateMorph_didBecomeEmpty_state fuel tm w tm1 w1 :
  TemplateMorph.didBecomeEmpty fuel tm w = Ok tm1 w1 ->
  (exists c, currentOperations (super tm1) = Empty c) /\
  parentNode (super tm1) = parentNode (super tm) /\ trace w1 = trace w.
Proof.
  unfold TemplateMorph.didBecomeEmpty. intros Hrun.
  apply bind_inv in Hrun as (m & w' & Hempty & Hret).
  injection Hret as <- <-.
  apply didBecomeEmpty_keeps in Hempty as (Hc & Hpar & d' & ->).
  now repeat split.
Qed.

(** X13.  Because [didBecomeEmpty] resets [lastResult], an
    [updateTemplate(t)] that follows it always evaluates [t], also when [t]
    is the template that was rendered before: with an engine that keeps its
    contract the call returns normally, the evaluation is anchored at the
    placeholder [c], the rendered nodes stand where the placeholder stood,
    and the placeholder is out of the tree. *)
Theorem updateTemplate_after_didBecomeEmpty_evaluates `{E : Engine}
    fuel1 fuel2 tm w tm1 w1 t :
  evaluate_renders E ->
  DOM.wf (dom (heap w)) -> template_morph_ok tm (heap w) ->
  length (DOM.childNodes (dom (heap w)) (parentNode (super tm))) <= fuel1 ->
  TemplateMorph.didBecomeEmpty fuel1 tm w = Ok tm1 w1 ->
  0 < fuel2 ->
  exists c pre post r nodes tm2 w2,
    currentOperations (super tm1) = Empty c /\
    DOM.childNodes (dom (heap w1)) (parentNode (super tm)) = pre ++ c :: post /\
    TemplateMorph.updateTemplate fuel2 tm1 t w1 = Ok tm2 w2 /\
    lastResult tm2 = Some r /\ template r = t /\
    covers (ResultBounds r) (heap w2) pre nodes post /\
    DOM.parentNode (dom (heap w2)) c = None /\
    trace w2 = trace w1 ++ [EvEvaluate t (Some c)].
Proof.
  intros Hrenders Hwf Hok Hfuel1 Hempty Hfuel2.
  destruct (didBecomeEmpty_preserves fuel1 tm w tm1 w1 Hwf Hok Hfuel1 Hempty)
    as (Hlast1 & Hwf1 & Hok1).
  destruct (TemplateMorph_didBecomeEmpty_state _ _ _ _ _ Hempty)
    as ([c Hops1] & Hpar1 & _).
  pose proof Hok1 as (_ & Hmok1 & _).
  destruct (region_exists _ _ Hwf1 Hmok1) as (pre & old & post & Hreg).
  pose proof Hreg as [Hc Hshape]. rewrite Hops1 in Hshape. subst old.
  assert (Hother : forall r, lastResult tm1 = Some r -> template r <> t)
    by (rewrite Hlast1; discriminate).
  destruct (updateTemplate_fresh_spec fuel2 tm1 t w1 pre [c] post
              Hrenders Hwf1 Hok1 Hreg Hother Hfuel2)
    as (r & nodes & w2 & Hrun & Htpl & _ & Hcov & Hgone & _ & Htrace).
  cbv zeta in Hrun.
  exists c, pre, post, r, nodes,
    (mkTemplateMorph (set_currentOperations (super tm1) (HasContent (ResultBounds r)))
                     (Some r)), w2.
  split; [exact Hops1|]. split; [now rewrite <- Hpar1|]. split; [exact Hrun|].
  split; [reflexivity|]. split; [exact Htpl|]. split; [exact Hcov|].
  split; [apply Hgone; now left|exact Htrace].
Qed.

Lemma updateTemplate_after_didBecomeEmpty_evaluates_witness :
  evaluate_renders sample_engine /\
  DOM.wf (dom (heap world_after_first)) /\
  template_morph_ok morph_after_first (heap world_after_first) /\
  length (DOM.childNodes (dom (heap world_after_first))
            (parentNode (super morph_after_first))) <= 6 /\
  TemplateMorph.didBecomeEmpty 6 morph_after_first world_after_first
  = Ok morph_after_second world_after_second /\
  0 < 1 /\
  exists c pre post r nodes tm2 w2,
    currentOperations (super morph_after_second) = Empty c /\
    DOM.childNodes (dom (heap world_after_second)) (parentNode (super morph_after_first))
    = pre ++ c :: post /\
    @TemplateMorph.updateTemplate sample_engine 1 morph_after_second 1 world_after_second
    = Ok tm2 w2 /\
    lastResult tm2 = Some r /\ template r = 1 /\
    covers (ResultBounds r) (heap w2) pre nodes post /\
    DOM.parentNode (dom (heap w2)) c = None /\
    trace w2 = trace world_after_second ++ [EvEvaluate 1 (Some c)].
Proof.
  assert (Hlen : length (DOM.childNodes (dom (heap world_after_first))
                           (parentNode (super morph_after_first))) <= 6)
    by (vm_compute; lia).
  split; [exact (sizedEngine_renders (fun t => t))|].
  split; [exact world_after_first_wf|]. split; [exact morph_after_first_ok|].
  split; [exact Hlen|]. split; [exact second_empty_ok|]. split; [apply le_n|].
  exact (@updateTemplate_after_didBecomeEmpty_evaluates sample_engine 6 1
           morph_after_first world_after_first morph_after_second world_after_second 1
           (sizedEngine_renders (fun t => t)) world_after_first_wf morph_after_first_ok
           Hlen second_empty_ok (le_n 1)).
Defined.

(** ** What holds in every state of a [TemplateMorph] *)

(** The invariant of the reachable states. *)
Lemma reachable_invariant `{E : Engine} p w0 tm w :
  evaluate_renders E -> rerender_in_place E ->
  DOM.wf (dom (heap w0)) -> p < DOM.nextNode (dom (heap w0)) ->
  reachable p w0 tm w ->
  DOM.wf (dom (heap w)) /\
  template_morph_ok tm (heap w) /\
  parentNode (super tm) = p /\
  (lastResult tm = None <->
     currentOperations (super tm) = Appending \/
     exists c, currentOperations (super tm) = Empty c) /\
  (forall b, currentOperations (super tm) = HasContent b ->
     exists r, lastResult tm = Some r /\ b = ResultBounds r).
Proof.
  intros Hrenders Hinplace Hwf0 Hp Hreach.
  induction Hreach as [|tm w fuel t tm' w' Hreach IH Hfuel Hrun
                        |tm w fuel tm' w' Hreach IH Hfuel Hrun].
  - split; [exact Hwf0|]. split.
    { split; [exact Hp|]. split; [exact Hp|]. split; discriminate. }
    split; [reflexivity|]. split; [|discriminate].
    split; [now left|reflexivity].
  - destruct IH as (Hwf & Hok & Hpar & _ & _). rewrite <- Hpar in Hfuel.
    destruct (updateTemplate_preserves fuel tm t w tm' w'
                Hrenders Hinplace Hwf Hok Hfuel Hrun)
      as (r & Hlast & _ & Hpar' & Hwf' & Hok').
    pose proof Hok' as (_ & _ & _ & Hheld).
    pose proof (Hheld r Hlast) as Hops.
    split; [exact Hwf'|]. split; [exact Hok'|]. split; [congruence|]. split.
    + rewrite Hlast, Hops. split; [discriminate|].
      intros [H|[c H]]; discriminate.
    + intros b Hb. exists r. split; [exact Hlast|]. congruence.
  - destruct IH as (Hwf & Hok & Hpar & _ & _). rewrite <- Hpar in Hfuel.
    destruct (didBecomeEmpty_preserves fuel tm w tm' w' Hwf Hok Hfuel Hrun)
      as (Hlast & Hwf' & Hok').
    destruct (TemplateMorph_didBecomeEmpty_state _ _ _ _ _ Hrun)
      as ([c Hops] & Hpar' & _).
    split; [exact Hwf'|]. split; [exact Hok'|]. split; [congruence|]. split.
    + split; [intros _; right; now exists c|intros _; exact Hlast].
    + intros b Hb. congruence.
Qed.

(** In a consistent [TemplateMorph] the overrides of [firstNode()] and
    [lastNode()] answer what the state machine answers. *)
Lemma accessors_agree tm w :
  template_morph_ok tm (heap w) ->
  TemplateMorph.firstNode tm w = EmptyableMorph.firstNode (super tm) w /\
  TemplateMorph.lastNode tm w = EmptyableMorph.lastNode (super tm) w.
Proof.
  intros (_ & _ & _ & Hheld).
  unfold TemplateMorph.firstNode, TemplateMorph.lastNode,
    EmptyableMorph.firstNode, EmptyableMorph.lastNode.
  destruct (lastResult tm) as [r|]; [|now split].
  rewrite (Hheld r eq_refl). now split.
Qed.

(** X14.  Take a new [TemplateMorph] under an existing element of a
    consistent DOM, an engine that keeps its contract, and any sequence of
    [updateTemplate] and [didBecomeEmpty] calls that return normally.  In
    every state reached the DOM is consistent and the morph is consistent
    with it; the morph's parent never changes; [lastResult] is null exactly
    when the machine is in the Appending or the Empty state; when the
    machine is in HasContent its bounds are the very result that
    [lastResult] holds; and so the overrides of [firstNode()] and
    [lastNode()] answer what the state machine answers. *)
Theorem reachable_states_are_consistent `{E : Engine} p w0 tm w :
  evaluate_renders E -> rerender_in_place E ->
  DOM.wf (dom (heap w0)) -> p < DOM.nextNode (dom (heap w0)) ->
  reachable p w0 tm w ->
  DOM.wf (dom (heap w)) /\
  template_morph_ok tm (heap w) /\
  parentNode (super tm) = p /\
  (lastResult tm = None <->
     currentOperations (super tm) = Appending \/
     exists c, currentOperations (super tm) = Empty c) /\
  (forall b, currentOperations (super tm) = HasContent b ->
     exists r, lastResult tm = Some r /\ b = ResultBounds r) /\
  TemplateMorph.firstNode tm w = EmptyableMorph.firstNode (super tm) w /\
  TemplateMorph.lastNode tm w = EmptyableMorph.lastNode (super tm) w.
Proof.
  intros Hrenders Hinplace Hwf0 Hp Hreach.
  destruct (reachable_invariant p w0 tm w Hrenders Hinplace Hwf0 Hp Hreach)
    as (Hwf & Hok & Hpar & Hnull & Halias).
  split; [exact Hwf|]. split; [exact Hok|]. split; [exact Hpar|].
  split; [exact Hnull|]. split; [exact Halias|].
  exact (accessors_agree tm w Hok).
Qed.

Lemma reachable_after_second :
  @reachable sample_engine 0 sample_world morph_after_second world_after_second.
Proof.
  apply (@reachable_empty sample_engine 0 sample_world
           morph_after_first world_after_first 6).
  - apply (@reachable_update sample_engine 0 sample_world
             (TemplateMorph.new 0) sample_world 4 1).
    + apply reachable_new.
    + vm_compute. lia.
    + exact first_update_ok.
  - vm_compute. lia.
  - exact second_empty_ok.
Qed.

Lemma reachable_states_are_consistent_witness :
  evaluate_renders sample_engine /\ rerender_in_place sample_engine /\
  DOM.wf (dom (heap sample_world)) /\ 0 < DOM.nextNode (dom (heap sample_world)) /\
  @reachable sample_engine 0 sample_world morph_after_second world_after_second /\
  DOM.wf (dom (heap world_after_second)) /\
  template_morph_ok morph_after_second (heap world_after_second) /\
  parentNode (super morph_after_second) = 0 /\
  (lastResult morph_after_second = None <->
     currentOperations (super morph_after_second) = Appending \/
     exists c, currentOperations (super morph_after_second) = Empty c) /\
  (forall b, currentOperations (super morph_after_second) = HasContent b ->
     exists r, lastResult morph_after_second = Some r /\ b = ResultBounds r) /\
  TemplateMorph.firstNode morph_after_second world_after_second
  = EmptyableMorph.firstNode (super morph_after_second) world_after_second /\
  TemplateMorph.lastNode morph_after_second world_after_second
  = EmptyableMorph.lastNode (super morph_after_second) world_after_second.
Proof.
  assert (Hp : 0 < DOM.nextNode (dom (heap sample_world))) by (vm_compute; lia).
  split; [exact (sizedEngine_renders (fun t => t))|].
  split; [exact (sizedEngine_in_place (fun t => t))|].
  split; [exact sample_dom_wf|]. split; [exact Hp|].
  split; [exact reachable_after_second|].
  exact (@reachable_states_are_consistent sample_engine 0 sample_world
           morph_after_second world_after_second
           (sizedEngine_renders (fun t => t)) (sizedEngine_in_place (fun t => t))
           sample_dom_wf Hp reachable_after_second).
Defined.
